(** * TrampoAI backend: connection manager and tool-calling orchestrator

    A shallow embedding of the TypeScript services of the backend
    ([services/mcp-manager.ts], [services/oauth-provider.ts],
    [services/database.ts], [services/openrouter.ts]) together with the
    properties the design document states about them.

    Conventions used throughout:
    - a JavaScript string is a [string]; the separator and the schema
      keywords the code tests for are ASCII, so byte-wise comparison agrees
      with the code-unit comparison JavaScript performs;
    - a JavaScript [Map] is an association list in insertion order;
    - a SQLite table with a primary key is a [gmap] from the key to the row;
    - a nullable or optional column or field is an [option];
    - code that [throw]s returns a sum whose left summand is the error;
    - collaborators that live outside the repository (the MCP SDK session,
      the LLM backend, [JSON.parse], [JSON.stringify], [uuidv4]) are
      section variables or explicit inputs of the operations. *)

From Stdlib Require Import Floats.PrimFloat Strings.Ascii.
From stdpp Require Import gmap strings list pretty.

Set Default Proof Using "Type".

(* ================================================================== *)
(** * Strings: the JavaScript built-ins the services rely on *)
(* ================================================================== *)

(** The reserved separator of namespaced tool names. *)
Definition SEP : string := "__".

Definition is_underscore (c : ascii) : bool := Ascii.eqb c "_"%char.

(** [s.split('__')]: scan left to right, cutting at every occurrence of the
    separator that does not overlap the previous one.  [cur] is the piece
    being accumulated. *)
Fixpoint split_sep_from (cur s : string) : list string :=
  match s with
  | EmptyString => [cur]
  | String c s' =>
      match s' with
      | String c' s'' =>
          if is_underscore c && is_underscore c'
          then cur :: split_sep_from EmptyString s''
          else split_sep_from (cur +:+ String c EmptyString) s'
      | EmptyString => [cur +:+ String c EmptyString]
      end
  end.

Definition split_sep (s : string) : list string := split_sep_from EmptyString s.

(** [parts.join('__')]. *)
Fixpoint join_sep (parts : list string) : string :=
  match parts with
  | [] => EmptyString
  | [p] => p
  | p :: rest => p +:+ SEP +:+ join_sep rest
  end.

(** [s.includes('__')]. *)
Fixpoint contains_sep (s : string) : bool :=
  match s with
  | EmptyString => false
  | String c s' =>
      match s' with
      | String c' _ => (is_underscore c && is_underscore c') || contains_sep s'
      | EmptyString => false
      end
  end.

(** [s.endsWith('_')]. *)
Fixpoint ends_with_underscore (s : string) : bool :=
  match s with
  | EmptyString => false
  | String c EmptyString => is_underscore c
  | String _ s' => ends_with_underscore s'
  end.

(** [s.includes('_')]. *)
Fixpoint contains_underscore (s : string) : bool :=
  match s with
  | EmptyString => false
  | String c s' => is_underscore c || contains_underscore s'
  end.

(* ================================================================== *)
(** * Tool namespacing ([openrouter.ts]) *)
(* ================================================================== *)

(** The template literal of [convertMCPToolsToOpenRouterFormat]:
    [`${connectionId}__${tool.name}`]. *)
Definition compose_name (connectionId toolName : string) : string :=
  connectionId +:+ SEP +:+ toolName.

(** The first three lines of [executeTool]:
    [const [connectionId, ...toolNameParts] = functionName.split('__');
     const toolName = toolNameParts.join('__');] *)
Definition decompose_name (functionName : string) : string * string :=
  match split_sep functionName with
  | connectionId :: toolNameParts => (connectionId, join_sep toolNameParts)
  | [] => (EmptyString, EmptyString)
  end.

(** ** Facts about [split] and [join] *)

Lemma append_cons (c : ascii) (s t : string) :
  String c s +:+ t = String c (s +:+ t).
Proof. reflexivity. Qed.

Lemma append_nil_l (t : string) : EmptyString +:+ t = t.
Proof. reflexivity. Qed.

Lemma append_nil_r (s : string) : s +:+ EmptyString = s.
Proof.
  induction s as [|c s IH]; [reflexivity|].
  now rewrite append_cons, IH.
Qed.

Lemma append_assoc (a b c : string) : (a +:+ b) +:+ c = a +:+ (b +:+ c).
Proof.
  induction a as [|x a IH]; [reflexivity|].
  now rewrite !append_cons, IH.
Qed.

Lemma append_snoc (cur : string) (c : ascii) (s : string) :
  (cur +:+ String c EmptyString) +:+ s = cur +:+ String c s.
Proof. now rewrite append_assoc. Qed.

(** Induction on strings two characters at a time, matching the look-ahead
    of [split_sep_from]. *)
Lemma string_ind2 (P : string -> Prop) :
  P EmptyString ->
  (forall c, P (String c EmptyString)) ->
  (forall c c' s, P s -> P (String c' s) -> P (String c (String c' s))) ->
  forall s, P s.
Proof.
  intros H0 H1 H2 s.
  assert (H : P s /\ forall c, P (String c s)).
  { induction s as [|c s [IHa IHb]]; split; auto. }
  exact (proj1 H).
Qed.

Lemma split_sep_from_cons2 (cur : string) (c c' : ascii) (s : string) :
  split_sep_from cur (String c (String c' s))
  = if is_underscore c && is_underscore c'
    then cur :: split_sep_from EmptyString s
    else split_sep_from (cur +:+ String c EmptyString) (String c' s).
Proof. reflexivity. Qed.

Lemma split_sep_from_nonempty (cur s : string) : split_sep_from cur s <> [].
Proof.
  revert cur. induction s as [|c|c c' s IHs IHs'] using string_ind2; intros cur.
  - discriminate.
  - discriminate.
  - rewrite split_sep_from_cons2.
    destruct (is_underscore c && is_underscore c'); [discriminate|].
    apply IHs'.
Qed.

(** Joining the pieces of a split restores the string: the pieces are cut
    exactly at the separators that [join] puts back. *)
Lemma join_split_from (s cur : string) :
  join_sep (split_sep_from cur s) = cur +:+ s.
Proof.
  revert cur. induction s as [|c|c c' s IHs IHs'] using string_ind2; intros cur.
  - cbn [split_sep_from join_sep]. now rewrite append_nil_r.
  - reflexivity.
  - rewrite split_sep_from_cons2.
    destruct (is_underscore c && is_underscore c') eqn:E.
    + apply andb_prop in E as [Ec Ec'].
      apply Ascii.eqb_eq in Ec, Ec'. subst c c'.
      specialize (IHs EmptyString). rewrite append_nil_l in IHs.
      pose proof (split_sep_from_nonempty EmptyString s) as Hne.
      destruct (split_sep_from EmptyString s) as [|p ps]; [congruence|].
      change (join_sep (cur :: p :: ps)) with (cur +:+ SEP +:+ join_sep (p :: ps)).
      now rewrite IHs.
    + rewrite IHs'. now rewrite append_snoc.
Qed.

Lemma join_split (s : string) : join_sep (split_sep s) = s.
Proof. apply join_split_from. Qed.

(** Splitting [id ++ "__" ++ rest] cuts first at the separator that
    [compose_name] inserted, provided no separator starts earlier: [id]
    holds none and does not end in an underscore (which, glued to the
    inserted separator, would start one a character early). *)
Lemma split_compose_from (id rest cur : string) :
  contains_sep id = false ->
  ends_with_underscore id = false ->
  split_sep_from cur (id +:+ SEP +:+ rest)
  = (cur +:+ id) :: split_sep_from EmptyString rest.
Proof.
  revert cur. induction id as [|c id IH]; intros cur Hsep Hend.
  - rewrite append_nil_l, append_nil_r. reflexivity.
  - rewrite append_cons.
    destruct id as [|c' id'].
    + (* a one-character identifier *)
      cbn [ends_with_underscore] in Hend. rewrite append_nil_l.
      change (SEP +:+ rest) with (String "_" (String "_" rest)).
      rewrite split_sep_from_cons2, Hend. cbn [andb].
      now rewrite split_sep_from_cons2.
    + cbn [contains_sep] in Hsep. apply orb_false_elim in Hsep as [Hcc Hsep].
      specialize (IH (cur +:+ String c EmptyString) Hsep Hend).
      rewrite append_cons in *.
      rewrite split_sep_from_cons2, Hcc.
      rewrite IH. now rewrite append_snoc.
Qed.

Lemma contains_underscore_sep (s : string) :
  contains_underscore s = false ->
  contains_sep s = false /\ ends_with_underscore s = false.
Proof.
  induction s as [|c s IH]; [now split|].
  cbn [contains_underscore]. intros H. apply orb_false_elim in H as [Hc Hs].
  destruct (IH Hs) as [IH1 IH2].
  destruct s as [|c' s]; cbn [contains_sep ends_with_underscore] in *; [now split|].
  cbn [contains_underscore] in Hs. apply orb_false_elim in Hs as [Hc' _].
  rewrite Hc. cbn [andb orb]. split; assumption.
Qed.

(** ** Round trip of namespaced tool names *)

(** C6 (as amended): for every connection identifier that holds no
    separator and does not end in an underscore, and for every tool name
    (which may itself hold the separator), decomposing the composite name
    as [executeTool] does recovers exactly the identifier and the tool
    name. *)
Theorem namespaced_name_roundtrip (connectionId toolName : string) :
  contains_sep connectionId = false ->
  ends_with_underscore connectionId = false ->
  decompose_name (compose_name connectionId toolName) = (connectionId, toolName).
Proof.
  intros Hsep Hend. unfold decompose_name, compose_name, split_sep.
  rewrite split_compose_from by assumption.
  rewrite append_nil_l. f_equal. apply join_split.
Qed.

Lemma namespaced_name_roundtrip_witness :
  decompose_name (compose_name "9b2f-4c1e" "repo__list_files")
  = ("9b2f-4c1e", "repo__list_files").
Proof.
  apply (namespaced_name_roundtrip "9b2f-4c1e" "repo__list_files");
    reflexivity.
Defined.

(** Identifiers produced by [uuidv4] are hexadecimal digits and hyphens, so
    they satisfy both side conditions. *)
Corollary roundtrip_without_underscore (connectionId toolName : string) :
  contains_underscore connectionId = false ->
  decompose_name (compose_name connectionId toolName) = (connectionId, toolName).
Proof.
  intros H. destruct (contains_underscore_sep _ H) as [Hsep Hend].
  unfold decompose_name, compose_name, split_sep.
  rewrite split_compose_from by assumption.
  rewrite append_nil_l. f_equal. apply join_split.
Qed.

(** C6 (as stated) fails: an identifier that holds no separator but ends in
    an underscore completes a separator one character early, and the
    underscore moves from the identifier to the tool name. *)
Lemma namespaced_name_roundtrip_counterexample :
  contains_sep "a_" = false /\
  decompose_name (compose_name "a_" "b") = ("a", "_b") /\
  decompose_name (compose_name "a_" "b") <> ("a_", "b").
Proof. repeat split. discriminate. Qed.

(* ================================================================== *)
(** * JSON documents *)
(* ================================================================== *)

Set Warnings "-register-all,-inexact-float".

(** A value produced by [JSON.parse]: a tool's [inputSchema] arrives over
    the wire, so it is a tree of these.  Numbers are IEEE 754 doubles, as in
    JavaScript.  An object is the list of its own enumerable properties in
    the order [Object.entries] yields them. *)
Inductive json : Type :=
| JNull
| JBool (b : bool)
| JNum (n : float)
| JStr (s : string)
| JArr (items : list json)
| JObj (fields : list (string * json)).

(** [Record<string, unknown>]. *)
Definition obj : Type := list (string * json).

Definition children (v : json) : list json :=
  match v with
  | JArr items => items
  | JObj fields => map snd fields
  | _ => []
  end.

(** Structural induction that reaches into arrays and objects. *)
Lemma json_ind_nested (P : json -> Prop)
    (Hnull : P JNull) (Hbool : forall b, P (JBool b))
    (Hnum : forall n, P (JNum n)) (Hstr : forall s, P (JStr s))
    (Harr : forall items, Forall P items -> P (JArr items))
    (Hobj : forall fields, Forall P (map snd fields) -> P (JObj fields)) :
  forall v, P v.
Proof.
  fix IH 1. intros [ | b | n | s | items | fields].
  - exact Hnull.
  - apply Hbool.
  - apply Hnum.
  - apply Hstr.
  - apply Harr. induction items as [|x l IHl]; constructor; [apply IH | exact IHl].
  - apply Hobj. induction fields as [|[k x] l IHl]; constructor; [apply IH | exact IHl].
Qed.

(** [Boolean(v)]: the values JavaScript treats as false are [null],
    [false], [0], [-0], [NaN] and the empty string. *)
Definition truthy (v : json) : bool :=
  match v with
  | JNull => false
  | JBool b => b
  | JNum n => negb (PrimFloat.eqb n 0%float || PrimFloat.is_nan n)
  | JStr s => negb (String.eqb s EmptyString)
  | JArr _ | JObj _ => true
  end.

(** [v && typeof v === 'object']: [typeof] answers ['object'] for objects,
    arrays and [null], and the conjunction rules [null] out. *)
Definition is_object (v : json) : bool :=
  match v with
  | JArr _ | JObj _ => true
  | _ => false
  end.

(** [Array.isArray(v)]. *)
Definition isArray (v : json) : bool :=
  match v with
  | JArr _ => true
  | _ => false
  end.

(** [Object.entries(array)]: the indices, as decimal strings, paired with
    the elements. *)
Definition array_entries (items : list json) : obj :=
  imap (fun i x => (pretty i, x)) items.

(** Reading an own property; [None] is [undefined]. *)
Fixpoint obj_get (o : obj) (k : string) : option json :=
  match o with
  | [] => None
  | (k', v) :: o' => if String.eqb k' k then Some v else obj_get o' k
  end.

Definition obj_has (o : obj) (k : string) : bool :=
  existsb (fun kv => String.eqb (fst kv) k) o.

(** Overwriting an existing property keeps its position. *)
Fixpoint obj_update (o : obj) (k : string) (v : json) : obj :=
  match o with
  | [] => []
  | (k', v') :: o' =>
      if String.eqb k' k then (k', v) :: o' else (k', v') :: obj_update o' k v
  end.

(** [o[k] = v] on an object created by a literal [{}]: an existing property
    is overwritten in place and a new one goes last.  The key [__proto__]
    is the one exception: the assignment reaches the setter that
    [Object.prototype] inherits to every literal and creates no own
    property. *)
Definition obj_assign (o : obj) (k : string) (v : json) : obj :=
  if String.eqb k "__proto__" then o
  else if obj_has o k then obj_update o k v
  else o ++ [(k, v)].

(** A run of assignments onto a fresh [{}]. *)
Definition assign_all (entries : obj) : obj :=
  fold_left (fun o kv => obj_assign o (fst kv) (snd kv)) entries [].

(** SameValueZero, the equality of [Set]: primitives by value, with [NaN]
    equal to itself and [0] equal to [-0]; objects and arrays by
    reference, and two positions of a parsed document never hold the same
    reference. *)
Definition same_value_zero (a b : json) : bool :=
  match a, b with
  | JNull, JNull => true
  | JBool x, JBool y => Bool.eqb x y
  | JNum x, JNum y =>
      PrimFloat.eqb x y || (PrimFloat.is_nan x && PrimFloat.is_nan y)
  | JStr x, JStr y => String.eqb x y
  | _, _ => false
  end.

(** [set.add(v)], the set kept in insertion order. *)
Definition set_add (seen : list json) (v : json) : list json :=
  if existsb (same_value_zero v) seen then seen else seen ++ [v].

(** [[...new Set(values)]]. *)
Definition dedupe (values : list json) : list json :=
  fold_left set_add values [].

(* ================================================================== *)
(** * Schema sanitizer ([openrouter.ts]) *)
(* ================================================================== *)

Definition allowedSchemaProps : list string :=
  [ "type"; "properties"; "required"; "description"; "additionalProperties";
    "items"; "enum"; "default"; "title"; "anyOf"; "oneOf"; "allOf"; "not";
    "minimum"; "maximum"; "minLength"; "maxLength"; "pattern"; "format";
    "minItems"; "maxItems"; "uniqueItems"; "const"; "examples";
    "minProperties"; "maxProperties"; "propertyNames"; "nullable" ].

(** [allowedSchemaProps.has(key)]. *)
Definition allowed (key : string) : bool :=
  existsb (String.eqb key) allowedSchemaProps.

(** [key.startsWith('$')]. *)
Definition starts_with_dollar (key : string) : bool :=
  match key with
  | String c _ => Ascii.eqb c "$"%char
  | EmptyString => false
  end.

(** The two [continue] guards at the head of the loop body. *)
Definition keep_key (key : string) : bool :=
  negb (starts_with_dollar key) && allowed key.

Section SanitizeStep.
(** The recursive call, left open so that the loop body can be named. *)
Variable rec : json -> obj.

(** [x && typeof x === 'object' ? this.sanitizeSchemaDefinition(x) : x],
    used for the fields of [properties] and the members of
    [anyOf]/[oneOf]/[allOf]. *)
Definition sanitize_member (x : json) : json :=
  if is_object x then JObj (rec x) else x.

(** The inner loop over [Object.entries(propsObj)]: field names are data
    and are never filtered. *)
Definition sanitize_properties (propsObj : json) : obj :=
  match propsObj with
  | JObj fields =>
      fold_left
        (fun sanitizedProps '(fieldName, fieldSchema) =>
           obj_assign sanitizedProps fieldName (sanitize_member fieldSchema))
        fields []
  | JArr items => assign_all (array_entries (map sanitize_member items))
  | _ => []
  end.

(** The [if]/[else if] chain that computes what is stored under [key]. *)
Definition sanitize_value (key : string) (value : json) : json :=
  if String.eqb key "properties" && is_object value then
    JObj (sanitize_properties value)
  else if String.eqb key "items" && is_object value then
    JObj (rec value)
  else if (String.eqb key "anyOf" || String.eqb key "oneOf"
           || String.eqb key "allOf") && isArray value then
    match value with
    | JArr items => JArr (map sanitize_member items)
    | _ => value
    end
  else if String.eqb key "additionalProperties" && is_object value then
    JObj (rec value)
  else if String.eqb key "required" && isArray value then
    match value with
    | JArr items => JArr (dedupe items)
    | _ => value
    end
  else value.
End SanitizeStep.

(** [sanitizeSchemaDefinition(schema)].  Every call passes an object or an
    array.  An array has only index keys, none of which is an allowed
    schema keyword, so the loop skips them all and the result is [{}]. *)
Fixpoint sanitizeSchemaDefinition (schema : json) : obj :=
  match schema with
  | JObj fields =>
      fold_left
        (fun result '(key, value) =>
           if starts_with_dollar key then result
           else if negb (allowed key) then result
           else obj_assign result key
                  (sanitize_value sanitizeSchemaDefinition key value))
        fields []
  | _ => []
  end.

Definition truthy_prop (o : obj) (k : string) : bool :=
  match obj_get o k with
  | Some v => truthy v
  | None => false
  end.

(** [sanitizeSchema(schema)]: the root schema gets [type: 'object'] when it
    has no truthy [type], and [properties: {}] when it is an object schema
    with no truthy [properties]. *)
Definition sanitizeSchema (schema : obj) : obj :=
  let sanitized := sanitizeSchemaDefinition (JObj schema) in
  let sanitized :=
    if negb (truthy_prop sanitized "type")
    then obj_assign sanitized "type" (JStr "object")
    else sanitized in
  let sanitized :=
    if match obj_get sanitized "type" with
       | Some (JStr t) => String.eqb t "object"
       | _ => false
       end && negb (truthy_prop sanitized "properties")
    then obj_assign sanitized "properties" (JObj [])
    else sanitized in
  sanitized.

Example sanitize_sample :
  sanitizeSchema
    [ ("$schema", JStr "x");
      ("properties",
        JObj [ ("q", JObj [("type", JStr "string"); ("x-hint", JNull)]);
               ("__proto__", JObj []);
               ("n", JNum 3%float) ]);
      ("required", JArr [JStr "q"; JStr "q"; JNum 0%float; JNum (-0)%float]);
      ("anyOf", JArr [JArr [JNull]; JBool true]) ]
  = [ ("properties",
        JObj [ ("q", JObj [("type", JStr "string")]); ("n", JNum 3%float) ]);
      ("required", JArr [JStr "q"; JNum 0%float]);
      ("anyOf", JArr [JObj []; JBool true]);
      ("type", JStr "object") ].
Proof. vm_compute. reflexivity. Qed.

(** ** Objects built by assignment *)

Definition keys (o : obj) : list string := map fst o.

Lemma keys_app (o1 o2 : obj) : keys (o1 ++ o2) = keys o1 ++ keys o2.
Proof. apply map_app. Qed.

Lemma obj_has_false (o : obj) (k : string) :
  obj_has o k = false <-> k ∉ keys o.
Proof.
  unfold obj_has. induction o as [|[k' v'] o IH]; simpl.
  - split; [intros _; apply not_elem_of_nil | reflexivity].
  - rewrite not_elem_of_cons, orb_false_iff, IH.
    destruct (String.eqb_spec k' k); split; intros [? ?]; split;
      congruence || auto.
Qed.

Lemma obj_has_true (o : obj) (k : string) :
  obj_has o k = true <-> k ∈ keys o.
Proof.
  destruct (obj_has o k) eqn:E.
  - split; [intros _ | reflexivity].
    destruct (decide (k ∈ keys o)) as [?|Hn]; [assumption|].
    apply obj_has_false in Hn. congruence.
  - apply obj_has_false in E. split; [discriminate | contradiction].
Qed.

Lemma keys_update (o : obj) (k : string) (v : json) :
  keys (obj_update o k v) = keys o.
Proof.
  induction o as [|[k' v'] o IH]; [reflexivity|].
  simpl. destruct (String.eqb k' k); simpl; [reflexivity | now rewrite IH].
Qed.

Lemma elem_of_update (o : obj) (k : string) (v : json) (e : string * json) :
  e ∈ obj_update o k v -> e ∈ o \/ e = (k, v).
Proof.
  induction o as [|[k' v'] o IH]; simpl; [intros H; now left|].
  destruct (String.eqb_spec k' k) as [->|Hne].
  - rewrite !elem_of_cons. intros [->|H]; auto.
  - rewrite !elem_of_cons. intros [->|H]; [auto|].
    destruct (IH H); auto.
Qed.

Lemma elem_of_assign (o : obj) (k : string) (v : json) (e : string * json) :
  e ∈ obj_assign o k v -> e ∈ o \/ e = (k, v).
Proof.
  unfold obj_assign. destruct (String.eqb k "__proto__"); [now left|].
  destruct (obj_has o k).
  - apply elem_of_update.
  - rewrite elem_of_app, list_elem_of_singleton. tauto.
Qed.

(** An object in the shape assignment leaves it: no key twice, and never
    an own [__proto__]. *)
Definition well_keyed (o : obj) : Prop :=
  NoDup (keys o) /\ "__proto__" ∉ keys o.

Lemma well_keyed_nil : well_keyed [].
Proof. split; [constructor | apply not_elem_of_nil]. Qed.

Lemma well_keyed_assign (o : obj) (k : string) (v : json) :
  well_keyed o -> well_keyed (obj_assign o k v).
Proof.
  intros [Hnd Hp]. unfold obj_assign.
  destruct (String.eqb_spec k "__proto__") as [->|Hk]; [now split|].
  destruct (obj_has o k) eqn:E.
  - unfold well_keyed. now rewrite keys_update.
  - apply obj_has_false in E. unfold well_keyed. rewrite keys_app. simpl.
    split.
    + apply NoDup_app. repeat split; [assumption | | apply NoDup_singleton].
      intros x Hx Hx'. apply list_elem_of_singleton in Hx'. now subst.
    + rewrite elem_of_app, list_elem_of_singleton. intros [?|?]; auto.
Qed.

Definition assign_entry (o : obj) (kv : string * json) : obj :=
  obj_assign o (fst kv) (snd kv).

Lemma assign_all_unfold (entries : obj) :
  assign_all entries = fold_left assign_entry entries [].
Proof. reflexivity. Qed.

Lemma well_keyed_fold (entries acc : obj) :
  well_keyed acc -> well_keyed (fold_left assign_entry entries acc).
Proof.
  revert acc. induction entries as [|kv l IH]; intros acc H; [exact H|].
  simpl. apply IH. now apply well_keyed_assign.
Qed.

Lemma elem_of_fold (entries acc : obj) (e : string * json) :
  e ∈ fold_left assign_entry entries acc -> e ∈ acc \/ e ∈ entries.
Proof.
  revert acc. induction entries as [|[k v] l IH]; intros acc; simpl; [now left|].
  intros H. destruct (IH _ H) as [H'|H'].
  - destruct (elem_of_assign _ _ _ _ H') as [?| ->]; [now left|].
    right. apply elem_of_cons. now left.
  - right. apply elem_of_cons. now right.
Qed.

(** Replaying the entries of a well-keyed object onto [{}] rebuilds it. *)
Lemma fold_well_keyed (entries acc : obj) :
  well_keyed (acc ++ entries) ->
  fold_left assign_entry entries acc = acc ++ entries.
Proof.
  revert acc. induction entries as [|[k v] l IH]; intros acc [Hnd Hp].
  - simpl. now rewrite app_nil_r.
  - simpl. unfold assign_entry at 2. simpl. unfold obj_assign.
    rewrite keys_app in Hnd, Hp. simpl in Hnd, Hp.
    destruct (String.eqb_spec k "__proto__") as [->|Hk].
    { exfalso. apply Hp. apply elem_of_app. right. apply elem_of_cons. now left. }
    apply NoDup_app in Hnd as (Hacc & Hdisj & Hl).
    assert (Hfresh : obj_has acc k = false).
    { apply obj_has_false. intros Hin. apply (Hdisj _ Hin).
      apply elem_of_cons. now left. }
    rewrite Hfresh.
    rewrite IH.
    + now rewrite <- app_assoc.
    + rewrite <- app_assoc. simpl. split; rewrite keys_app; simpl.
      * apply NoDup_app. repeat split; assumption.
      * exact Hp.
Qed.

Lemma assign_all_well_keyed (o : obj) : well_keyed o -> assign_all o = o.
Proof. intros H. rewrite assign_all_unfold. now apply fold_well_keyed. Qed.

Lemma assign_all_is_well_keyed (entries : obj) : well_keyed (assign_all entries).
Proof. apply well_keyed_fold, well_keyed_nil. Qed.

Lemma assign_all_Forall (P : string * json -> Prop) (entries : obj) :
  Forall P entries -> Forall P (assign_all entries).
Proof.
  rewrite !Forall_forall. intros H e He.
  destruct (elem_of_fold _ _ _ He) as [Hn|Hin]; [|auto].
  now apply elem_of_nil in Hn.
Qed.

Lemma obj_get_update (o : obj) (k k' : string) (v : json) :
  obj_get (obj_update o k v) k'
  = if String.eqb k k' && obj_has o k then Some v else obj_get o k'.
Proof.
  induction o as [|[k0 v0] o IH]; simpl.
  - now rewrite andb_false_r.
  - unfold obj_has in *. simpl.
    destruct (String.eqb_spec k0 k) as [->|Hne]; simpl.
    + destruct (String.eqb_spec k k'); simpl; reflexivity.
    + rewrite IH. destruct (String.eqb_spec k0 k') as [->|Hne'].
      * destruct (String.eqb_spec k k'); [congruence | reflexivity].
      * reflexivity.
Qed.

Lemma obj_get_app (o1 o2 : obj) (k : string) :
  obj_get (o1 ++ o2) k
  = match obj_get o1 k with Some v => Some v | None => obj_get o2 k end.
Proof.
  induction o1 as [|[k0 v0] o1 IH]; simpl; [reflexivity|].
  destruct (String.eqb k0 k); [reflexivity | exact IH].
Qed.

Lemma obj_get_none (o : obj) (k : string) :
  obj_has o k = false -> obj_get o k = None.
Proof.
  unfold obj_has. induction o as [|[k0 v0] o IH]; simpl; [reflexivity|].
  intros H. apply orb_false_elim in H as [H1 H2]. rewrite H1. auto.
Qed.

Lemma obj_get_assign_eq (o : obj) (k : string) (v : json) :
  k <> "__proto__" -> obj_get (obj_assign o k v) k = Some v.
Proof.
  intros Hk. unfold obj_assign.
  destruct (String.eqb_spec k "__proto__"); [contradiction|].
  destruct (obj_has o k) eqn:E.
  - rewrite obj_get_update, E, String.eqb_refl. reflexivity.
  - rewrite obj_get_app, (obj_get_none _ _ E). simpl.
    now rewrite String.eqb_refl.
Qed.

Lemma obj_get_assign_ne (o : obj) (k k' : string) (v : json) :
  k <> k' -> obj_get (obj_assign o k v) k' = obj_get o k'.
Proof.
  intros Hk. unfold obj_assign.
  destruct (String.eqb k "__proto__"); [reflexivity|].
  destruct (obj_has o k) eqn:E.
  - rewrite obj_get_update. destruct (String.eqb_spec k k'); [contradiction|].
    reflexivity.
  - rewrite obj_get_app. simpl.
    destruct (String.eqb_spec k k'); [contradiction|].
    now destruct (obj_get o k').
Qed.

(** ** [Set]-based de-duplication *)

(** Lists built by [set_add]: every element was new when it arrived. *)
Inductive distinct : list json -> Prop :=
| distinct_nil : distinct []
| distinct_snoc (l : list json) (v : json) :
    distinct l -> existsb (same_value_zero v) l = false -> distinct (l ++ [v]).

Lemma distinct_set_add (l : list json) (v : json) :
  distinct l -> distinct (set_add l v).
Proof.
  intros H. unfold set_add.
  destruct (existsb (same_value_zero v) l) eqn:E; [exact H|].
  now constructor.
Qed.

Lemma distinct_fold (values acc : list json) :
  distinct acc -> distinct (fold_left set_add values acc).
Proof.
  revert acc. induction values as [|v l IH]; intros acc H; [exact H|].
  simpl. apply IH. now apply distinct_set_add.
Qed.

Lemma distinct_snoc_inv (l : list json) (v : json) :
  distinct (l ++ [v]) -> distinct l /\ existsb (same_value_zero v) l = false.
Proof.
  intros H. inversion H as [Hnil | l' v' Hl Hv Heq].
  - now destruct l.
  - apply app_inj_tail in Heq as [-> ->]. now split.
Qed.

Lemma distinct_prefix (l1 l2 : list json) : distinct (l1 ++ l2) -> distinct l1.
Proof.
  induction l2 as [|v l2 IH] using rev_ind; intros H.
  - now rewrite app_nil_r in H.
  - rewrite app_assoc in H. apply distinct_snoc_inv in H as [H _]. auto.
Qed.

Lemma fold_distinct (values acc : list json) :
  distinct (acc ++ values) -> fold_left set_add values acc = acc ++ values.
Proof.
  revert acc. induction values as [|v l IH]; intros acc H.
  - simpl. now rewrite app_nil_r.
  - simpl. replace (acc ++ v :: l) with ((acc ++ [v]) ++ l) in *
      by now rewrite <- app_assoc.
    pose proof (distinct_prefix _ _ H) as Hp.
    apply distinct_snoc_inv in Hp as [_ Hv].
    unfold set_add at 2. rewrite Hv. now apply IH.
Qed.

Lemma dedupe_idempotent (values : list json) :
  dedupe (dedupe values) = dedupe values.
Proof.
  unfold dedupe at 1. apply (fold_distinct _ []).
  apply distinct_fold. constructor.
Qed.

(** ** The sanitizer's loops as runs of assignments *)

Section SanitizeLoops.
Variable rec : json -> obj.

Definition value_entry (kv : string * json) : string * json :=
  (fst kv, sanitize_value rec (fst kv) (snd kv)).

Definition member_entry (kv : string * json) : string * json :=
  (fst kv, sanitize_member rec (snd kv)).

Lemma schema_loop_fold (fields acc : obj) :
  fold_left
    (fun result '(key, value) =>
       if starts_with_dollar key then result
       else if negb (allowed key) then result
       else obj_assign result key (sanitize_value rec key value))
    fields acc
  = fold_left assign_entry
      (map value_entry (List.filter (fun kv => keep_key (fst kv)) fields)) acc.
Proof.
  revert acc. induction fields as [|[k v] l IH]; intros acc; [reflexivity|].
  simpl. unfold keep_key at 1. simpl.
  destruct (starts_with_dollar k); simpl; [apply IH|].
  destruct (allowed k); simpl; apply IH.
Qed.

Lemma properties_loop_fold (fields acc : obj) :
  fold_left
    (fun sanitizedProps '(fieldName, fieldSchema) =>
       obj_assign sanitizedProps fieldName (sanitize_member rec fieldSchema))
    fields acc
  = fold_left assign_entry (map member_entry fields) acc.
Proof.
  revert acc. induction fields as [|[k v] l IH]; intros acc; [reflexivity|].
  simpl. apply IH.
Qed.

Lemma array_entries_map (items : list json) :
  array_entries (map (sanitize_member rec) items)
  = map member_entry (array_entries items).
Proof.
  unfold array_entries.
  assert (H : forall (f : nat -> nat) (its : list json),
    imap (fun i x => (pretty (f i), x)) (map (sanitize_member rec) its)
    = map member_entry (imap (fun i x => (pretty (f i), x)) its)).
  { intros f its. revert f.
    induction its as [|x l IH]; intros f; [reflexivity|].
    simpl. f_equal. apply (IH (f ∘ S)). }
  apply (H (fun i => i)).
Qed.

(** Both shapes a [properties] value can take lead to one run of
    assignments over its entries. *)
Definition entries_of (v : json) : obj :=
  match v with
  | JObj fields => fields
  | JArr items => array_entries items
  | _ => []
  end.

Lemma sanitize_properties_fold (v : json) :
  sanitize_properties rec v = assign_all (map member_entry (entries_of v)).
Proof.
  destruct v; try reflexivity.
  - simpl. now rewrite array_entries_map.
  - simpl. now rewrite properties_loop_fold.
Qed.
End SanitizeLoops.

(** ** Arrays handed to [sanitizeSchemaDefinition]

    The definition returns [{}] for an array without running the loop.
    This is what the loop over [Object.entries(array)] computes: an index
    key ends in a digit and no allowed keyword does, so every entry is
    skipped. *)

Fixpoint last_char (s : string) : option ascii :=
  match s with
  | EmptyString => None
  | String c EmptyString => Some c
  | String _ s' => last_char s'
  end.

Definition is_digit (c : ascii) : bool :=
  match Ascii.is_nat c with
  | Some _ => true
  | None => false
  end.

Definition ends_in_digit (s : string) : bool :=
  match last_char s with
  | Some c => is_digit c
  | None => false
  end.

Lemma last_char_cons (c : ascii) (s : string) :
  s <> EmptyString -> last_char (String c s) = last_char s.
Proof. now destruct s. Qed.

Lemma pretty_N_go_last (x : N) (s : string) :
  s <> EmptyString -> last_char (pretty_N_go x s) = last_char s.
Proof.
  revert s. induction (N.lt_wf_0 x) as [x _ IH]; intros s Hs.
  destruct (decide (x = 0)%N) as [->|Hx].
  - now rewrite pretty_N_go_0.
  - rewrite pretty_N_go_step by lia.
    rewrite IH; [now apply last_char_cons | apply N.div_lt; lia | discriminate].
Qed.

Lemma pretty_N_char_digit (x : N) : is_digit (pretty_N_char x) = true.
Proof. unfold pretty_N_char. now repeat case_match. Qed.

Lemma pretty_nat_ends_in_digit (i : nat) : ends_in_digit (pretty i) = true.
Proof.
  unfold pretty, pretty_nat, pretty, pretty_N, ends_in_digit.
  destruct (decide (N.of_nat i = 0)%N) as [_|Hx]; [reflexivity|].
  rewrite pretty_N_go_step by lia.
  rewrite pretty_N_go_last by discriminate.
  apply pretty_N_char_digit.
Qed.

Lemma allowed_not_index (key : string) :
  allowed key = true -> ends_in_digit key = false.
Proof.
  unfold allowed. intros H. apply existsb_exists in H as (k & Hin & Heq).
  apply String.eqb_eq in Heq. subst k.
  assert (Hall : Forall (fun k => ends_in_digit k = false) allowedSchemaProps)
    by (repeat constructor).
  rewrite Forall_forall in Hall. now apply Hall, list_elem_of_In.
Qed.

Remark array_loop_skips_everything (rec : json -> obj) (items : list json) :
  fold_left
    (fun result '(key, value) =>
       if starts_with_dollar key then result
       else if negb (allowed key) then result
       else obj_assign result key (sanitize_value rec key value))
    (array_entries items) []
  = sanitizeSchemaDefinition (JArr items).
Proof.
  rewrite schema_loop_fold.
  assert (Hnone : List.filter (fun kv : string * json => keep_key (fst kv))
                    (array_entries items) = []).
  { unfold array_entries.
    cut (forall (f : nat -> nat) (l : list json),
           List.filter (fun kv : string * json => keep_key (fst kv))
             (imap (fun i x => (pretty (f i), x)) l) = []).
    { intros H. apply (H (fun i => i)). }
    intros f l. revert f. induction l as [|x l IH]; intros f; [reflexivity|].
    simpl. unfold keep_key at 1. simpl.
    destruct (allowed (pretty (f 0))) eqn:E.
    - apply allowed_not_index in E.
      now rewrite pretty_nat_ends_in_digit in E.
    - rewrite andb_false_r. apply (IH (f ∘ S)). }
  now rewrite Hnone.
Qed.

(** ** Idempotence of the sanitizer *)

Abbreviation sanitize_value' := (sanitize_value sanitizeSchemaDefinition).
Abbreviation sanitize_member' := (sanitize_member sanitizeSchemaDefinition).

Arguments sanitizeSchemaDefinition : simpl never.
Arguments sanitize_properties : simpl never.
Arguments dedupe : simpl never.

(** What [sanitizeSchemaDefinition] returns: a well-keyed object whose keys
    all pass the two guards and whose values the [if] chain leaves alone. *)
Definition sanitized (o : obj) : Prop :=
  well_keyed o /\
  Forall (fun kv => keep_key (fst kv) = true
                    /\ sanitize_value' (fst kv) (snd kv) = snd kv) o.

Lemma sanitizeSchemaDefinition_obj (fields : obj) :
  sanitizeSchemaDefinition (JObj fields)
  = assign_all (map (value_entry sanitizeSchemaDefinition)
                  (List.filter (fun kv => keep_key (fst kv)) fields)).
Proof.
  rewrite assign_all_unfold, <- schema_loop_fold. reflexivity.
Qed.

Lemma filter_all {A : Type} (p : A -> bool) (l : list A) :
  Forall (fun x => p x = true) l -> List.filter p l = l.
Proof.
  induction 1 as [|x l Hx Hl IH]; [reflexivity|].
  simpl. now rewrite Hx, IH.
Qed.

Lemma map_fixed {A : Type} (f : A -> A) (l : list A) :
  Forall (fun x => f x = x) l -> map f l = l.
Proof.
  induction 1 as [|x l Hx Hl IH]; [reflexivity|].
  simpl. now rewrite Hx, IH.
Qed.

(** A sanitized object is a fixed point. *)
Lemma sanitized_fixed (o : obj) :
  sanitized o -> sanitizeSchemaDefinition (JObj o) = o.
Proof.
  intros [Hwk Hall]. rewrite sanitizeSchemaDefinition_obj.
  rewrite filter_all by (eapply Forall_impl; [exact Hall | now intros ? [? _]]).
  rewrite map_fixed.
  - now apply assign_all_well_keyed.
  - eapply Forall_impl; [exact Hall|]. intros [k v] [_ Hv]. unfold value_entry.
    simpl in *. now rewrite Hv.
Qed.

Lemma sanitized_nil : sanitized [].
Proof. split; [apply well_keyed_nil | constructor]. Qed.

Lemma sanitize_member_idem (x : json) :
  sanitized (sanitizeSchemaDefinition x) ->
  sanitize_member' (sanitize_member' x) = sanitize_member' x.
Proof.
  intros H. unfold sanitize_member. destruct (is_object x) eqn:E.
  - simpl. now rewrite sanitized_fixed.
  - now rewrite E.
Qed.

Lemma elem_of_array_entries (items : list json) (e : string * json) :
  e ∈ array_entries items -> snd e ∈ items.
Proof.
  unfold array_entries. intros H.
  apply elem_of_lookup_imap in H as (i & x & -> & Hx).
  simpl. eapply list_elem_of_lookup_2; eauto.
Qed.

Lemma elem_of_entries_of (v : json) (e : string * json) :
  e ∈ entries_of v -> snd e ∈ children v.
Proof.
  destruct v; simpl; try (intros H; now apply elem_of_nil in H).
  - apply elem_of_array_entries.
  - intros H. apply list_elem_of_fmap. now exists e.
Qed.

(** The properties of a [properties] value: sanitizing twice is sanitizing
    once, given that this holds for each field's schema. *)
Lemma sanitize_properties_idem (v : json) :
  Forall (fun y => sanitized (sanitizeSchemaDefinition y)) (children v) ->
  sanitize_properties sanitizeSchemaDefinition
    (JObj (sanitize_properties sanitizeSchemaDefinition v))
  = sanitize_properties sanitizeSchemaDefinition v.
Proof.
  intros Hch.
  rewrite (sanitize_properties_fold _ (JObj _)). simpl.
  rewrite map_fixed.
  - apply assign_all_well_keyed. rewrite sanitize_properties_fold.
    apply assign_all_is_well_keyed.
  - rewrite sanitize_properties_fold. apply assign_all_Forall.
    apply Forall_forall. intros e He.
    apply list_elem_of_fmap in He as (e0 & -> & He0).
    unfold member_entry. simpl. f_equal.
    apply sanitize_member_idem.
    rewrite Forall_forall in Hch. apply Hch.
    now apply elem_of_entries_of.
Qed.

(** The branches of the [if] chain. *)
Lemma sanitize_value_cases (rec : json -> obj) (key : string) (v : json) :
  (key = "properties" /\ is_object v = true
   /\ sanitize_value rec key v = JObj (sanitize_properties rec v))
  \/ ((key = "items" \/ key = "additionalProperties") /\ is_object v = true
      /\ sanitize_value rec key v = JObj (rec v))
  \/ ((key = "anyOf" \/ key = "oneOf" \/ key = "allOf")
      /\ exists its, v = JArr its
         /\ sanitize_value rec key v = JArr (map (sanitize_member rec) its))
  \/ (key = "required"
      /\ exists its, v = JArr its /\ sanitize_value rec key v = JArr (dedupe its))
  \/ sanitize_value rec key v = v.
Proof.
  unfold sanitize_value.
  destruct (String.eqb_spec key "properties") as [->|_];
    [destruct v; simpl; auto 10|].
  destruct (String.eqb_spec key "items") as [->|_];
    [destruct v; simpl; auto 10|].
  destruct (String.eqb_spec key "anyOf") as [->|_];
    [destruct v; simpl; eauto 12|].
  destruct (String.eqb_spec key "oneOf") as [->|_];
    [destruct v; simpl; eauto 12|].
  destruct (String.eqb_spec key "allOf") as [->|_];
    [destruct v; simpl; eauto 12|].
  destruct (String.eqb_spec key "additionalProperties") as [->|_];
    [destruct v; simpl; auto 10|].
  destruct (String.eqb_spec key "required") as [->|_];
    [destruct v; simpl; eauto 12|].
  simpl. auto 10.
Qed.

(** The [if] chain applied twice under the same key settles after one
    application. *)
Lemma sanitize_value_idem (key : string) (v : json) :
  sanitized (sanitizeSchemaDefinition v) ->
  Forall (fun y => sanitized (sanitizeSchemaDefinition y)) (children v) ->
  sanitize_value' key (sanitize_value' key v) = sanitize_value' key v.
Proof.
  intros Hv Hch.
  destruct (sanitize_value_cases sanitizeSchemaDefinition key v)
    as [(-> & Hobj & Heq)
       |[(Hkey & Hobj & Heq)
       |[(Hkey & its & -> & Heq)
       |[(-> & its & -> & Heq)
       | Heq]]]]; rewrite Heq.
  - unfold sanitize_value. simpl. now rewrite sanitize_properties_idem.
  - destruct Hkey as [-> | ->]; unfold sanitize_value; simpl;
      now rewrite sanitized_fixed.
  - assert (Hmem : map sanitize_member' (map sanitize_member' its)
                   = map sanitize_member' its).
    { simpl in Hch. rewrite <- (list_fmap_compose _ _ its).
      apply Forall_fmap_ext_1. eapply Forall_impl; [exact Hch|].
      intros y Hy. simpl. now apply sanitize_member_idem. }
    destruct Hkey as [-> | [-> | ->]]; unfold sanitize_value; simpl;
      now rewrite Hmem.
  - unfold sanitize_value. simpl. now rewrite dedupe_idempotent.
  - exact Heq.
Qed.

(** Every result of [sanitizeSchemaDefinition] is sanitized.  The
    induction carries the same fact for the children, which is what the
    [properties] and composition branches ask for. *)
Lemma sanitizeSchemaDefinition_sanitized (v : json) :
  sanitized (sanitizeSchemaDefinition v).
Proof.
  cut (sanitized (sanitizeSchemaDefinition v)
       /\ Forall (fun y => sanitized (sanitizeSchemaDefinition y)) (children v));
    [now intros [? _]|].
  induction v as [ | b | n | s | its IH | fields IH] using json_ind_nested;
    try (split; [apply sanitized_nil | constructor]).
  - split; [apply sanitized_nil|]. simpl.
    eapply Forall_impl; [exact IH | now intros ? [? _]].
  - assert (Hch : Forall (fun y => sanitized (sanitizeSchemaDefinition y))
                    (map snd fields)).
    { eapply Forall_impl; [exact IH | now intros ? [? _]]. }
    split; [|exact Hch].
    rewrite sanitizeSchemaDefinition_obj. split.
    + apply assign_all_is_well_keyed.
    + apply assign_all_Forall. apply Forall_forall. intros e He.
      apply list_elem_of_fmap in He as ([k x] & -> & Hkx).
      apply list_elem_of_In, filter_In in Hkx as [Hin Hkeep].
      simpl in *. split; [exact Hkeep|].
      rewrite Forall_forall in IH.
      destruct (IH x) as [Hx Hxs].
      { apply list_elem_of_fmap. exists (k, x). split; [reflexivity|].
        now apply list_elem_of_In. }
      now apply sanitize_value_idem.
Qed.

Lemma sanitized_assign (o : obj) (k : string) (v : json) :
  sanitized o -> keep_key k = true -> sanitize_value' k v = v ->
  sanitized (obj_assign o k v).
Proof.
  intros [Hwk Hall] Hk Hv. split; [now apply well_keyed_assign|].
  rewrite Forall_forall in *. intros e He.
  destruct (elem_of_assign _ _ _ _ He) as [Ho| ->]; [now apply Hall|].
  now split.
Qed.

Lemma sanitizeSchema_sanitized (schema : obj) : sanitized (sanitizeSchema schema).
Proof.
  unfold sanitizeSchema.
  pose proof (sanitizeSchemaDefinition_sanitized (JObj schema)) as H0.
  set (s1 := sanitizeSchemaDefinition (JObj schema)) in *.
  assert (H1 : sanitized (if negb (truthy_prop s1 "type")
                          then obj_assign s1 "type" (JStr "object") else s1)).
  { destruct (negb (truthy_prop s1 "type")); [|exact H0].
    now apply sanitized_assign. }
  set (s2 := if negb (truthy_prop s1 "type") then _ else s1) in *.
  match goal with |- sanitized (if ?c then _ else _) => destruct c end;
    [|exact H1].
  now apply sanitized_assign.
Qed.

(** C7: the schema sanitizer is idempotent: sanitizing an already
    sanitized schema returns it unchanged, for every input schema. *)
Theorem sanitizeSchema_idempotent (schema : obj) :
  sanitizeSchema (sanitizeSchema schema) = sanitizeSchema schema.
Proof.
  pose proof (sanitizeSchema_sanitized schema) as Hs.
  unfold sanitizeSchema at 1.
  rewrite (sanitized_fixed _ Hs).
  (* the root schema has a truthy [type] ... *)
  assert (Htype : truthy_prop (sanitizeSchema schema) "type" = true).
  { unfold sanitizeSchema.
    set (s1 := sanitizeSchemaDefinition (JObj schema)).
    assert (H2 : truthy_prop (if negb (truthy_prop s1 "type")
                              then obj_assign s1 "type" (JStr "object")
                              else s1) "type" = true).
    { destruct (truthy_prop s1 "type") eqn:E; simpl; [exact E|].
      unfold truthy_prop. now rewrite obj_get_assign_eq. }
    set (s2 := if negb (truthy_prop s1 "type") then _ else s1) in *.
    match goal with |- truthy_prop (if ?c then _ else _) _ = _ => destruct c end;
      [|exact H2].
    unfold truthy_prop in *. now rewrite obj_get_assign_ne. }
  rewrite Htype. simpl.
  (* ... and, when that type is ['object'], truthy [properties] *)
  assert (Hprops :
    match obj_get (sanitizeSchema schema) "type" with
    | Some (JStr t) => String.eqb t "object"
    | _ => false
    end && negb (truthy_prop (sanitizeSchema schema) "properties") = false).
  { unfold sanitizeSchema.
    set (s1 := sanitizeSchemaDefinition (JObj schema)).
    set (s2 := if negb (truthy_prop s1 "type") then _ else s1).
    match goal with
    | |- context [if ?c then obj_assign s2 _ _ else s2] => destruct c eqn:E
    end; [|exact E].
    unfold truthy_prop at 1. rewrite obj_get_assign_eq by discriminate.
    simpl. apply andb_false_r. }
  now rewrite Hprops.
Qed.

(** The recursive sanitizer on its own is idempotent as well. *)
Corollary sanitizeSchemaDefinition_idempotent (v : json) :
  sanitizeSchemaDefinition (JObj (sanitizeSchemaDefinition v))
  = sanitizeSchemaDefinition v.
Proof. apply sanitized_fixed, sanitizeSchemaDefinition_sanitized. Qed.

(* ================================================================== *)
(** * Credential store ([database.ts], table [oauth_sessions]) *)
(* ================================================================== *)

(** A row of [oauth_sessions], keyed by [connection_id].  Every column is
    nullable [TEXT].  The bookkeeping columns [created_at] and
    [updated_at], which only [cleanupOldSessions] reads, are left out. *)
Record OAuthSessionRow : Type := {
  tokens : option string;
  code_verifier : option string;
  client_info : option string;
  authorization_url : option string;
  state : option string
}.

(** The [data] argument of [oauthDb.upsert] after [?? null] has been
    applied to each field: [None] is a field the caller did not name (or,
    for [authorization_url], named as [null]). *)
Record OAuthWrite : Type := {
  w_tokens : option string;
  w_code_verifier : option string;
  w_client_info : option string;
  w_authorization_url : option string;
  w_state : option string
}.

Definition no_write : OAuthWrite :=
  {| w_tokens := None; w_code_verifier := None; w_client_info := None;
     w_authorization_url := None; w_state := None |}.

(** SQL [COALESCE(a, b)]. *)
Definition COALESCE (a b : option string) : option string :=
  match a with
  | Some x => Some x
  | None => b
  end.

Abbreviation oauth_table := (gmap string OAuthSessionRow).

(** The prepared statement [upsertOAuthSession]:
    [INSERT ... ON CONFLICT(connection_id) DO UPDATE SET
       tokens = COALESCE($tokens, tokens),
       code_verifier = COALESCE($code_verifier, code_verifier),
       client_info = COALESCE($client_info, client_info),
       authorization_url = $authorization_url,
       state = COALESCE($state, state)]. *)
Definition oauth_upsert (connectionId : string) (data : OAuthWrite)
    (t : oauth_table) : oauth_table :=
  match t !! connectionId with
  | None =>
      <[connectionId := {| tokens := w_tokens data;
                           code_verifier := w_code_verifier data;
                           client_info := w_client_info data;
                           authorization_url := w_authorization_url data;
                           state := w_state data |}]> t
  | Some row =>
      <[connectionId := {| tokens := COALESCE (w_tokens data) (tokens row);
                           code_verifier :=
                             COALESCE (w_code_verifier data) (code_verifier row);
                           client_info :=
                             COALESCE (w_client_info data) (client_info row);
                           authorization_url := w_authorization_url data;
                           state := COALESCE (w_state data) (state row) |}]> t
  end.

(** [oauthDb.get]. *)
Definition oauth_get (connectionId : string) (t : oauth_table)
    : option OAuthSessionRow :=
  t !! connectionId.

(** [oauthDb.delete]. *)
Definition oauth_delete (connectionId : string) (t : oauth_table) : oauth_table :=
  delete connectionId t.

(** [oauthDb.clearTokens] and its three siblings: [UPDATE ... SET col = NULL
    WHERE connection_id = ?]. *)
Definition oauth_clearTokens (connectionId : string) (t : oauth_table)
    : oauth_table :=
  alter (fun r => {| tokens := None; code_verifier := code_verifier r;
                     client_info := client_info r;
                     authorization_url := authorization_url r;
                     state := state r |}) connectionId t.

Definition oauth_clearCodeVerifier (connectionId : string) (t : oauth_table)
    : oauth_table :=
  alter (fun r => {| tokens := tokens r; code_verifier := None;
                     client_info := client_info r;
                     authorization_url := authorization_url r;
                     state := state r |}) connectionId t.

Definition oauth_clearClientInfo (connectionId : string) (t : oauth_table)
    : oauth_table :=
  alter (fun r => {| tokens := tokens r; code_verifier := code_verifier r;
                     client_info := None;
                     authorization_url := authorization_url r;
                     state := state r |}) connectionId t.

Definition oauth_clearAuthorizationUrl (connectionId : string) (t : oauth_table)
    : oauth_table :=
  alter (fun r => {| tokens := tokens r; code_verifier := code_verifier r;
                     client_info := client_info r;
                     authorization_url := None;
                     state := state r |}) connectionId t.

(* ================================================================== *)
(** * Authorization flow adapter ([oauth-provider.ts]) *)
(* ================================================================== *)

Inductive Scope : Type := scope_all | scope_client | scope_tokens | scope_verifier.

(** The calls the SDK's OAuth client makes on the provider object that
    [createOAuthClientProvider] returns.  Values are already serialized:
    [client_info] and [tokens] are stored as [JSON.stringify] of what the
    SDK hands over. *)
Inductive ProviderCall : Type :=
| call_state (generated : string)
| call_saveClientInformation (clientInfo : string)
| call_saveTokens (tokens : string)
| call_redirectToAuthorization (authorizationUrl : string)
| call_saveCodeVerifier (codeVerifier : string)
| call_invalidateCredentials (scope : Scope).

(** [x || undefined] on a nullable text column: [NULL] and the empty string
    both read as [undefined]. *)
Definition nonempty (x : option string) : option string :=
  match x with
  | Some EmptyString => None
  | other => other
  end.

Definition provider_call (connectionId : string) (c : ProviderCall)
    (t : oauth_table) : oauth_table :=
  match c with
  | call_state s =>
      oauth_upsert connectionId
        {| w_tokens := None; w_code_verifier := None; w_client_info := None;
           w_authorization_url := None; w_state := Some s |} t
  | call_saveClientInformation ci =>
      oauth_upsert connectionId
        {| w_tokens := None; w_code_verifier := None; w_client_info := Some ci;
           w_authorization_url := None; w_state := None |} t
  | call_saveTokens tk =>
      oauth_upsert connectionId
        {| w_tokens := Some tk; w_code_verifier := None; w_client_info := None;
           w_authorization_url := None; w_state := None |} t
  | call_redirectToAuthorization url =>
      oauth_upsert connectionId
        {| w_tokens := None; w_code_verifier := None; w_client_info := None;
           w_authorization_url := Some url; w_state := None |} t
  | call_saveCodeVerifier cv =>
      oauth_upsert connectionId
        {| w_tokens := None; w_code_verifier := Some cv; w_client_info := None;
           w_authorization_url := None; w_state := None |} t
  | call_invalidateCredentials scope_all => oauth_delete connectionId t
  | call_invalidateCredentials scope_tokens => oauth_clearTokens connectionId t
  | call_invalidateCredentials scope_verifier =>
      oauth_clearCodeVerifier connectionId t
  | call_invalidateCredentials scope_client =>
      oauth_clearClientInfo connectionId t
  end.

(** ** Merging behaviour of the upsert *)

(** C5 (as amended): an upsert on an existing session record merges the
    columns [tokens], [code_verifier], [client_info] and [state]: each one
    takes the written value when the write names it and keeps its previous
    value otherwise, so none of them is ever cleared by an upsert.  The
    column [authorization_url] is not merged: it is assigned what the write
    carries, which is [NULL] when the write does not name it.  Records of
    other connections are untouched. *)
Theorem oauth_upsert_merges (t : oauth_table) (connectionId : string)
    (row : OAuthSessionRow) (data : OAuthWrite) :
  t !! connectionId = Some row ->
  exists row',
    oauth_upsert connectionId data t !! connectionId = Some row'
    /\ tokens row' = COALESCE (w_tokens data) (tokens row)
    /\ code_verifier row' = COALESCE (w_code_verifier data) (code_verifier row)
    /\ client_info row' = COALESCE (w_client_info data) (client_info row)
    /\ state row' = COALESCE (w_state data) (state row)
    /\ (w_tokens data = None -> tokens row' = tokens row)
    /\ (w_code_verifier data = None -> code_verifier row' = code_verifier row)
    /\ (w_client_info data = None -> client_info row' = client_info row)
    /\ (w_state data = None -> state row' = state row)
    /\ (is_Some (tokens row) -> is_Some (tokens row'))
    /\ (is_Some (code_verifier row) -> is_Some (code_verifier row'))
    /\ (is_Some (client_info row) -> is_Some (client_info row'))
    /\ (is_Some (state row) -> is_Some (state row'))
    /\ authorization_url row' = w_authorization_url data
    /\ (forall other, other <> connectionId ->
          oauth_upsert connectionId data t !! other = t !! other).
Proof.
  intros Hrow. unfold oauth_upsert. rewrite Hrow.
  eexists. split; [apply lookup_insert_eq|]. simpl.
  assert (Hkeep : forall a b, is_Some b -> is_Some (COALESCE a b)).
  { intros [x|] b Hb; [now exists x | exact Hb]. }
  repeat split; try (intros ->; reflexivity); try apply Hkeep.
  intros other Hne. now rewrite lookup_insert_ne.
Qed.

(** The scoped clears touch one column, and [all] removes the record. *)
Lemma invalidate_tokens_keeps_siblings (id : string) (t : oauth_table)
    (row : OAuthSessionRow) :
  t !! id = Some row ->
  provider_call id (call_invalidateCredentials scope_tokens) t !! id
  = Some {| tokens := None; code_verifier := code_verifier row;
            client_info := client_info row;
            authorization_url := authorization_url row;
            state := state row |}.
Proof.
  intros H. simpl. unfold oauth_clearTokens.
  now rewrite lookup_alter_eq, H.
Qed.

Lemma invalidate_all_leaves_nothing (id : string) (t : oauth_table) :
  provider_call id (call_invalidateCredentials scope_all) t !! id = None.
Proof. simpl. apply lookup_delete_eq. Qed.

Definition sample_session : OAuthSessionRow :=
  {| tokens := None; code_verifier := Some "verifier";
     client_info := Some "client"; authorization_url := Some "https://auth.example/authorize";
     state := Some "nonce" |}.

Definition sample_write_tokens : OAuthWrite :=
  {| w_tokens := Some "access"; w_code_verifier := None; w_client_info := None;
     w_authorization_url := None; w_state := None |}.

Lemma oauth_upsert_merges_witness :
  exists row',
    oauth_upsert "c1" sample_write_tokens {["c1" := sample_session]} !! "c1"
      = Some row'
    /\ tokens row' = Some "access"
    /\ code_verifier row' = Some "verifier"
    /\ client_info row' = Some "client"
    /\ state row' = Some "nonce".
Proof.
  destruct (oauth_upsert_merges {["c1" := sample_session]} "c1" sample_session
              sample_write_tokens)
    as (row' & H & Ht & Hv & Hc & Hs & _).
  - reflexivity.
  - exists row'. repeat split; assumption.
Defined.

(** C5 (as stated) fails for [authorization_url]: a write that names only
    [tokens] erases the stored authorization URL. *)
Lemma oauth_upsert_merges_counterexample :
  w_authorization_url sample_write_tokens = None /\
  authorization_url sample_session = Some "https://auth.example/authorize" /\
  (authorization_url <$>
     oauth_upsert "c1" sample_write_tokens {["c1" := sample_session]} !! "c1")
  = Some None.
Proof. repeat split. Qed.

(* ================================================================== *)
(** * JavaScript [Map] with string keys *)
(* ================================================================== *)

Section JsMap.
Context {V : Type}.

(** Entries in insertion order. *)
Definition JsMap : Type := list (string * V).

Fixpoint Map_get (m : JsMap) (k : string) : option V :=
  match m with
  | [] => None
  | (k', v) :: m' => if String.eqb k' k then Some v else Map_get m' k
  end.

Definition Map_has (m : JsMap) (k : string) : bool :=
  match Map_get m k with
  | Some _ => true
  | None => false
  end.

Fixpoint Map_replace (m : JsMap) (k : string) (v : V) : JsMap :=
  match m with
  | [] => []
  | (k', v') :: m' =>
      if String.eqb k' k then (k', v) :: m' else (k', v') :: Map_replace m' k v
  end.

(** [m.set(k, v)]: an existing key keeps its position. *)
Definition Map_set (m : JsMap) (k : string) (v : V) : JsMap :=
  if Map_has m k then Map_replace m k v else m ++ [(k, v)].

(** [m.delete(k)]. *)
Fixpoint Map_delete (m : JsMap) (k : string) : JsMap :=
  match m with
  | [] => []
  | (k', v) :: m' =>
      if String.eqb k' k then Map_delete m' k else (k', v) :: Map_delete m' k
  end.

(** [m.values()]. *)
Definition Map_values (m : JsMap) : list V := map snd m.

Lemma Map_get_app (m1 m2 : JsMap) (k : string) :
  Map_get (m1 ++ m2) k
  = match Map_get m1 k with Some v => Some v | None => Map_get m2 k end.
Proof.
  induction m1 as [|[k' v'] m1 IH]; simpl; [reflexivity|].
  destruct (String.eqb k' k); [reflexivity | exact IH].
Qed.

Lemma Map_get_replace (m : JsMap) (k k' : string) (v : V) :
  Map_get (Map_replace m k v) k'
  = if String.eqb k k' && Map_has m k then Some v else Map_get m k'.
Proof.
  unfold Map_has. induction m as [|[k0 v0] m IH]; simpl.
  - now rewrite andb_false_r.
  - destruct (String.eqb_spec k0 k) as [->|Hne]; simpl.
    + destruct (String.eqb_spec k k'); reflexivity.
    + rewrite IH. destruct (String.eqb_spec k0 k') as [->|Hne'].
      * destruct (String.eqb_spec k k'); [congruence | reflexivity].
      * reflexivity.
Qed.

Lemma Map_get_set (m : JsMap) (k k' : string) (v : V) :
  Map_get (Map_set m k v) k' = if String.eqb k k' then Some v else Map_get m k'.
Proof.
  unfold Map_set. destruct (Map_has m k) eqn:E.
  - rewrite Map_get_replace, E. now rewrite andb_true_r.
  - rewrite Map_get_app. simpl. unfold Map_has in E.
    destruct (String.eqb_spec k k') as [->|Hne].
    + destruct (Map_get m k'); [discriminate | reflexivity].
    + now destruct (Map_get m k').
Qed.

Lemma Map_get_delete (m : JsMap) (k k' : string) :
  Map_get (Map_delete m k) k' = if String.eqb k k' then None else Map_get m k'.
Proof.
  induction m as [|[k0 v0] m IH]; simpl.
  - now destruct (String.eqb k k').
  - destruct (String.eqb_spec k0 k) as [->|Hne]; simpl.
    + rewrite IH. destruct (String.eqb_spec k k'); reflexivity.
    + rewrite IH. destruct (String.eqb_spec k0 k') as [->|Hne'].
      * destruct (String.eqb_spec k k'); [congruence | reflexivity].
      * reflexivity.
Qed.

Lemma Map_has_set (m : JsMap) (k k' : string) (v : V) :
  Map_has (Map_set m k v) k' = String.eqb k k' || Map_has m k'.
Proof.
  unfold Map_has. rewrite Map_get_set. now destruct (String.eqb k k').
Qed.

Lemma Map_has_delete (m : JsMap) (k k' : string) :
  Map_has (Map_delete m k) k' = negb (String.eqb k k') && Map_has m k'.
Proof.
  unfold Map_has. rewrite Map_get_delete. now destruct (String.eqb k k').
Qed.

Lemma elem_of_Map_replace (m : JsMap) (k : string) (v : V) (e : string * V) :
  e ∈ Map_replace m k v -> e ∈ m \/ e = (k, v).
Proof.
  induction m as [|[k' v'] m IH]; simpl; [now left|].
  destruct (String.eqb_spec k' k) as [->|Hne]; rewrite !elem_of_cons.
  - intros [->|H]; auto.
  - intros [->|H]; [auto|]. destruct (IH H); auto.
Qed.

Lemma elem_of_Map_set (m : JsMap) (k : string) (v : V) (e : string * V) :
  e ∈ Map_set m k v -> e ∈ m \/ e = (k, v).
Proof.
  unfold Map_set. destruct (Map_has m k).
  - apply elem_of_Map_replace.
  - rewrite elem_of_app, list_elem_of_singleton. tauto.
Qed.

Lemma Forall_Map_set (P : string * V -> Prop) (m : JsMap) (k : string) (v : V) :
  Forall P m -> P (k, v) -> Forall P (Map_set m k v).
Proof.
  rewrite !Forall_forall. intros Hm Hkv e He.
  destruct (elem_of_Map_set _ _ _ _ He) as [?| ->]; auto.
Qed.

Lemma elem_of_Map_delete (m : JsMap) (k : string) (e : string * V) :
  e ∈ Map_delete m k -> e ∈ m.
Proof.
  induction m as [|[k' v'] m IH]; simpl; [trivial|].
  destruct (String.eqb k' k); rewrite ?elem_of_cons; intuition.
Qed.

Lemma Forall_Map_delete (P : string * V -> Prop) (m : JsMap) (k : string) :
  Forall P m -> Forall P (Map_delete m k).
Proof.
  rewrite !Forall_forall. intros Hm e He.
  apply Hm. now apply elem_of_Map_delete in He.
Qed.
Lemma Map_get_None (m : JsMap) (k : string) :
  Map_get m k = None <-> k ∉ map fst m.
Proof.
  induction m as [|[k' v'] m IH]; simpl.
  - split; [intros _; apply not_elem_of_nil | reflexivity].
  - rewrite not_elem_of_cons.
    destruct (String.eqb_spec k' k) as [->|Hne].
    + split; [discriminate | now intros [? _]].
    + rewrite IH. split; [intros ?; split; auto | now intros [_ ?]].
Qed.

Lemma Map_keys_replace (m : JsMap) (k : string) (v : V) :
  map fst (Map_replace m k v) = map fst m.
Proof.
  induction m as [|[k' v'] m IH]; [reflexivity|].
  simpl. destruct (String.eqb k' k); simpl; [reflexivity | now rewrite IH].
Qed.

Lemma Map_set_NoDup (m : JsMap) (k : string) (v : V) :
  NoDup (map fst m) -> NoDup (map fst (Map_set m k v)).
Proof.
  intros H. unfold Map_set, Map_has. destruct (Map_get m k) eqn:E.
  - now rewrite Map_keys_replace.
  - apply Map_get_None in E. rewrite map_app. simpl.
    apply NoDup_app. repeat split; [exact H | | apply NoDup_singleton].
    intros x Hx Hx'. apply list_elem_of_singleton in Hx'. now subst.
Qed.

Lemma Map_delete_NoDup (m : JsMap) (k : string) :
  NoDup (map fst m) -> NoDup (map fst (Map_delete m k)).
Proof.
  induction m as [|[k' v'] m IH]; simpl; [trivial|].
  rewrite NoDup_cons. intros [Hk Hm].
  destruct (String.eqb k' k); [auto|].
  simpl. apply NoDup_cons. split; [|auto].
  intros Hin. apply Hk.
  apply list_elem_of_fmap in Hin as (e & -> & He).
  apply list_elem_of_fmap. exists e. split; [reflexivity|].
  now apply elem_of_Map_delete in He.
Qed.

(** With unique keys, a lookup finds the entry stored under the key. *)
Lemma Map_get_elem_of (m : JsMap) (k : string) (v : V) :
  NoDup (map fst m) -> (k, v) ∈ m -> Map_get m k = Some v.
Proof.
  induction m as [|[k' v'] m IH]; simpl; intros Hnd Hin.
  - now apply elem_of_nil in Hin.
  - apply NoDup_cons in Hnd as [Hk Hm].
    apply elem_of_cons in Hin as [Heq|Hin].
    + inversion Heq; subst. now rewrite String.eqb_refl.
    + destruct (String.eqb_spec k' k) as [->|Hne]; [|auto].
      exfalso. apply Hk. apply list_elem_of_fmap. now exists (k, v).
Qed.
End JsMap.

Arguments JsMap : clear implicits.

(* ================================================================== *)
(** * Session store (table [mcp_connections] of [database.ts]) *)
(* ================================================================== *)

(** A row of the table [mcp_connections], keyed by [id]. *)
Record MCPConnectionRow : Type := {
  row_url : string;
  row_name : string;
  row_status : string
}.

Abbreviation connection_table := (gmap string MCPConnectionRow).

(** [mcpDb.upsert], [mcpDb.delete], [mcpDb.updateStatus]. *)
Definition mcpDb_upsert (id url name status : string) (t : connection_table)
    : connection_table :=
  <[id := {| row_url := url; row_name := name; row_status := status |}]> t.

Definition mcpDb_delete (id : string) (t : connection_table) : connection_table :=
  delete id t.

Definition mcpDb_updateStatus (id status : string) (t : connection_table)
    : connection_table :=
  alter (fun r => {| row_url := row_url r; row_name := row_name r;
                     row_status := status |}) id t.

(* ================================================================== *)
(** * Reading the credential record ([oauth-provider.ts]) *)
(* ================================================================== *)

(** [OAuthSession], the record as [getSession()] hands it to the
    provider's readers: the two JSON columns parsed. *)
Record OAuthSession : Type := {
  session_tokens : option json;
  session_codeVerifier : option string;
  session_clientInfo : option json;
  session_authorizationUrl : option string;
  session_state : option string
}.

Section Provider.
(** [JSON.parse]; the left summand is the message of the [SyntaxError] it
    throws. *)
Variable JSON_parse : string -> string + json.

(** [column ? JSON.parse(column) : undefined]. *)
Definition parse_column (column : option string) : string + option json :=
  match nonempty column with
  | None => inr None
  | Some text =>
      match JSON_parse text with
      | inl syntaxError => inl syntaxError
      | inr value => inr (Some value)
      end
  end.

(** [getSession()]: no row reads as [{}]; otherwise [tokens] and
    [client_info] are parsed, in this order, on every read, so a column
    that does not parse makes every reader throw. *)
Definition getSession (connectionId : string) (t : oauth_table)
    : string + OAuthSession :=
  match oauth_get connectionId t with
  | None =>
      inr {| session_tokens := None; session_codeVerifier := None;
             session_clientInfo := None; session_authorizationUrl := None;
             session_state := None |}
  | Some row =>
      match parse_column (tokens row) with
      | inl syntaxError => inl syntaxError
      | inr parsedTokens =>
          match parse_column (client_info row) with
          | inl syntaxError => inl syntaxError
          | inr parsedClientInfo =>
              inr {| session_tokens := parsedTokens;
                     session_codeVerifier := nonempty (code_verifier row);
                     session_clientInfo := parsedClientInfo;
                     session_authorizationUrl :=
                       nonempty (authorization_url row);
                     session_state := nonempty (state row) |}
          end
      end
  end.

(** The provider's readers; the left summand is the message of what they
    throw. *)
Definition provider_tokens (connectionId : string) (t : oauth_table)
    : string + option json :=
  match getSession connectionId t with
  | inl syntaxError => inl syntaxError
  | inr session => inr (session_tokens session)
  end.

Definition provider_clientInformation (connectionId : string) (t : oauth_table)
    : string + option json :=
  match getSession connectionId t with
  | inl syntaxError => inl syntaxError
  | inr session => inr (session_clientInfo session)
  end.

(** [codeVerifier()] also throws when nothing is stored. *)
Definition provider_codeVerifier (connectionId : string) (t : oauth_table)
    : string + string :=
  match getSession connectionId t with
  | inl syntaxError => inl syntaxError
  | inr session =>
      match session_codeVerifier session with
      | Some cv => inr cv
      | None => inl "No code verifier found"
      end
  end.

Definition getAuthorizationUrl (connectionId : string) (t : oauth_table)
    : string + option string :=
  match getSession connectionId t with
  | inl syntaxError => inl syntaxError
  | inr session => inr (session_authorizationUrl session)
  end.

(* ================================================================== *)
(** * Connection manager ([mcp-manager.ts]) *)
(* ================================================================== *)

(** ** Data model *)

Record MCPTool : Type := {
  tool_name : string;
  tool_description : option string;
  inputSchema : obj
}.

(** [status: 'connected' | 'disconnected' | 'error' | 'pending_auth']. *)
Inductive Status : Type :=
| st_connected | st_disconnected | st_error | st_pending_auth.

Definition status_text (s : Status) : string :=
  match s with
  | st_connected => "connected"
  | st_disconnected => "disconnected"
  | st_error => "error"
  | st_pending_auth => "pending_auth"
  end.

(** Which transport class an object was built from. *)
Inductive Transport : Type := StreamableHTTP | SSE.

(** An SDK [Client] object, known by its identity. *)
Definition Client : Type := nat.

Record MCPConnection : Type := {
  conn_id : string;
  conn_url : string;
  conn_name : string;
  conn_status : Status;
  conn_tools : list MCPTool;
  conn_client : Client;
  conn_transport : Transport
}.

(** [Omit<MCPConnection, 'client' | 'transport'>]. *)
Record PublicConnection : Type := {
  pub_id : string;
  pub_url : string;
  pub_name : string;
  pub_status : Status;
  pub_tools : list MCPTool
}.

Definition public_view (c : MCPConnection) : PublicConnection :=
  {| pub_id := conn_id c; pub_url := conn_url c; pub_name := conn_name c;
     pub_status := conn_status c; pub_tools := conn_tools c |}.

(** An entry of [pendingConnections].  The [authProvider] it also holds is
    determined by the key it is stored under. *)
Record PendingConnection : Type := {
  pending_url : string;
  pending_name : string;
  pending_transport : Transport;
  pending_client : Client
}.

Inductive ConnectResult : Type :=
| result_connection (connection : PublicConnection)
| result_needsAuth (authorizationUrl connectionId : string).

(** Everything the manager reads and writes: its two maps, the two tables,
    and the record of the sessions on which [close()] has been called. *)
Record Manager : Type := {
  connections : JsMap MCPConnection;
  pendingConnections : JsMap PendingConnection;
  oauth_sessions : oauth_table;
  mcp_connections : connection_table;
  close_calls : list Client
}.

(** The state at process start: both maps empty, the tables as the last
    run left them. *)
Definition startup (oauth : oauth_table) (saved : connection_table) : Manager :=
  {| connections := []; pendingConnections := []; oauth_sessions := oauth;
     mcp_connections := saved; close_calls := [] |}.

(** ** What the SDK does during one call *)

(** How [await client.connect(transport)] followed by
    [await client.listTools()] ends. *)
Inductive SessionOutcome : Type :=
| session_ok (tools : list MCPTool)
| session_unauthorized (message : string)
| session_failed (message : option string).

(** [error instanceof Error ? error.message : 'Unknown error']. *)
Definition error_message (o : SessionOutcome) : string :=
  match o with
  | session_unauthorized msg => msg
  | session_failed (Some msg) => msg
  | _ => "Unknown error"
  end.

(** One run of the SDK against a provider: the provider-adapter calls it
    made along the way, then how it ended. *)
Record SessionRun : Type := {
  run_calls : list ProviderCall;
  run_outcome : SessionOutcome
}.

(** Whether each transport constructor accepts the URL, and what
    [new URL(url)] throws when none does. *)
Record TransportEnv : Type := {
  http_ok : bool;
  sse_ok : bool;
  ctor_error : string
}.

(** [try { new StreamableHTTPClientTransport(...) }
     catch { new SSEClientTransport(...); useSSE = true }]. *)
Definition choose_transport (e : TransportEnv) : option (Transport * bool) :=
  if http_ok e then Some (StreamableHTTP, false)
  else if sse_ok e then Some (SSE, true)
  else None.

Definition apply_calls (id : string) (calls : list ProviderCall)
    (t : oauth_table) : oauth_table :=
  fold_left (fun t c => provider_call id c t) calls t.

(** [name || new URL(url).hostname]. *)
Definition connection_name (name : option string) (hostname : string) : string :=
  match nonempty name with
  | Some n => n
  | None => hostname
  end.

(** ** Operations *)

(** [connect(url, name)].  [id] is what [uuidv4()] returned, [client] and
    [retryClient] are the two [new Client(...)] objects. *)
Definition connect (id url : string) (name : option string) (hostname : string)
    (tenv : TransportEnv) (client retryClient : Client) (run : SessionRun)
    (m : Manager) : Manager * (string + ConnectResult) :=
  match choose_transport tenv with
  | None => (m, inl (ctor_error tenv))
  | Some (transport, useSSE) =>
      let oauth := apply_calls id (run_calls run) (oauth_sessions m) in
      let connectionName := connection_name name hostname in
      match run_outcome run with
      | session_ok tools =>
          let connection :=
            {| conn_id := id; conn_url := url; conn_name := connectionName;
               conn_status := st_connected; conn_tools := tools;
               conn_client := client; conn_transport := transport |} in
          ({| connections := Map_set (connections m) id connection;
              pendingConnections := pendingConnections m;
              oauth_sessions := oauth;
              mcp_connections :=
                mcpDb_upsert id url connectionName "connected" (mcp_connections m);
              close_calls := close_calls m |},
           inr (result_connection (public_view connection)))
      | failure =>
          let captured :=
            match failure with
            | session_unauthorized _ => getAuthorizationUrl id oauth
            | _ => inr None
            end in
          match captured with
          | inl syntaxError =>
              (* [getAuthorizationUrl()] threw inside the [catch] block:
                 the error leaves [connect] as it is and the clean-up at
                 the end of the block is not reached. *)
              ({| connections := connections m;
                  pendingConnections := pendingConnections m;
                  oauth_sessions := oauth;
                  mcp_connections := mcp_connections m;
                  close_calls := close_calls m |},
               inl syntaxError)
          | inr (Some authorizationUrl) =>
              let retryTransport := if useSSE then SSE else StreamableHTTP in
              ({| connections := connections m;
                  pendingConnections :=
                    Map_set (pendingConnections m) id
                      {| pending_url := url; pending_name := connectionName;
                         pending_transport := retryTransport;
                         pending_client := retryClient |};
                  oauth_sessions := oauth_clearAuthorizationUrl id oauth;
                  mcp_connections :=
                    mcpDb_upsert id url connectionName "pending_auth"
                      (mcp_connections m);
                  close_calls := close_calls m |},
               inr (result_needsAuth authorizationUrl id))
          | inr None =>
              ({| connections := connections m;
                  pendingConnections := pendingConnections m;
                  oauth_sessions := oauth_delete id oauth;
                  mcp_connections := mcpDb_delete id (mcp_connections m);
                  close_calls := close_calls m |},
               inl ("Failed to connect to MCP server: " +:+ error_message failure))
          end
      end
  end.

(** [completeOAuthConnection(connectionId, authorizationCode)]; [run] is
    what [finishAuth], [connect] and [listTools] did on the held session. *)
Definition completeOAuthConnection (connectionId authorizationCode : string)
    (run : SessionRun) (m : Manager) : Manager * (string + ConnectResult) :=
  match Map_get (pendingConnections m) connectionId with
  | None => (m, inl ("No pending connection found for ID: " +:+ connectionId))
  | Some pending =>
      let oauth := apply_calls connectionId (run_calls run) (oauth_sessions m) in
      match run_outcome run with
      | session_ok tools =>
          let connection :=
            {| conn_id := connectionId; conn_url := pending_url pending;
               conn_name := pending_name pending;
               conn_status := st_connected; conn_tools := tools;
               conn_client := pending_client pending;
               conn_transport := pending_transport pending |} in
          ({| connections := Map_set (connections m) connectionId connection;
              pendingConnections := Map_delete (pendingConnections m) connectionId;
              oauth_sessions := oauth;
              mcp_connections :=
                mcpDb_updateStatus connectionId "connected" (mcp_connections m);
              close_calls := close_calls m |},
           inr (result_connection (public_view connection)))
      | failure =>
          ({| connections := connections m;
              pendingConnections := Map_delete (pendingConnections m) connectionId;
              oauth_sessions := oauth_delete connectionId oauth;
              mcp_connections := mcpDb_delete connectionId (mcp_connections m);
              close_calls := close_calls m |},
           inl ("Failed to complete OAuth: " +:+ error_message failure))
      end
  end.

(** [disconnect(id)].  [close_throws] says whether
    [await connection.client.close()] rejects.  The two arms after the
    call to [close] are the rest of the [try] block and the [catch]
    block. *)
Definition disconnect (id : string) (close_throws : bool) (m : Manager)
    : Manager * bool :=
  match Map_get (connections m) id, Map_get (pendingConnections m) id with
  | None, None => (m, false)
  | connection, pending =>
      match connection with
      | Some c =>
          let closing := close_calls m ++ [conn_client c] in
          if close_throws then
            ({| connections := Map_delete (connections m) id;
                pendingConnections := Map_delete (pendingConnections m) id;
                oauth_sessions := oauth_delete id (oauth_sessions m);
                mcp_connections := mcpDb_delete id (mcp_connections m);
                close_calls := closing |}, true)
          else
            ({| connections := Map_delete (connections m) id;
                pendingConnections :=
                  match pending with
                  | Some _ => Map_delete (pendingConnections m) id
                  | None => pendingConnections m
                  end;
                oauth_sessions := oauth_delete id (oauth_sessions m);
                mcp_connections := mcpDb_delete id (mcp_connections m);
                close_calls := closing |}, true)
      | None =>
          ({| connections := connections m;
              pendingConnections :=
                match pending with
                | Some _ => Map_delete (pendingConnections m) id
                | None => pendingConnections m
                end;
              oauth_sessions := oauth_delete id (oauth_sessions m);
              mcp_connections := mcpDb_delete id (mcp_connections m);
              close_calls := close_calls m |}, true)
      end
  end.

(** [reconnect(id, url, name)], the private helper of startup recovery.
    [tokens()] is called before anything else, so what it throws leaves
    [reconnect] at once; [if (!tokens)] skips the row when nothing is
    stored or what is stored parses to a falsy value. *)
Definition reconnect (id url name : string) (tenv : TransportEnv)
    (client : Client) (run : SessionRun) (m : Manager) : Manager * (string + unit) :=
  let skipped :=
    ({| connections := connections m;
        pendingConnections := pendingConnections m;
        oauth_sessions := oauth_sessions m;
        mcp_connections :=
          mcpDb_updateStatus id "disconnected" (mcp_connections m);
        close_calls := close_calls m |}, inr tt) in
  match provider_tokens id (oauth_sessions m) with
  | inl syntaxError => (m, inl syntaxError)
  | inr None => skipped
  | inr (Some stored) =>
      if negb (truthy stored) then skipped
      else
        match choose_transport tenv with
        | None => (m, inl (ctor_error tenv))
        | Some (transport, _) =>
            let oauth := apply_calls id (run_calls run) (oauth_sessions m) in
            match run_outcome run with
            | session_ok tools =>
                let connection :=
                  {| conn_id := id; conn_url := url; conn_name := name;
                     conn_status := st_connected; conn_tools := tools;
                     conn_client := client; conn_transport := transport |} in
                ({| connections := Map_set (connections m) id connection;
                    pendingConnections := pendingConnections m;
                    oauth_sessions := oauth;
                    mcp_connections :=
                      mcpDb_updateStatus id "connected" (mcp_connections m);
                    close_calls := close_calls m |}, inr tt)
            | failure =>
                ({| connections := connections m;
                    pendingConnections := pendingConnections m;
                    oauth_sessions := oauth;
                    mcp_connections := mcp_connections m;
                    close_calls := close_calls m |},
                 inl (error_message failure))
            end
        end
  end.

(** The body of the loop of [reconnectSavedConnections] for one saved
    row: [try { await this.reconnect(...) }
          catch { mcpDb.updateStatus(saved.id, 'disconnected') }]. *)
Definition reconnect_saved (id url name : string) (tenv : TransportEnv)
    (client : Client) (run : SessionRun) (m : Manager) : Manager :=
  match reconnect id url name tenv client run m with
  | (m', inr _) => m'
  | (m', inl _) =>
      {| connections := connections m';
         pendingConnections := pendingConnections m';
         oauth_sessions := oauth_sessions m';
         mcp_connections :=
           mcpDb_updateStatus id "disconnected" (mcp_connections m');
         close_calls := close_calls m' |}
  end.

(** An entry of the flattened catalog. *)
Record CatalogEntry : Type := {
  connectionId : string;
  connectionName : string;
  tool : MCPTool
}.

(** [getAllTools()]: the two nested [for ... of] loops. *)
Definition getAllTools (m : Manager) : list CatalogEntry :=
  flat_map
    (fun connection =>
       map (fun t => {| connectionId := conn_id connection;
                        connectionName := conn_name connection;
                        tool := t |})
         (conn_tools connection))
    (Map_values (connections m)).

(** ** Histories of the manager *)

(** One call on the manager, with what the outside world answered. *)
Inductive Event : Type :=
| ev_connect (id url : string) (name : option string) (hostname : string)
    (tenv : TransportEnv) (client retryClient : Client) (run : SessionRun)
| ev_completeOAuthConnection (connectionId authorizationCode : string)
    (run : SessionRun)
| ev_disconnect (id : string) (close_throws : bool)
| ev_reconnect_saved (id url name : string) (tenv : TransportEnv)
    (client : Client) (run : SessionRun).

Definition step (m : Manager) (e : Event) : Manager :=
  match e with
  | ev_connect id url name hostname tenv client retryClient run =>
      fst (connect id url name hostname tenv client retryClient run m)
  | ev_completeOAuthConnection connectionId code run =>
      fst (completeOAuthConnection connectionId code run m)
  | ev_disconnect id close_throws => fst (disconnect id close_throws m)
  | ev_reconnect_saved id url name tenv client run =>
      reconnect_saved id url name tenv client run m
  end.

Definition run_events (events : list Event) (m : Manager) : Manager :=
  fold_left step events m.

(** The three operations of the public connection flow. *)
Definition is_flow_event (e : Event) : bool :=
  match e with
  | ev_reconnect_saved _ _ _ _ _ _ => false
  | _ => true
  end.

(** [uuidv4()] hands out identifiers that are not in use: at each
    [connect] of the history, the identifier it drew keys neither map. *)
Fixpoint uuids_fresh (events : list Event) (m : Manager) : bool :=
  match events with
  | [] => true
  | e :: rest =>
      match e with
      | ev_connect id _ _ _ _ _ _ _ =>
          negb (Map_has (connections m) id)
          && negb (Map_has (pendingConnections m) id)
      | _ => true
      end && uuids_fresh rest (step m e)
  end.

(** ** The catalog only shows connected providers *)

(** Every entry of the registry is stored under its own identifier with
    status [connected], and no identifier keys two entries. *)
Definition entry_connected (kc : string * MCPConnection) : Prop :=
  conn_id (snd kc) = fst kc /\ conn_status (snd kc) = st_connected.

Definition registry_connected (m : Manager) : Prop :=
  NoDup (map fst (connections m)) /\ Forall entry_connected (connections m).

Lemma registry_connected_set (m : JsMap MCPConnection) (id : string)
    (c : MCPConnection) :
  NoDup (map fst m) /\ Forall entry_connected m ->
  conn_id c = id -> conn_status c = st_connected ->
  NoDup (map fst (Map_set m id c)) /\ Forall entry_connected (Map_set m id c).
Proof.
  intros [Hnd Hm] Hid Hst. split.
  - now apply Map_set_NoDup.
  - apply Forall_Map_set; [exact Hm | now split].
Qed.

Lemma registry_connected_delete (m : JsMap MCPConnection) (id : string) :
  NoDup (map fst m) /\ Forall entry_connected m ->
  NoDup (map fst (Map_delete m id)) /\ Forall entry_connected (Map_delete m id).
Proof.
  intros [Hnd Hm]. split.
  - now apply Map_delete_NoDup.
  - now apply Forall_Map_delete.
Qed.

Lemma step_registry_connected (m : Manager) (e : Event) :
  registry_connected m -> registry_connected (step m e).
Proof.
  unfold registry_connected. intros H.
  destruct e as [id url name hostname tenv client retryClient run
                | cid code run | id thr | id url name tenv client run]; simpl.
  - unfold connect. destruct (choose_transport tenv) as [[tr useSSE]|]; [|exact H].
    destruct (run_outcome run); simpl;
      try (destruct (getAuthorizationUrl _ _) as [syntaxError|[captured|]];
           exact H);
      try exact H.
    now apply registry_connected_set.
  - unfold completeOAuthConnection.
    destruct (Map_get (pendingConnections m) cid); [|exact H].
    destruct (run_outcome run); simpl; try exact H.
    now apply registry_connected_set.
  - unfold disconnect.
    destruct (Map_get (connections m) id), (Map_get (pendingConnections m) id);
      try destruct thr; simpl; try exact H;
      now apply registry_connected_delete.
  - unfold reconnect_saved, reconnect.
    destruct (provider_tokens id (oauth_sessions m)) as [syntaxError|[stored|]];
      try exact H.
    destruct (negb (truthy stored)); [exact H|].
    destruct (choose_transport tenv) as [[tr useSSE]|]; [|exact H].
    destruct (run_outcome run); simpl; try exact H.
    now apply registry_connected_set.
Qed.

Lemma run_registry_connected (events : list Event) (m : Manager) :
  registry_connected m -> registry_connected (run_events events m).
Proof.
  revert m. induction events as [|e l IH]; intros m H; [exact H|].
  simpl. apply IH. now apply step_registry_connected.
Qed.

Lemma startup_registry_connected (oauth : oauth_table) (saved : connection_table) :
  registry_connected (startup oauth saved).
Proof. split; constructor. Qed.

(** C1: in every state the connection registry can be in -- the state
    after any history of connect, OAuth completion, disconnect and
    startup-recovery calls, whatever the providers answered --
    [getAllTools()] returns only tools whose owning connection is in the
    registry with status [connected], and the registry holds no connection
    with status [disconnected], [error] or [pending_auth] whose tools
    could appear. *)
Theorem getAllTools_only_connected (oauth : oauth_table)
    (saved : connection_table) (events : list Event) :
  let m := run_events events (startup oauth saved) in
  Forall (fun entry =>
            exists owner,
              Map_get (connections m) (connectionId entry) = Some owner
              /\ conn_name owner = connectionName entry
              /\ tool entry ∈ conn_tools owner
              /\ conn_status owner = st_connected)
    (getAllTools m)
  /\ Forall (fun c => conn_status c = st_connected) (Map_values (connections m)).
Proof.
  intros m.
  assert (H : registry_connected m).
  { apply run_registry_connected, startup_registry_connected. }
  destruct H as [Hnd H]. split.
  - apply Forall_forall. intros entry Hin. unfold getAllTools in Hin.
    apply list_elem_of_In, in_flat_map in Hin as (c & Hc & Hentry).
    apply in_map_iff in Hentry as (t & <- & Ht). simpl.
    apply in_map_iff in Hc as ([k c'] & <- & Hkc). simpl in *.
    apply list_elem_of_In in Hkc.
    rewrite Forall_forall in H. destruct (H _ Hkc) as [Hid Hst].
    simpl in Hid, Hst. exists c'. rewrite Hid.
    repeat split; auto.
    + now apply Map_get_elem_of.
    + now apply list_elem_of_In.
  - apply Forall_fmap. eapply Forall_impl; [exact H|]. now intros ? [_ ?].
Qed.

(** The catalog itself reads no status: the guarantee rests on what the
    operations store, as this registry, which no history produces, shows. *)
Remark getAllTools_reads_no_status :
  let t := {| tool_name := "t"; tool_description := None; inputSchema := [] |} in
  let c := {| conn_id := "c"; conn_url := "u"; conn_name := "n";
              conn_status := st_error; conn_tools := [t];
              conn_client := 0; conn_transport := SSE |} in
  getAllTools {| connections := [("c", c)]; pendingConnections := [];
                 oauth_sessions := ∅; mcp_connections := ∅; close_calls := [] |}
  = [ {| connectionId := "c"; connectionName := "n"; tool := t |} ].
Proof. reflexivity. Qed.

(** ** A connection is live or pending, never both *)

Definition live_xor_pending (m : Manager) : Prop :=
  forall id,
    Map_has (connections m) id && Map_has (pendingConnections m) id = false.

Lemma step_live_xor_pending (m : Manager) (e : Event) :
  is_flow_event e = true ->
  uuids_fresh [e] m = true ->
  live_xor_pending m -> live_xor_pending (step m e).
Proof.
  unfold live_xor_pending. intros Hflow Hfresh H id'.
  destruct e as [id url name hostname tenv client retryClient run
                | cid code run | id thr | id url name tenv client run];
    simpl in *; try discriminate.
  - rewrite andb_true_r in Hfresh. apply andb_prop in Hfresh as [Hc Hp].
    apply negb_true_iff in Hc, Hp.
    unfold connect. destruct (choose_transport tenv) as [[tr useSSE]|]; [|apply H].
    destruct (run_outcome run); simpl;
      try (destruct (getAuthorizationUrl _ _) as [syntaxError|[captured|]];
           simpl);
      rewrite ?Map_has_set; try apply H;
      destruct (String.eqb_spec id id') as [->|Hne]; simpl;
      rewrite ?Hc, ?Hp, ?andb_false_r; auto.
  - unfold completeOAuthConnection.
    destruct (Map_get (pendingConnections m) cid); [|apply H].
    destruct (run_outcome run); simpl;
      rewrite ?Map_has_set, ?Map_has_delete;
      destruct (String.eqb_spec cid id') as [->|Hne]; simpl;
      rewrite ?andb_false_r; auto.
  - unfold disconnect.
    destruct (Map_get (connections m) id) eqn:Ec,
             (Map_get (pendingConnections m) id) eqn:Ep;
      try destruct thr; simpl; rewrite ?Map_has_delete; try apply H;
      destruct (String.eqb_spec id id') as [->|Hne]; simpl;
      rewrite ?andb_false_r; auto.
Qed.

(** C2: for every connection identifier and every state reached by any
    sequence of connect, completeOAuthConnection and disconnect
    operations -- [uuidv4] drawing an unused identifier at each connect --
    at most one of a registry entry and a pending entry exists for that
    identifier. *)
Theorem live_or_pending_never_both (oauth : oauth_table)
    (saved : connection_table) (events : list Event) (id : string) :
  forallb is_flow_event events = true ->
  uuids_fresh events (startup oauth saved) = true ->
  let m := run_events events (startup oauth saved) in
  Map_has (connections m) id && Map_has (pendingConnections m) id = false.
Proof.
  intros Hflow Hfresh m. subst m.
  assert (H0 : live_xor_pending (startup oauth saved)) by (intros ?; reflexivity).
  revert Hflow Hfresh H0. generalize (startup oauth saved).
  induction events as [|e l IH]; intros m Hflow Hfresh Hm; [apply Hm|].
  simpl in Hflow. apply andb_prop in Hflow as [He Hl].
  cbn [uuids_fresh] in Hfresh. apply andb_prop in Hfresh as [Hfe Hfl].
  simpl. apply IH; [exact Hl | exact Hfl |].
  apply step_live_xor_pending; [exact He | | exact Hm].
  cbn [uuids_fresh]. now rewrite Hfe.
Qed.

(** ** A sample history *)

Definition sample_tool : MCPTool :=
  {| tool_name := "search"; tool_description := Some "Search the index";
     inputSchema := [("type", JStr "object")] |}.

Definition both_transports : TransportEnv :=
  {| http_ok := true; sse_ok := true; ctor_error := "Invalid URL" |}.

Definition run_needs_auth : SessionRun :=
  {| run_calls := [ call_saveClientInformation "{}";
                    call_state "nonce";
                    call_saveCodeVerifier "verifier";
                    call_redirectToAuthorization "https://auth.example/authorize" ];
     run_outcome := session_unauthorized "Unauthorized" |}.

Definition run_connected : SessionRun :=
  {| run_calls := [call_saveTokens "{}"];
     run_outcome := session_ok [sample_tool] |}.

(** Connect a provider that asks for authorization, connect an open one,
    complete the authorization of the first, disconnect the second. *)
Definition sample_history : list Event :=
  [ ev_connect "id-1" "https://a.example/mcp" None "a.example"
      both_transports 1 2 run_needs_auth;
    ev_connect "id-2" "https://b.example/mcp" (Some "B") "b.example"
      both_transports 3 4 {| run_calls := []; run_outcome := session_ok [sample_tool] |};
    ev_completeOAuthConnection "id-1" "code" run_connected;
    ev_disconnect "id-2" true ].

(** ** Disconnecting *)

Lemma disconnect_close_irrelevant (id : string) (m : Manager) :
  disconnect id true m = disconnect id false m.
Proof.
  unfold disconnect.
  destruct (Map_get (connections m) id) as [c|] eqn:Ec,
           (Map_get (pendingConnections m) id) as [p|] eqn:Ep; try reflexivity.
  (* live but not pending: deleting the absent pending entry changes nothing *)
  f_equal. f_equal.
  assert (H : forall l : JsMap PendingConnection,
            Map_get l id = None -> Map_delete l id = l).
  { induction l as [|[k v] l IH]; simpl; [reflexivity|].
    destruct (String.eqb k id); [discriminate|]. intros E. now rewrite IH. }
  now apply H.
Qed.

(** C9: [disconnect(id)] on an identifier present in neither map returns
    [false] and changes nothing: no session is closed and no credential
    record or session-store row is deleted.  On an identifier present in
    either map it removes the live and the pending entry, deletes the
    credential record and the session-store row and returns [true], also
    when closing the session throws. *)
Theorem disconnect_spec (id : string) (close_throws : bool) (m : Manager) :
  (Map_get (connections m) id = None ->
   Map_get (pendingConnections m) id = None ->
   disconnect id close_throws m = (m, false))
  /\
  (Map_has (connections m) id || Map_has (pendingConnections m) id = true ->
   let m' := fst (disconnect id close_throws m) in
   snd (disconnect id close_throws m) = true
   /\ Map_get (connections m') id = None
   /\ Map_get (pendingConnections m') id = None
   /\ oauth_sessions m' !! id = None
   /\ mcp_connections m' !! id = None
   /\ close_calls m'
      = match Map_get (connections m) id with
        | Some c => close_calls m ++ [conn_client c]
        | None => close_calls m
        end
   /\ (forall other, other <> id ->
         Map_get (connections m') other = Map_get (connections m) other
         /\ Map_get (pendingConnections m') other
            = Map_get (pendingConnections m) other
         /\ oauth_sessions m' !! other = oauth_sessions m !! other
         /\ mcp_connections m' !! other = mcp_connections m !! other)).
Proof.
  split.
  - intros Hc Hp. unfold disconnect. now rewrite Hc, Hp.
  - intros Hfound. unfold Map_has in Hfound.
    assert (Hthrow : disconnect id close_throws m = disconnect id true m).
    { destruct close_throws; [reflexivity|].
      symmetry. apply disconnect_close_irrelevant. }
    rewrite Hthrow. clear Hthrow close_throws.
    assert (Hdel : forall V (l : JsMap V), Map_get (Map_delete l id) id = None).
    { intros V l. rewrite Map_get_delete. now rewrite String.eqb_refl. }
    assert (Hoth : forall V (l : JsMap V) other, other <> id ->
              Map_get (Map_delete l id) other = Map_get l other).
    { intros V l other Hne. rewrite Map_get_delete.
      destruct (String.eqb_spec id other); [congruence | reflexivity]. }
    unfold disconnect, oauth_delete, mcpDb_delete.
    destruct (Map_get (connections m) id) as [c|] eqn:Ec,
             (Map_get (pendingConnections m) id) as [p|] eqn:Ep;
      try discriminate; simpl;
      rewrite ?Hdel, ?lookup_delete_eq;
      (repeat split; auto;
       [ rewrite ?Hoth by assumption; reflexivity ..
       | apply lookup_delete_ne; congruence
       | apply lookup_delete_ne; congruence ]).
Qed.

(* ================================================================== *)
(** * Further properties: the authorization flow adapter *)
(* ================================================================== *)

Lemma oauth_upsert_other (id other : string) (data : OAuthWrite) (t : oauth_table) :
  other <> id -> oauth_upsert id data t !! other = t !! other.
Proof.
  intros Hne. unfold oauth_upsert.
  destruct (t !! id); now rewrite lookup_insert_ne.
Qed.

Lemma apply_calls_other (id other : string) (calls : list ProviderCall)
    (t : oauth_table) :
  other <> id -> apply_calls id calls t !! other = t !! other.
Proof.
  intros Hne. unfold apply_calls. revert t.
  induction calls as [|c l IH]; intros t; [reflexivity|].
  simpl. rewrite IH. clear IH.
  destruct c as [s|ci|tk|url|cv|[| | |]]; simpl;
    unfold oauth_delete, oauth_clearTokens, oauth_clearCodeVerifier,
      oauth_clearClientInfo;
    rewrite ?oauth_upsert_other, ?lookup_delete_ne, ?lookup_alter_ne
      by congruence; reflexivity.
Qed.

(** An adapter is bound to one connection: whatever the SDK calls on it,
    the credential record of every other connection stays as it is, and
    so does everything the adapter of that other connection reads --
    its tokens, its client registration, its PKCE verifier and its
    captured authorization URL. *)
Theorem provider_calls_isolated (id other : string) (calls : list ProviderCall)
    (t : oauth_table) :
  other <> id ->
  let t' := apply_calls id calls t in
  t' !! other = t !! other
  /\ provider_tokens other t' = provider_tokens other t
  /\ provider_clientInformation other t' = provider_clientInformation other t
  /\ provider_codeVerifier other t' = provider_codeVerifier other t
  /\ getAuthorizationUrl other t' = getAuthorizationUrl other t.
Proof.
  intros Hne t'.
  assert (H : t' !! other = t !! other) by now apply apply_calls_other.
  unfold provider_tokens, provider_clientInformation, provider_codeVerifier,
    getAuthorizationUrl, getSession, oauth_get.
  rewrite H. auto.
Qed.

(** Whether a call can change what [codeVerifier()], [tokens()] or
    [clientInformation()] reads. *)
Definition touches_verifier (c : ProviderCall) : bool :=
  match c with
  | call_saveCodeVerifier _
  | call_invalidateCredentials scope_verifier
  | call_invalidateCredentials scope_all => true
  | _ => false
  end.

Definition touches_tokens (c : ProviderCall) : bool :=
  match c with
  | call_saveTokens _
  | call_invalidateCredentials scope_tokens
  | call_invalidateCredentials scope_all => true
  | _ => false
  end.

Definition touches_client (c : ProviderCall) : bool :=
  match c with
  | call_saveClientInformation _
  | call_invalidateCredentials scope_client
  | call_invalidateCredentials scope_all => true
  | _ => false
  end.

Lemma row_after_upsert (id : string) (data : OAuthWrite) (t : oauth_table) :
  exists row',
    oauth_upsert id data t !! id = Some row'
    /\ tokens row'
       = COALESCE (w_tokens data) (t !! id ≫= tokens)
    /\ code_verifier row'
       = COALESCE (w_code_verifier data) (t !! id ≫= code_verifier)
    /\ client_info row'
       = COALESCE (w_client_info data) (t !! id ≫= client_info).
Proof.
  unfold oauth_upsert. destruct (t !! id) as [row|]; simpl;
    (eexists; split; [apply lookup_insert_eq|]); simpl; repeat split;
    now destruct (w_tokens data), (w_code_verifier data), (w_client_info data).
Qed.

Lemma upsert_verifier (id : string) (data : OAuthWrite) (t : oauth_table) :
  oauth_upsert id data t !! id ≫= code_verifier
  = COALESCE (w_code_verifier data) (t !! id ≫= code_verifier).
Proof. destruct (row_after_upsert id data t) as (row' & -> & _ & H & _). exact H. Qed.

Lemma upsert_tokens (id : string) (data : OAuthWrite) (t : oauth_table) :
  oauth_upsert id data t !! id ≫= tokens
  = COALESCE (w_tokens data) (t !! id ≫= tokens).
Proof. destruct (row_after_upsert id data t) as (row' & -> & H & _). exact H. Qed.

Lemma upsert_client (id : string) (data : OAuthWrite) (t : oauth_table) :
  oauth_upsert id data t !! id ≫= client_info
  = COALESCE (w_client_info data) (t !! id ≫= client_info).
Proof. destruct (row_after_upsert id data t) as (row' & -> & _ & _ & H). exact H. Qed.

Lemma verifier_survives (id : string) (c : ProviderCall) (t : oauth_table) :
  touches_verifier c = false ->
  provider_call id c t !! id ≫= code_verifier = t !! id ≫= code_verifier.
Proof.
  intros H.
  destruct c as [s|ci|tk|url|cv|[| | |]]; try discriminate; simpl;
    rewrite ?upsert_verifier; try reflexivity;
    unfold oauth_clearTokens, oauth_clearClientInfo;
    rewrite lookup_alter_eq; now destruct (t !! id).
Qed.

Lemma tokens_survive (id : string) (c : ProviderCall) (t : oauth_table) :
  touches_tokens c = false ->
  provider_call id c t !! id ≫= tokens = t !! id ≫= tokens.
Proof.
  intros H.
  destruct c as [s|ci|tk|url|cv|[| | |]]; try discriminate; simpl;
    rewrite ?upsert_tokens; try reflexivity;
    unfold oauth_clearCodeVerifier, oauth_clearClientInfo;
    rewrite lookup_alter_eq; now destruct (t !! id).
Qed.

Lemma client_survives (id : string) (c : ProviderCall) (t : oauth_table) :
  touches_client c = false ->
  provider_call id c t !! id ≫= client_info = t !! id ≫= client_info.
Proof.
  intros H.
  destruct c as [s|ci|tk|url|cv|[| | |]]; try discriminate; simpl;
    rewrite ?upsert_client; try reflexivity;
    unfold oauth_clearTokens, oauth_clearCodeVerifier;
    rewrite lookup_alter_eq; now destruct (t !! id).
Qed.

Lemma survives_calls (field : OAuthSessionRow -> option string)
    (touches : ProviderCall -> bool) (id : string) :
  (forall c t, touches c = false ->
     provider_call id c t !! id ≫= field = t !! id ≫= field) ->
  forall calls t,
    forallb (fun c => negb (touches c)) calls = true ->
    apply_calls id calls t !! id ≫= field = t !! id ≫= field.
Proof.
  intros Hone. unfold apply_calls.
  induction calls as [|c l IH]; intros t H; [reflexivity|].
  simpl in *. apply andb_prop in H as [Hc Hl].
  rewrite IH by exact Hl. apply Hone. now apply negb_true_iff.
Qed.

(** What a reader returns is decided by the row it reads. *)
Lemma getSession_row (id : string) (t : oauth_table) (row : OAuthSessionRow)
    (session : OAuthSession) :
  t !! id = Some row ->
  getSession id t = inr session ->
  parse_column (tokens row) = inr (session_tokens session)
  /\ parse_column (client_info row) = inr (session_clientInfo session)
  /\ session_codeVerifier session = nonempty (code_verifier row)
  /\ session_authorizationUrl session = nonempty (authorization_url row).
Proof.
  intros Hrow. unfold getSession, oauth_get. rewrite Hrow.
  destruct (parse_column (tokens row)) as [e|tk]; [discriminate|].
  destruct (parse_column (client_info row)) as [e|ci]; [discriminate|].
  intros [= <-]. auto.
Qed.

Lemma parse_column_saved (saved : string) (parsed : option json) :
  saved <> EmptyString ->
  parse_column (Some saved) = inr parsed ->
  exists value, JSON_parse saved = inr value /\ parsed = Some value.
Proof.
  intros Hne. unfold parse_column.
  assert (Hnonempty : nonempty (Some saved) = Some saved) by now destruct saved.
  rewrite Hnonempty. destruct (JSON_parse saved) as [e|value]; [discriminate|].
  intros [= <-]. now exists value.
Qed.

(** Saved credentials outlive every later call of the flow that is not
    about the same field, and are read back whenever the record is
    readable, that is, whenever [getSession()] does not throw on one of
    its two JSON columns.  The PKCE verifier saved before the redirect is
    still stored when the authorization code comes back, and
    [codeVerifier()] returns it; the text saved for the tokens outlives a
    new state nonce or a captured URL, and [tokens()] returns what
    [JSON.parse] makes of it; the text saved for the client registration
    outlives a token refresh, and [clientInformation()] returns what
    [JSON.parse] makes of it. *)
Theorem saved_credentials_persist (id : string) (saved : string)
    (later : list ProviderCall) (t : oauth_table) :
  saved <> EmptyString ->
  (forallb (fun c => negb (touches_verifier c)) later = true ->
   let t' := apply_calls id (call_saveCodeVerifier saved :: later) t in
   t' !! id ≫= code_verifier = Some saved
   /\ forall session,
        getSession id t' = inr session ->
        provider_codeVerifier id t' = inr saved)
  /\ (forallb (fun c => negb (touches_tokens c)) later = true ->
      let t' := apply_calls id (call_saveTokens saved :: later) t in
      t' !! id ≫= tokens = Some saved
      /\ forall session,
           getSession id t' = inr session ->
           exists value,
             JSON_parse saved = inr value
             /\ provider_tokens id t' = inr (Some value))
  /\ (forallb (fun c => negb (touches_client c)) later = true ->
      let t' := apply_calls id (call_saveClientInformation saved :: later) t in
      t' !! id ≫= client_info = Some saved
      /\ forall session,
           getSession id t' = inr session ->
           exists value,
             JSON_parse saved = inr value
             /\ provider_clientInformation id t' = inr (Some value)).
Proof.
  intros Hne.
  assert (Hnonempty : nonempty (Some saved) = Some saved) by now destruct saved.
  repeat split.
  - pose proof (survives_calls code_verifier touches_verifier id
                  (verifier_survives id) later
                  (provider_call id (call_saveCodeVerifier saved) t) H) as Hs.
    simpl in Hs. rewrite upsert_verifier in Hs. exact Hs.
  - intros session Hsession.
    pose proof (survives_calls code_verifier touches_verifier id
                  (verifier_survives id) later
                  (provider_call id (call_saveCodeVerifier saved) t) H) as Hs.
    simpl in Hs. rewrite upsert_verifier in Hs. simpl in Hs.
    change (apply_calls id (call_saveCodeVerifier saved :: later) t)
      with (apply_calls id later (provider_call id (call_saveCodeVerifier saved) t))
      in *.
    destruct (apply_calls id later _ !! id) as [row|] eqn:Hrow;
      simpl in Hs; [|discriminate].
    destruct (getSession_row _ _ _ _ Hrow Hsession) as (_ & _ & Hcv & _).
    unfold provider_codeVerifier. rewrite Hsession, Hcv, Hs, Hnonempty.
    reflexivity.
  - pose proof (survives_calls tokens touches_tokens id
                  (tokens_survive id) later
                  (provider_call id (call_saveTokens saved) t) H) as Hs.
    simpl in Hs. rewrite upsert_tokens in Hs. exact Hs.
  - intros session Hsession.
    pose proof (survives_calls tokens touches_tokens id
                  (tokens_survive id) later
                  (provider_call id (call_saveTokens saved) t) H) as Hs.
    simpl in Hs. rewrite upsert_tokens in Hs. simpl in Hs.
    change (apply_calls id (call_saveTokens saved :: later) t)
      with (apply_calls id later (provider_call id (call_saveTokens saved) t))
      in *.
    destruct (apply_calls id later _ !! id) as [row|] eqn:Hrow;
      simpl in Hs; [|discriminate].
    destruct (getSession_row _ _ _ _ Hrow Hsession) as (Htk & _).
    rewrite Hs in Htk.
    destruct (parse_column_saved _ _ Hne Htk) as (value & Hparse & Hvalue).
    exists value. split; [exact Hparse|].
    unfold provider_tokens. now rewrite Hsession, Hvalue.
  - pose proof (survives_calls client_info touches_client id
                  (client_survives id) later
                  (provider_call id (call_saveClientInformation saved) t) H)
      as Hs.
    simpl in Hs. rewrite upsert_client in Hs. exact Hs.
  - intros session Hsession.
    pose proof (survives_calls client_info touches_client id
                  (client_survives id) later
                  (provider_call id (call_saveClientInformation saved) t) H)
      as Hs.
    simpl in Hs. rewrite upsert_client in Hs. simpl in Hs.
    change (apply_calls id (call_saveClientInformation saved :: later) t)
      with (apply_calls id later
              (provider_call id (call_saveClientInformation saved) t)) in *.
    destruct (apply_calls id later _ !! id) as [row|] eqn:Hrow;
      simpl in Hs; [|discriminate].
    destruct (getSession_row _ _ _ _ Hrow Hsession) as (_ & Hci & _).
    rewrite Hs in Hci.
    destruct (parse_column_saved _ _ Hne Hci) as (value & Hparse & Hvalue).
    exists value. split; [exact Hparse|].
    unfold provider_clientInformation. now rewrite Hsession, Hvalue.
Qed.

(** [invalidateCredentials(scope)] on an existing record: [tokens],
    [verifier] and [client] each clear their own column and leave the four
    others as they were; [all] removes the record.  A failed token refresh
    therefore never costs the client registration. *)
Theorem invalidateCredentials_scoped (id : string) (t : oauth_table)
    (row : OAuthSessionRow) :
  t !! id = Some row ->
  provider_call id (call_invalidateCredentials scope_tokens) t !! id
  = Some {| tokens := None; code_verifier := code_verifier row;
            client_info := client_info row;
            authorization_url := authorization_url row; state := state row |}
  /\ provider_call id (call_invalidateCredentials scope_verifier) t !! id
     = Some {| tokens := tokens row; code_verifier := None;
               client_info := client_info row;
               authorization_url := authorization_url row; state := state row |}
  /\ provider_call id (call_invalidateCredentials scope_client) t !! id
     = Some {| tokens := tokens row; code_verifier := code_verifier row;
               client_info := None;
               authorization_url := authorization_url row; state := state row |}
  /\ provider_call id (call_invalidateCredentials scope_all) t !! id = None.
Proof.
  intros H. simpl.
  unfold oauth_clearTokens, oauth_clearCodeVerifier, oauth_clearClientInfo,
    oauth_delete.
  rewrite !lookup_alter_eq, lookup_delete_eq, H. auto.
Qed.

Lemma invalidateCredentials_scoped_witness :
  (client_info <$>
     provider_call "c1" (call_invalidateCredentials scope_tokens)
       {["c1" := sample_session]} !! "c1")
  = Some (Some "client")
  /\ (tokens <$>
       provider_call "c1" (call_invalidateCredentials scope_tokens)
         {["c1" := sample_session]} !! "c1")
     = Some None
  /\ provider_call "c1" (call_invalidateCredentials scope_all)
       {["c1" := sample_session]} !! "c1" = None.
Proof.
  destruct (invalidateCredentials_scoped "c1" {["c1" := sample_session]}
              sample_session) as (Ht & _ & _ & Hall); [reflexivity|].
  rewrite Ht. split; [reflexivity|]. split; [reflexivity | exact Hall].
Defined.

(* ================================================================== *)
(** * Further properties: the connection manager *)
(* ================================================================== *)

(** ** The remaining readers *)

(** [getConnection(id)]. *)
Definition getConnection (m : Manager) (id : string) : option MCPConnection :=
  Map_get (connections m) id.

(** What [GET /connections] lists for one connection: a live one with its
    tools, a pending one without. *)
Record ListedConnection : Type := {
  listed_id : string;
  listed_url : string;
  listed_name : string;
  listed_status : Status;
  listed_tools : option (list MCPTool)
}.

(** [getConnections()]. *)
Definition getConnections (m : Manager) : list ListedConnection :=
  map (fun c => {| listed_id := conn_id c; listed_url := conn_url c;
                   listed_name := conn_name c; listed_status := conn_status c;
                   listed_tools := Some (conn_tools c) |})
    (Map_values (connections m)).

(** [getPendingConnections()]. *)
Definition getPendingConnections (m : Manager) : list ListedConnection :=
  map (fun '(id, pending) =>
         {| listed_id := id; listed_url := pending_url pending;
            listed_name := pending_name pending;
            listed_status := st_pending_auth; listed_tools := None |})
    (pendingConnections m).

(** The handler of [GET /connections]: [[...connections, ...pending]]. *)
Definition list_connections (m : Manager) : list ListedConnection :=
  getConnections m ++ getPendingConnections m.

(** [findToolConnection(toolName)]: the first connection, in insertion
    order, that has a tool of that name. *)
Fixpoint find_tool_in (values : list MCPConnection) (toolName : string)
    : option (string * MCPTool) :=
  match values with
  | [] => None
  | connection :: rest =>
      match List.find (fun t => String.eqb (tool_name t) toolName)
              (conn_tools connection) with
      | Some t => Some (conn_id connection, t)
      | None => find_tool_in rest toolName
      end
  end.

Definition findToolConnection (m : Manager) (toolName : string)
    : option (string * MCPTool) :=
  find_tool_in (Map_values (connections m)) toolName.

Definition has_tool (toolName : string) (c : MCPConnection) : bool :=
  existsb (fun t => String.eqb (tool_name t) toolName) (conn_tools c).

Lemma find_none_has_tool (toolName : string) (c : MCPConnection) :
  List.find (fun t => String.eqb (tool_name t) toolName) (conn_tools c) = None ->
  has_tool toolName c = false.
Proof.
  unfold has_tool. induction (conn_tools c) as [|t l IH]; simpl; [reflexivity|].
  destruct (String.eqb (tool_name t) toolName); [discriminate | exact IH].
Qed.

(** [findToolConnection] answers with a tool of the requested name that
    belongs to the connection it names, and that connection is the first
    in the registry to have one: tool names are looked up bare, so when two
    providers offer the same name the one connected first wins.  It answers
    [undefined] exactly when no connection has such a tool. *)
Theorem findToolConnection_spec (m : Manager) (toolName : string) :
  match findToolConnection m toolName with
  | Some (id, t) =>
      tool_name t = toolName
      /\ exists before owner after,
           Map_values (connections m) = before ++ owner :: after
           /\ conn_id owner = id
           /\ t ∈ conn_tools owner
           /\ forallb (fun c => negb (has_tool toolName c)) before = true
  | None =>
      forallb (fun c => negb (has_tool toolName c)) (Map_values (connections m))
      = true
  end.
Proof.
  unfold findToolConnection.
  induction (Map_values (connections m)) as [|c rest IH]; [reflexivity|].
  cbn [find_tool_in].
  destruct (List.find _ (conn_tools c)) as [t|] eqn:Ef.
  - apply find_some in Ef as [Hin Hname]. apply String.eqb_eq in Hname.
    split; [exact Hname|]. exists [], c, rest. repeat split.
    now apply list_elem_of_In.
  - apply find_none_has_tool in Ef.
    destruct (find_tool_in rest toolName) as [[id t]|].
    + destruct IH as (Hname & before & owner & after & -> & Hid & Hin & Hbefore).
      split; [exact Hname|]. exists (c :: before), owner, after.
      repeat split; try assumption. simpl. now rewrite Ef.
    + simpl. now rewrite Ef.
Qed.

(** ** What the public flow keeps true *)

Definition row_of_connection (c : MCPConnection) : MCPConnectionRow :=
  {| row_url := conn_url c; row_name := conn_name c; row_status := "connected" |}.

Definition row_of_pending (p : PendingConnection) : MCPConnectionRow :=
  {| row_url := pending_url p; row_name := pending_name p;
     row_status := "pending_auth" |}.

(** The session store mirrors the two maps. *)
Definition persisted (m : Manager) : Prop :=
  Forall (fun kc => mcp_connections m !! fst kc = Some (row_of_connection (snd kc)))
    (connections m)
  /\ Forall (fun kp => mcp_connections m !! fst kp = Some (row_of_pending (snd kp)))
       (pendingConnections m).

Definition flow_invariant (m : Manager) : Prop :=
  registry_connected m
  /\ NoDup (map fst (pendingConnections m))
  /\ live_xor_pending m
  /\ persisted m.

Lemma keys_ne_of_not_has {V : Type} (l : JsMap V) (id : string) :
  Map_has l id = false -> Forall (fun kv => fst kv <> id) l.
Proof.
  unfold Map_has. intros H.
  assert (Hn : Map_get l id = None) by now destruct (Map_get l id).
  apply Map_get_None in Hn. apply Forall_forall. intros [k v] Hin Heq.
  simpl in Heq. subst. apply Hn. apply list_elem_of_fmap. now exists (id, v).
Qed.

Lemma keys_ne_of_delete {V : Type} (l : JsMap V) (id : string) :
  Forall (fun kv => fst kv <> id) (Map_delete l id).
Proof.
  induction l as [|[k v] l IH]; simpl; [constructor|].
  destruct (String.eqb_spec k id); [exact IH | now constructor].
Qed.

Lemma Map_get_Some_elem {V : Type} (l : JsMap V) (k : string) (v : V) :
  Map_get l k = Some v -> (k, v) ∈ l.
Proof.
  induction l as [|[k' v'] l IH]; simpl; [discriminate|].
  destruct (String.eqb_spec k' k) as [->|Hne].
  - intros [= ->]. apply elem_of_cons. now left.
  - intros H. apply elem_of_cons. right. now apply IH.
Qed.

Lemma rows_frame {V : Type} (f : V -> MCPConnectionRow) (l : JsMap V)
    (t t' : connection_table) (id : string) :
  (forall k, k <> id -> t' !! k = t !! k) ->
  Forall (fun kv => fst kv <> id) l ->
  Forall (fun kv => t !! fst kv = Some (f (snd kv))) l ->
  Forall (fun kv => t' !! fst kv = Some (f (snd kv))) l.
Proof.
  intros Hframe Hne H. rewrite Forall_forall in *. intros kv Hin.
  rewrite Hframe by now apply Hne. now apply H.
Qed.

Lemma mcpDb_upsert_other (id url name status k : string) (t : connection_table) :
  k <> id -> mcpDb_upsert id url name status t !! k = t !! k.
Proof. intros H. unfold mcpDb_upsert. now rewrite lookup_insert_ne. Qed.

Lemma mcpDb_delete_other (id k : string) (t : connection_table) :
  k <> id -> mcpDb_delete id t !! k = t !! k.
Proof. intros H. unfold mcpDb_delete. now rewrite lookup_delete_ne. Qed.

Lemma mcpDb_updateStatus_other (id status k : string) (t : connection_table) :
  k <> id -> mcpDb_updateStatus id status t !! k = t !! k.
Proof. intros H. unfold mcpDb_updateStatus. now rewrite lookup_alter_ne. Qed.

Lemma step_pending_NoDup (m : Manager) (e : Event) :
  NoDup (map fst (pendingConnections m)) ->
  NoDup (map fst (pendingConnections (step m e))).
Proof.
  intros H.
  destruct e as [id url name hostname tenv client retryClient run
                | cid code run | id thr | id url name tenv client run]; simpl.
  - unfold connect. destruct (choose_transport tenv) as [[tr useSSE]|]; [|exact H].
    destruct (run_outcome run); simpl;
      try (destruct (getAuthorizationUrl _ _) as [syntaxError|[captured|]];
           simpl);
      try exact H; now apply Map_set_NoDup.
  - unfold completeOAuthConnection.
    destruct (Map_get (pendingConnections m) cid); [|exact H].
    destruct (run_outcome run); simpl; now apply Map_delete_NoDup.
  - unfold disconnect.
    destruct (Map_get (connections m) id), (Map_get (pendingConnections m) id);
      try destruct thr; simpl; try exact H; now apply Map_delete_NoDup.
  - unfold reconnect_saved, reconnect.
    destruct (provider_tokens id (oauth_sessions m)) as [syntaxError|[stored|]];
      try exact H.
    destruct (negb (truthy stored)); [exact H|].
    destruct (choose_transport tenv) as [[tr useSSE]|]; [|exact H].
    destruct (run_outcome run); exact H.
Qed.

Ltac frame_rows f m id other :=
  apply (rows_frame f _ (mcp_connections m) _ id);
  [ intros k Hk; now apply other | | ].

Lemma step_persisted (m : Manager) (e : Event) :
  is_flow_event e = true ->
  uuids_fresh [e] m = true ->
  live_xor_pending m ->
  persisted m -> persisted (step m e).
Proof.
  intros Hflow Hfresh Hxor [Hc Hp]. unfold persisted.
  destruct e as [id url name hostname tenv client retryClient run
                | cid code run | id thr | id url name tenv client run];
    simpl in *; try discriminate.
  - rewrite andb_true_r in Hfresh. apply andb_prop in Hfresh as [Hfc Hfp].
    apply negb_true_iff in Hfc, Hfp.
    apply keys_ne_of_not_has in Hfc, Hfp.
    unfold connect. destruct (choose_transport tenv) as [[tr useSSE]|];
      [|now split].
    destruct (run_outcome run) as [tools|msg|msg]; simpl;
      try (destruct (getAuthorizationUrl _ _) as [syntaxError|[captured|]];
           simpl).
    + split.
      * apply Forall_Map_set.
        -- frame_rows row_of_connection m id mcpDb_upsert_other; assumption.
        -- simpl. unfold mcpDb_upsert. apply lookup_insert_eq.
      * frame_rows row_of_pending m id mcpDb_upsert_other; assumption.
    + now split.
    + split.
      * frame_rows row_of_connection m id mcpDb_upsert_other; assumption.
      * apply Forall_Map_set.
        -- frame_rows row_of_pending m id mcpDb_upsert_other; assumption.
        -- simpl. unfold mcpDb_upsert. apply lookup_insert_eq.
    + split.
      * frame_rows row_of_connection m id mcpDb_delete_other; assumption.
      * frame_rows row_of_pending m id mcpDb_delete_other; assumption.
    + split.
      * frame_rows row_of_connection m id mcpDb_delete_other; assumption.
      * frame_rows row_of_pending m id mcpDb_delete_other; assumption.
  - unfold completeOAuthConnection.
    destruct (Map_get (pendingConnections m) cid) as [pending|] eqn:Ep;
      [|now split].
    assert (Hlive : Forall (fun kv : string * MCPConnection => fst kv <> cid)
                      (connections m)).
    { apply keys_ne_of_not_has. specialize (Hxor cid).
      unfold Map_has in Hxor at 2. rewrite Ep in Hxor.
      now rewrite andb_true_r in Hxor. }
    assert (Hrow : mcp_connections m !! cid = Some (row_of_pending pending)).
    { rewrite Forall_forall in Hp.
      exact (Hp _ (Map_get_Some_elem _ _ _ Ep)). }
    assert (Hpd : Forall (fun kp => mcp_connections m !! fst kp
                                    = Some (row_of_pending (snd kp)))
                    (Map_delete (pendingConnections m) cid))
      by now apply Forall_Map_delete.
    pose proof (keys_ne_of_delete (pendingConnections m) cid) as Hkd.
    destruct (run_outcome run) as [tools|msg|msg]; simpl.
    + split.
      * apply Forall_Map_set.
        -- frame_rows row_of_connection m cid mcpDb_updateStatus_other; assumption.
        -- simpl. unfold mcpDb_updateStatus.
           rewrite lookup_alter_eq, Hrow. reflexivity.
      * frame_rows row_of_pending m cid mcpDb_updateStatus_other; assumption.
    + split.
      * frame_rows row_of_connection m cid mcpDb_delete_other; assumption.
      * frame_rows row_of_pending m cid mcpDb_delete_other; assumption.
    + split.
      * frame_rows row_of_connection m cid mcpDb_delete_other; assumption.
      * frame_rows row_of_pending m cid mcpDb_delete_other; assumption.
  - assert (Hthrow : disconnect id thr m = disconnect id true m).
    { destruct thr; [reflexivity|]. symmetry. apply disconnect_close_irrelevant. }
    rewrite Hthrow. clear Hthrow thr.
    assert (Hpd : Forall (fun kp => mcp_connections m !! fst kp
                                    = Some (row_of_pending (snd kp)))
                    (Map_delete (pendingConnections m) id))
      by now apply Forall_Map_delete.
    assert (Hcd : Forall (fun kc => mcp_connections m !! fst kc
                                    = Some (row_of_connection (snd kc)))
                    (Map_delete (connections m) id))
      by now apply Forall_Map_delete.
    pose proof (keys_ne_of_delete (pendingConnections m) id) as Hkp.
    pose proof (keys_ne_of_delete (connections m) id) as Hkc.
    unfold disconnect.
    destruct (Map_get (connections m) id) as [c|] eqn:Ec,
             (Map_get (pendingConnections m) id) as [p|] eqn:Ep; simpl;
      try (now split).
    + split.
      * frame_rows row_of_connection m id mcpDb_delete_other; assumption.
      * frame_rows row_of_pending m id mcpDb_delete_other; assumption.
    + split.
      * frame_rows row_of_connection m id mcpDb_delete_other; assumption.
      * frame_rows row_of_pending m id mcpDb_delete_other; assumption.
    + split.
      * frame_rows row_of_connection m id mcpDb_delete_other; [|assumption].
        apply keys_ne_of_not_has. unfold Map_has. now rewrite Ec.
      * frame_rows row_of_pending m id mcpDb_delete_other; assumption.
Qed.

Lemma run_flow_invariant (events : list Event) (m : Manager) :
  forallb is_flow_event events = true ->
  uuids_fresh events m = true ->
  flow_invariant m -> flow_invariant (run_events events m).
Proof.
  revert m. induction events as [|e l IH]; intros m Hflow Hfresh Hm; [exact Hm|].
  simpl in Hflow. apply andb_prop in Hflow as [He Hl].
  cbn [uuids_fresh] in Hfresh. apply andb_prop in Hfresh as [Hfe Hfl].
  simpl. apply IH; [exact Hl | exact Hfl |].
  assert (Hfresh1 : uuids_fresh [e] m = true).
  { cbn [uuids_fresh]. now rewrite Hfe. }
  destruct Hm as (Hreg & Hnd & Hxor & Hper).
  repeat split.
  - now apply step_registry_connected.
  - now apply step_registry_connected.
  - now apply step_pending_NoDup.
  - now apply step_live_xor_pending.
  - now apply step_persisted.
  - now apply step_persisted.
Qed.

Lemma startup_flow_invariant (oauth : oauth_table) (saved : connection_table) :
  flow_invariant (startup oauth saved).
Proof.
  repeat split; constructor.
Qed.

(** [GET /connections] never lists an identifier twice, and every entry is
    either a live connection (status [connected], with tools) or a pending
    one (status [pending_auth], without) -- after any history of connect,
    OAuth completion and disconnect with fresh identifiers. *)
Theorem list_connections_distinct (oauth : oauth_table)
    (saved : connection_table) (events : list Event) :
  forallb is_flow_event events = true ->
  uuids_fresh events (startup oauth saved) = true ->
  let listing := list_connections (run_events events (startup oauth saved)) in
  NoDup (map listed_id listing)
  /\ Forall (fun l =>
               match listed_status l with
               | st_connected => is_Some (listed_tools l)
               | st_pending_auth => listed_tools l = None
               | _ => False
               end) listing.
Proof.
  intros Hflow Hfresh listing. subst listing.
  destruct (run_flow_invariant events _ Hflow Hfresh
              (startup_flow_invariant oauth saved))
    as ((Hnd & Hreg) & Hndp & Hxor & _).
  set (m := run_events events (startup oauth saved)) in *.
  unfold list_connections, getConnections, getPendingConnections, Map_values.
  assert (Hids : map listed_id
                   (map (fun c => {| listed_id := conn_id c; listed_url := conn_url c;
                                     listed_name := conn_name c;
                                     listed_status := conn_status c;
                                     listed_tools := Some (conn_tools c) |})
                      (map snd (connections m)))
                 = map fst (connections m)).
  { rewrite !map_map. simpl. apply Forall_fmap_ext_1.
    eapply Forall_impl; [exact Hreg|]. now intros [k c] [Hid _]. }
  assert (Hidp : map listed_id
                   (map (fun '(id, pending) =>
                           {| listed_id := id; listed_url := pending_url pending;
                              listed_name := pending_name pending;
                              listed_status := st_pending_auth;
                              listed_tools := None |})
                      (pendingConnections m))
                 = map fst (pendingConnections m)).
  { rewrite map_map. apply map_ext. now intros [k p]. }
  split.
  - rewrite map_app, Hids, Hidp. apply NoDup_app. repeat split; try assumption.
    intros id Hin Hin'. specialize (Hxor id). unfold Map_has in Hxor.
    destruct (Map_get (connections m) id) eqn:Ec.
    + destruct (Map_get (pendingConnections m) id) eqn:Ep; [discriminate|].
      now apply Map_get_None in Ep.
    + now apply Map_get_None in Ec.
  - apply Forall_app. split.
    + rewrite map_map. apply Forall_fmap. eapply Forall_impl; [exact Hreg|].
      intros [k c] [_ Hst]. simpl in *. rewrite Hst. now exists (conn_tools c).
    + apply Forall_fmap, Forall_forall. now intros [k p] _.
Qed.

(** The session store mirrors the manager: after any history of connect,
    OAuth completion and disconnect with fresh identifiers, every live
    connection has a saved row with its URL, its name and status
    ['connected'], and every pending one a row with its URL, its name and
    status ['pending_auth'] -- which is what startup recovery reads after
    a restart. *)
Theorem session_store_mirrors_manager (oauth : oauth_table)
    (saved : connection_table) (events : list Event) :
  forallb is_flow_event events = true ->
  uuids_fresh events (startup oauth saved) = true ->
  let m := run_events events (startup oauth saved) in
  Forall (fun kc =>
            mcp_connections m !! fst kc
            = Some {| row_url := conn_url (snd kc); row_name := conn_name (snd kc);
                      row_status := "connected" |})
    (connections m)
  /\ Forall (fun kp =>
               mcp_connections m !! fst kp
               = Some {| row_url := pending_url (snd kp);
                         row_name := pending_name (snd kp);
                         row_status := "pending_auth" |})
       (pendingConnections m).
Proof.
  intros Hflow Hfresh m.
  destruct (run_flow_invariant events _ Hflow Hfresh
              (startup_flow_invariant oauth saved)) as (_ & _ & _ & H).
  exact H.
Qed.

(** ** The ways [connect] ends *)

(** Clearing the authorization URL changes what [getAuthorizationUrl()]
    reads and nothing else; it does not make an unreadable record
    readable. *)
Lemma getSession_cleared (id : string) (t : oauth_table) :
  getSession id (oauth_clearAuthorizationUrl id t)
  = match getSession id t with
    | inl syntaxError => inl syntaxError
    | inr session =>
        inr {| session_tokens := session_tokens session;
               session_codeVerifier := session_codeVerifier session;
               session_clientInfo := session_clientInfo session;
               session_authorizationUrl := None;
               session_state := session_state session |}
    end.
Proof.
  unfold getSession, oauth_get, oauth_clearAuthorizationUrl.
  rewrite lookup_alter_eq. destruct (t !! id) as [row|]; simpl; [|reflexivity].
  destruct (parse_column (tokens row)); [reflexivity|].
  now destruct (parse_column (client_info row)).
Qed.

Lemma getAuthorizationUrl_cleared (id : string) (t : oauth_table)
    (captured : option string) :
  getAuthorizationUrl id t = inr captured ->
  getAuthorizationUrl id (oauth_clearAuthorizationUrl id t) = inr None.
Proof.
  unfold getAuthorizationUrl. rewrite getSession_cleared.
  now destruct (getSession id t).
Qed.

Lemma codeVerifier_after_clear (id : string) (t : oauth_table) :
  provider_codeVerifier id (oauth_clearAuthorizationUrl id t)
  = provider_codeVerifier id t.
Proof.
  unfold provider_codeVerifier. rewrite getSession_cleared.
  now destruct (getSession id t).
Qed.

Lemma nonempty_Some (x : option string) (s : string) :
  nonempty x = Some s -> x = Some s /\ s <> EmptyString.
Proof. destruct x as [[|c r]|]; try discriminate. intros [= <-]. now split. Qed.

(** A [connect] that throws creates no connection and no pending entry,
    closes no session and touches nothing that belongs to another
    connection.  When no transport could be built nothing changes at
    all.  Otherwise it throws the wrapped error and leaves no trace: the
    credential record and the session-store row of the identifier it drew
    are gone, even if the SDK wrote credentials during the attempt --
    with one exception: when the attempt ended in an [UnauthorizedError]
    and the record could not be read ([JSON.parse] threw on one of its
    columns), [connect] throws that [SyntaxError] unwrapped and leaves
    the credential record as the attempt left it and the session store as
    it was. *)
Theorem connect_failure_leaves_no_trace (id url : string) (name : option string)
    (hostname : string) (tenv : TransportEnv) (client retryClient : Client)
    (run : SessionRun) (m m' : Manager) (error : string) :
  connect id url name hostname tenv client retryClient run m = (m', inl error) ->
  connections m' = connections m
  /\ pendingConnections m' = pendingConnections m
  /\ close_calls m' = close_calls m
  /\ (forall other, other <> id ->
        oauth_sessions m' !! other = oauth_sessions m !! other
        /\ mcp_connections m' !! other = mcp_connections m !! other)
  /\ match choose_transport tenv with
     | None => m' = m /\ error = ctor_error tenv
     | Some _ =>
         match run_outcome run,
               getAuthorizationUrl id
                 (apply_calls id (run_calls run) (oauth_sessions m)) with
         | session_unauthorized _, inl syntaxError =>
             error = syntaxError
             /\ oauth_sessions m'
                = apply_calls id (run_calls run) (oauth_sessions m)
             /\ mcp_connections m' = mcp_connections m
         | failure, _ =>
             error
             = "Failed to connect to MCP server: " +:+ error_message failure
             /\ oauth_sessions m' !! id = None
             /\ mcp_connections m' !! id = None
         end
     end.
Proof.
  unfold connect. cbv zeta. destruct (choose_transport tenv) as [[tr useSSE]|].
  - destruct (run_outcome run) as [tools|msg|msg]; try discriminate.
    + destruct (getAuthorizationUrl id _) as [syntaxError|[captured|]];
        try discriminate; intros [= <- <-]; simpl;
        unfold oauth_delete, mcpDb_delete;
        rewrite ?lookup_delete_eq; repeat split; try reflexivity;
        rewrite ?lookup_delete_ne by congruence;
        try reflexivity; now apply apply_calls_other.
    + intros [= <- <-]; simpl; unfold oauth_delete, mcpDb_delete.
      repeat split; try reflexivity;
        rewrite ?lookup_delete_ne by congruence;
        try reflexivity; try (now apply apply_calls_other);
        try (destruct (getAuthorizationUrl id _) as [?|?]);
        rewrite ?lookup_delete_eq; auto.
  - intros [= <- <-]. repeat split; reflexivity.
Qed.

Definition run_refused : SessionRun :=
  {| run_calls := [call_saveClientInformation "{}"; call_state "nonce"];
     run_outcome := session_failed (Some "ECONNREFUSED") |}.

(** When [connect] reports that authorization is needed, the URL it
    returns is the non-empty one the SDK captured during the attempt, the
    attempt ended in an [UnauthorizedError], and the URL has been handed
    off exactly once: it can no longer be read from the credential store,
    while the PKCE verifier the completion will need is still readable.
    The half-open connection waits in the pending map under the returned
    identifier and the registry is unchanged. *)
Theorem connect_needsAuth_handoff (id url : string) (name : option string)
    (hostname : string) (tenv : TransportEnv) (client retryClient : Client)
    (run : SessionRun) (m m' : Manager) (authorizationUrl connectionId : string) :
  connect id url name hostname tenv client retryClient run m
  = (m', inr (result_needsAuth authorizationUrl connectionId)) ->
  connectionId = id
  /\ authorizationUrl <> EmptyString
  /\ (exists message, run_outcome run = session_unauthorized message)
  /\ getAuthorizationUrl id (apply_calls id (run_calls run) (oauth_sessions m))
     = inr (Some authorizationUrl)
  /\ getAuthorizationUrl id (oauth_sessions m') = inr None
  /\ provider_codeVerifier id (oauth_sessions m')
     = provider_codeVerifier id (apply_calls id (run_calls run) (oauth_sessions m))
  /\ (exists pending,
        Map_get (pendingConnections m') id = Some pending
        /\ pending_url pending = url
        /\ pending_client pending = retryClient)
  /\ connections m' = connections m
  /\ row_status <$> mcp_connections m' !! id = Some "pending_auth".
Proof.
  unfold connect. cbv zeta.
  destruct (choose_transport tenv) as [[tr useSSE]|]; [|discriminate].
  destruct (run_outcome run) as [tools|msg|msg]; try discriminate.
  destruct (getAuthorizationUrl id _) as [syntaxError|[captured|]] eqn:Eurl;
    try discriminate.
  intros [= <- <- <-]. simpl.
  split; [reflexivity|]. split.
  { unfold getAuthorizationUrl, getSession in Eurl.
    destruct (oauth_get id _) as [row|]; [|discriminate].
    destruct (parse_column (tokens row)); [discriminate|].
    destruct (parse_column (client_info row)); [discriminate|].
    injection Eurl as Eurl. simpl in Eurl. now apply nonempty_Some in Eurl. }
  split; [now exists msg|]. split; [reflexivity|].
  split; [now apply (getAuthorizationUrl_cleared _ _ _ Eurl)|].
  split; [apply codeVerifier_after_clear|].
  split.
  { eexists. rewrite Map_get_set, String.eqb_refl. split; [reflexivity|]. now split. }
  split; [reflexivity|].
  unfold mcpDb_upsert. now rewrite lookup_insert_eq.
Qed.

(** ** Completing and cancelling *)

(** OAuth completion is one-shot: whether it succeeds, fails, or finds no
    pending entry, afterwards there is no pending entry under that
    identifier, so any further completion for it fails with the not-found
    error and changes nothing -- after a failure the connect flow has to
    start over. *)
Theorem completeOAuthConnection_one_shot (connectionId code code' : string)
    (run run' : SessionRun) (m : Manager) :
  let m' := fst (completeOAuthConnection connectionId code run m) in
  Map_get (pendingConnections m') connectionId = None
  /\ completeOAuthConnection connectionId code' run' m'
     = (m', inl ("No pending connection found for ID: " +:+ connectionId)).
Proof.
  intros m'.
  assert (H : Map_get (pendingConnections m') connectionId = None).
  { subst m'. unfold completeOAuthConnection.
    destruct (Map_get (pendingConnections m) connectionId) eqn:E; [|exact E].
    destruct (run_outcome run); simpl;
      now rewrite Map_get_delete, String.eqb_refl. }
  split; [exact H|]. unfold completeOAuthConnection at 1. now rewrite H.
Qed.

(** What completion does with a pending entry.  On success the connection
    is promoted with the URL, name, client and transport the pending entry
    held, the tools just listed and status [connected], and the saved row
    is marked ['connected'].  On any failure nothing is promoted and the
    credential record and the saved row are deleted. *)
Theorem completeOAuthConnection_outcomes (connectionId code : string)
    (run : SessionRun) (m : Manager) (pending : PendingConnection) :
  Map_get (pendingConnections m) connectionId = Some pending ->
  let m' := fst (completeOAuthConnection connectionId code run m) in
  match run_outcome run with
  | session_ok tools =>
      getConnection m' connectionId
      = Some {| conn_id := connectionId; conn_url := pending_url pending;
                conn_name := pending_name pending; conn_status := st_connected;
                conn_tools := tools; conn_client := pending_client pending;
                conn_transport := pending_transport pending |}
      /\ snd (completeOAuthConnection connectionId code run m)
         = inr (result_connection
                  {| pub_id := connectionId; pub_url := pending_url pending;
                     pub_name := pending_name pending;
                     pub_status := st_connected; pub_tools := tools |})
      /\ row_status <$> mcp_connections m' !! connectionId
         = (fun _ => "connected") <$> mcp_connections m !! connectionId
  | failure =>
      snd (completeOAuthConnection connectionId code run m)
      = inl ("Failed to complete OAuth: " +:+ error_message failure)
      /\ connections m' = connections m
      /\ oauth_sessions m' !! connectionId = None
      /\ mcp_connections m' !! connectionId = None
  end.
Proof.
  intros Hp m'. subst m'. unfold completeOAuthConnection, getConnection.
  rewrite Hp.
  destruct (run_outcome run) as [tools|msg|msg]; simpl;
    unfold oauth_delete, mcpDb_delete, mcpDb_updateStatus;
    rewrite ?lookup_delete_eq; repeat split.
  - now rewrite Map_get_set, String.eqb_refl.
  - rewrite lookup_alter_eq. now destruct (mcp_connections m !! connectionId).
Qed.

(** Disconnecting twice: the second call finds nothing, answers [false]
    and changes nothing, whether or not the first found something and
    whether or not closing threw. *)
Theorem disconnect_twice (id : string) (close_throws close_throws' : bool)
    (m : Manager) :
  let m' := fst (disconnect id close_throws m) in
  disconnect id close_throws' m' = (m', false).
Proof.
  intros m'.
  assert (H : Map_get (connections m') id = None
              /\ Map_get (pendingConnections m') id = None).
  { subst m'. rewrite (surjective_pairing (disconnect id close_throws m)).
    assert (Hthrow : disconnect id close_throws m = disconnect id true m).
    { destruct close_throws; [reflexivity|].
      symmetry. apply disconnect_close_irrelevant. }
    rewrite Hthrow. unfold disconnect.
    destruct (Map_get (connections m) id) eqn:Ec,
             (Map_get (pendingConnections m) id) eqn:Ep; simpl;
      rewrite ?Map_get_delete, ?String.eqb_refl; auto. }
  destruct H as [Hc Hp]. unfold disconnect at 1. now rewrite Hc, Hp.
Qed.

(** ** Startup recovery *)

(** One saved row together with what the outside world answers when it is
    tried. *)
Record SavedAttempt : Type := {
  saved_id : string;
  saved_url : string;
  saved_name : string;
  attempt_transports : TransportEnv;
  attempt_client : Client;
  attempt_run : SessionRun
}.

(** [reconnectSavedConnections()]: the [for ... of] loop over the rows
    [mcpDb.getAll()] returned, in the order it returned them. *)
Definition reconnectSavedConnections (attempts : list SavedAttempt)
    (m : Manager) : Manager :=
  fold_left
    (fun m a =>
       reconnect_saved (saved_id a) (saved_url a) (saved_name a)
         (attempt_transports a) (attempt_client a) (attempt_run a) m)
    attempts m.

(** A row comes back to life when the tokens stored for it read as a
    truthy value -- the record parses and [tokens()] returns neither
    [undefined] nor a falsy value --, a transport can be built and the
    session opens and lists its tools. *)
Definition recoverable (a : SavedAttempt) (oauth : oauth_table) : bool :=
  match provider_tokens (saved_id a) oauth,
        choose_transport (attempt_transports a),
        run_outcome (attempt_run a) with
  | inr (Some stored), Some _, session_ok _ => truthy stored
  | _, _, _ => false
  end.

Definition recovered_status (a : SavedAttempt) (oauth : oauth_table) : string :=
  if recoverable a oauth then "connected" else "disconnected".

Lemma provider_tokens_same (id : string) (t t' : oauth_table) :
  t' !! id = t !! id -> provider_tokens id t' = provider_tokens id t.
Proof. unfold provider_tokens, getSession, oauth_get. now intros ->. Qed.

Lemma reconnect_saved_other (a : SavedAttempt) (m : Manager) (other : string) :
  other <> saved_id a ->
  let m' := reconnect_saved (saved_id a) (saved_url a) (saved_name a)
              (attempt_transports a) (attempt_client a) (attempt_run a) m in
  Map_has (connections m') other = Map_has (connections m) other
  /\ oauth_sessions m' !! other = oauth_sessions m !! other
  /\ mcp_connections m' !! other = mcp_connections m !! other.
Proof.
  intros Hne. unfold reconnect_saved, reconnect.
  destruct (provider_tokens (saved_id a) (oauth_sessions m))
    as [syntaxError|[stored|]]; simpl;
    try (now rewrite mcpDb_updateStatus_other).
  destruct (negb (truthy stored)); simpl;
    [now rewrite mcpDb_updateStatus_other|].
  destruct (choose_transport (attempt_transports a)) as [[tr useSSE]|]; simpl;
    [|now rewrite mcpDb_updateStatus_other].
  destruct (run_outcome (attempt_run a)); simpl;
    rewrite ?Map_has_set, ?mcpDb_updateStatus_other by exact Hne;
    repeat split; try (now apply apply_calls_other).
  destruct (String.eqb_spec (saved_id a) other); [congruence | reflexivity].
Qed.

Lemma reconnect_saved_self (a : SavedAttempt) (m : Manager) :
  let m' := reconnect_saved (saved_id a) (saved_url a) (saved_name a)
              (attempt_transports a) (attempt_client a) (attempt_run a) m in
  Map_has (connections m') (saved_id a)
  = Map_has (connections m) (saved_id a) || recoverable a (oauth_sessions m)
  /\ row_status <$> mcp_connections m' !! saved_id a
     = (fun _ => recovered_status a (oauth_sessions m))
         <$> mcp_connections m !! saved_id a
  /\ pendingConnections m' = pendingConnections m.
Proof.
  assert (Hskip : forall status : string,
            row_status <$> mcpDb_updateStatus (saved_id a) status
                             (mcp_connections m) !! saved_id a
            = (fun _ => status) <$> mcp_connections m !! saved_id a).
  { intros status. unfold mcpDb_updateStatus. rewrite lookup_alter_eq.
    now destruct (mcp_connections m !! saved_id a). }
  unfold reconnect_saved, reconnect, recovered_status, recoverable.
  destruct (provider_tokens (saved_id a) (oauth_sessions m))
    as [syntaxError|[stored|]]; [| destruct (truthy stored) |];
    destruct (choose_transport (attempt_transports a)) as [[tr useSSE]|];
    destruct (run_outcome (attempt_run a)); simpl;
    rewrite ?Map_has_set, ?String.eqb_refl, ?orb_false_r, ?orb_true_r, ?Hskip;
    now repeat split.
Qed.

Lemma recovery_skips (attempts : list SavedAttempt) (m : Manager) (id : string) :
  id ∉ map saved_id attempts ->
  let m' := reconnectSavedConnections attempts m in
  Map_has (connections m') id = Map_has (connections m) id
  /\ oauth_sessions m' !! id = oauth_sessions m !! id
  /\ mcp_connections m' !! id = mcp_connections m !! id.
Proof.
  unfold reconnectSavedConnections. revert m.
  induction attempts as [|a l IH]; intros m Hid; [now repeat split|].
  simpl in Hid. apply not_elem_of_cons in Hid as [Hne Hl].
  destruct (reconnect_saved_other a m id Hne) as (G1 & G2 & G3).
  simpl.
  set (m1 := reconnect_saved (saved_id a) (saved_url a) (saved_name a)
               (attempt_transports a) (attempt_client a) (attempt_run a) m) in *.
  destruct (IH m1 Hl) as (H1 & H2 & H3).
  rewrite H1, H2, H3. auto.
Qed.

Lemma recovery_pending (attempts : list SavedAttempt) (m : Manager) :
  pendingConnections (reconnectSavedConnections attempts m) = pendingConnections m.
Proof.
  unfold reconnectSavedConnections. revert m.
  induction attempts as [|a l IH]; intros m; [reflexivity|].
  simpl. rewrite IH. now destruct (reconnect_saved_self a m) as (_ & _ & ->).
Qed.

Lemma recovery_each (attempts : list SavedAttempt) (m : Manager) :
  NoDup (map saved_id attempts) ->
  let m' := reconnectSavedConnections attempts m in
  Forall (fun a =>
            Map_has (connections m') (saved_id a)
            = Map_has (connections m) (saved_id a)
              || recoverable a (oauth_sessions m)
            /\ row_status <$> mcp_connections m' !! saved_id a
               = (fun _ => recovered_status a (oauth_sessions m))
                   <$> mcp_connections m !! saved_id a)
    attempts.
Proof.
  revert m. induction attempts as [|a l IH]; intros m Hnd; [constructor|].
  simpl in Hnd. apply NoDup_cons in Hnd as [Ha Hl].
  set (m1 := reconnect_saved (saved_id a) (saved_url a) (saved_name a)
               (attempt_transports a) (attempt_client a) (attempt_run a) m).
  change (reconnectSavedConnections (a :: l) m)
    with (reconnectSavedConnections l m1).
  constructor.
  - destruct (recovery_skips l m1 _ Ha) as (H1 & _ & H3).
    destruct (reconnect_saved_self a m) as (G1 & G2 & _).
    fold m1 in G1, G2. rewrite H1, H3. now split.
  - specialize (IH m1 Hl). simpl in IH.
    rewrite Forall_forall in *. intros b Hb.
    assert (Hne : saved_id b <> saved_id a).
    { intros Heq. apply Ha. rewrite <- Heq.
      apply list_elem_of_fmap. now exists b. }
    destruct (IH b Hb) as [I1 I2].
    destruct (reconnect_saved_other a m (saved_id b) Hne) as (G1 & G2 & G3).
    fold m1 in G1, G2, G3.
    assert (Hrec : recoverable b (oauth_sessions m1)
                   = recoverable b (oauth_sessions m)).
    { unfold recoverable. now rewrite (provider_tokens_same _ _ _ G2). }
    unfold recovered_status in *. rewrite I1, I2, G1, G3, Hrec. now split.
Qed.

(** Startup recovery treats every saved row on its own: a row ends up in
    the registry exactly when the tokens stored for it read as a truthy
    value (the record parses, and to something other than [null], [0],
    [false] or the empty string), a transport can be built and its
    session opens, and its saved status becomes ['connected'] or
    ['disconnected'] accordingly -- whatever happened to the rows tried
    before or after it.  Recovery never creates a pending connection: a
    row without usable tokens is not sent through an interactive flow. *)
Theorem startup_recovery_independent (oauth : oauth_table)
    (saved : connection_table) (attempts : list SavedAttempt) :
  NoDup (map saved_id attempts) ->
  let m := reconnectSavedConnections attempts (startup oauth saved) in
  Forall (fun a =>
            Map_has (connections m) (saved_id a) = recoverable a oauth
            /\ row_status <$> mcp_connections m !! saved_id a
               = (fun _ => if recoverable a oauth
                           then "connected" else "disconnected")
                   <$> saved !! saved_id a)
    attempts
  /\ pendingConnections m = [].
Proof.
  intros Hnd m. split.
  - exact (recovery_each attempts (startup oauth saved) Hnd).
  - subst m. now rewrite recovery_pending.
Qed.

End Provider.

(* ================================================================== *)
(** * Sample histories *)
(* ================================================================== *)

(** A stand-in for [JSON.parse] that knows one text. *)
Definition demo_parse (text : string) : string + json :=
  if String.eqb text "{}" then inr (JObj []) else inl "Unexpected token".

Example sample_history_catalog :
  getAllTools (run_events demo_parse sample_history (startup ∅ ∅))
  = [ {| connectionId := "id-1"; connectionName := "a.example";
         tool := sample_tool |} ].
Proof. vm_compute. reflexivity. Qed.

Lemma live_or_pending_never_both_witness :
  forallb is_flow_event sample_history = true /\
  uuids_fresh demo_parse sample_history (startup ∅ ∅) = true /\
  Map_has (connections (run_events demo_parse sample_history (startup ∅ ∅))) "id-1"
  && Map_has (pendingConnections (run_events demo_parse sample_history (startup ∅ ∅))) "id-1"
  = false.
Proof.
  split; [reflexivity|]. split; [reflexivity|].
  apply (live_or_pending_never_both demo_parse ∅ ∅ sample_history "id-1"); reflexivity.
Defined.

(** The hypothesis on [uuidv4] is needed: were it to draw the identifier
    of a pending connection, that identifier would key both maps. *)
Remark uuid_collision_breaks_exclusion :
  let events :=
    [ ev_connect "id-1" "https://a.example/mcp" None "a.example"
        both_transports 1 2 run_needs_auth;
      ev_connect "id-1" "https://b.example/mcp" None "b.example"
        both_transports 3 4 run_connected ] in
  uuids_fresh demo_parse events (startup ∅ ∅) = false /\
  let m := run_events demo_parse events (startup ∅ ∅) in
  Map_has (connections m) "id-1" && Map_has (pendingConnections m) "id-1" = true.
Proof. split; reflexivity. Qed.

Definition sample_manager : Manager := run_events demo_parse sample_history (startup ∅ ∅).

Lemma disconnect_spec_witness :
  (Map_get (connections sample_manager) "id-9" = None /\
   Map_get (pendingConnections sample_manager) "id-9" = None /\
   disconnect "id-9" false sample_manager = (sample_manager, false))
  /\
  (Map_has (connections sample_manager) "id-1"
   || Map_has (pendingConnections sample_manager) "id-1" = true /\
   snd (disconnect "id-1" true sample_manager) = true /\
   oauth_sessions (fst (disconnect "id-1" true sample_manager)) !! "id-1" = None).
Proof.
  split.
  - split; [reflexivity|]. split; [reflexivity|].
    apply (proj1 (disconnect_spec "id-9" false sample_manager)); reflexivity.
  - split; [reflexivity|].
    destruct (proj2 (disconnect_spec "id-1" true sample_manager))
      as (Hr & _ & _ & Ho & _); [reflexivity|].
    split; [exact Hr | exact Ho].
Defined.

(** ** The adapter *)

Lemma provider_calls_isolated_witness :
  let t' := apply_calls "id-1" (run_calls run_needs_auth)
              {["id-2" := sample_session]} in
  t' !! "id-2" = ({["id-2" := sample_session]} : oauth_table) !! "id-2"
  /\ provider_tokens demo_parse "id-2" t'
     = provider_tokens demo_parse "id-2" {["id-2" := sample_session]}
  /\ provider_clientInformation demo_parse "id-2" t'
     = provider_clientInformation demo_parse "id-2" {["id-2" := sample_session]}
  /\ provider_codeVerifier demo_parse "id-2" t'
     = provider_codeVerifier demo_parse "id-2" {["id-2" := sample_session]}
  /\ getAuthorizationUrl demo_parse "id-2" t'
     = getAuthorizationUrl demo_parse "id-2" {["id-2" := sample_session]}.
Proof.
  apply (provider_calls_isolated demo_parse "id-1" "id-2" (run_calls run_needs_auth)
           {["id-2" := sample_session]}).
  discriminate.
Defined.

Lemma saved_credentials_persist_witness :
  provider_codeVerifier demo_parse "id-1"
    (apply_calls "id-1"
       [ call_saveCodeVerifier "verifier";
         call_redirectToAuthorization "https://auth.example/authorize";
         call_saveTokens "{}" ] ∅)
  = inr "verifier".
Proof.
  destruct (proj1 (saved_credentials_persist demo_parse "id-1" "verifier"
                     [ call_redirectToAuthorization "https://auth.example/authorize";
                       call_saveTokens "{}" ] ∅ ltac:(discriminate)))
    as [_ H]; [reflexivity|].
  apply (H {| session_tokens := Some (JObj []);
              session_codeVerifier := Some "verifier";
              session_clientInfo := None;
              session_authorizationUrl := None;
              session_state := None |}).
  reflexivity.
Defined.

(** Tokens whose text does not parse make every reader of the record
    throw, the reader of the verifier included. *)
Example unreadable_record :
  provider_codeVerifier demo_parse "id-1"
    (apply_calls "id-1"
       [call_saveCodeVerifier "verifier"; call_saveTokens "tokens"] ∅)
  = inl "Unexpected token".
Proof. reflexivity. Qed.

(** ** The connection manager *)

Lemma list_connections_distinct_witness :
  let listing :=
    list_connections
      (run_events demo_parse
         [ ev_connect "id-1" "https://a.example/mcp" None "a.example"
             both_transports 1 2 run_needs_auth;
           ev_connect "id-2" "https://b.example/mcp" (Some "B") "b.example"
             both_transports 3 4 run_connected ]
         (startup ∅ ∅)) in
  NoDup (map listed_id listing)
  /\ map listed_id listing = ["id-2"; "id-1"].
Proof.
  split; [|reflexivity].
  apply (list_connections_distinct demo_parse ∅ ∅
           [ ev_connect "id-1" "https://a.example/mcp" None "a.example"
               both_transports 1 2 run_needs_auth;
             ev_connect "id-2" "https://b.example/mcp" (Some "B") "b.example"
               both_transports 3 4 run_connected ]); reflexivity.
Defined.

Lemma session_store_mirrors_manager_witness :
  Forall (fun kc =>
            mcp_connections sample_manager !! fst kc
            = Some {| row_url := conn_url (snd kc); row_name := conn_name (snd kc);
                      row_status := "connected" |})
    (connections sample_manager)
  /\ Forall (fun kp =>
               mcp_connections sample_manager !! fst kp
               = Some {| row_url := pending_url (snd kp);
                         row_name := pending_name (snd kp);
                         row_status := "pending_auth" |})
       (pendingConnections sample_manager).
Proof.
  apply (session_store_mirrors_manager demo_parse ∅ ∅ sample_history); reflexivity.
Defined.

Example sample_manager_row :
  mcp_connections sample_manager !! "id-1"
  = Some {| row_url := "https://a.example/mcp"; row_name := "a.example";
            row_status := "connected" |}.
Proof. reflexivity. Qed.

Lemma connect_failure_leaves_no_trace_witness :
  let result :=
    connect demo_parse "id-3" "https://c.example/mcp" None "c.example"
      both_transports 5 6 run_refused sample_manager in
  snd result = inl "Failed to connect to MCP server: ECONNREFUSED"
  /\ connections (fst result) = connections sample_manager
  /\ oauth_sessions (fst result) !! "id-3" = None.
Proof.
  split; [reflexivity|].
  destruct (connect_failure_leaves_no_trace demo_parse "id-3"
              "https://c.example/mcp" None
              "c.example" both_transports 5 6 run_refused sample_manager
              (fst (connect demo_parse "id-3" "https://c.example/mcp" None
                      "c.example" both_transports 5 6 run_refused
                      sample_manager))
              "Failed to connect to MCP server: ECONNREFUSED")
    as (Hc & _ & _ & _ & _ & Ho & _); [reflexivity|].
  split; assumption.
Defined.

(** The exception: the provider answers [UnauthorizedError] after the SDK
    stored a client registration that does not parse; [connect] throws
    the [SyntaxError] and the record stays. *)
Example connect_unreadable_record :
  let run :=
    {| run_calls := [call_saveClientInformation "client"];
       run_outcome := session_unauthorized "Unauthorized" |} in
  let result :=
    connect demo_parse "id-3" "https://c.example/mcp" None "c.example"
      both_transports 5 6 run (startup ∅ ∅) in
  snd result = inl "Unexpected token"
  /\ (client_info <$> oauth_sessions (fst result) !! "id-3")
     = Some (Some "client").
Proof. split; reflexivity. Qed.

Lemma connect_needsAuth_handoff_witness :
  let result :=
    connect demo_parse "id-1" "https://a.example/mcp" None "a.example"
      both_transports 1 2 run_needs_auth (startup ∅ ∅) in
  snd result
  = inr (result_needsAuth "https://auth.example/authorize" "id-1")
  /\ getAuthorizationUrl demo_parse "id-1" (oauth_sessions (fst result))
     = inr None
  /\ provider_codeVerifier demo_parse "id-1" (oauth_sessions (fst result))
     = inr "verifier".
Proof.
  split; [reflexivity|].
  destruct (connect_needsAuth_handoff demo_parse "id-1" "https://a.example/mcp"
              None "a.example" both_transports 1 2 run_needs_auth (startup ∅ ∅)
              (fst (connect demo_parse "id-1" "https://a.example/mcp" None
                      "a.example" both_transports 1 2 run_needs_auth
                      (startup ∅ ∅)))
              "https://auth.example/authorize" "id-1")
    as (_ & _ & _ & _ & Hurl & Hverifier & _); [reflexivity|].
  split; [exact Hurl|]. rewrite Hverifier. reflexivity.
Defined.

Definition pending_manager : Manager :=
  fst (connect demo_parse "id-1" "https://a.example/mcp" None "a.example" both_transports
         1 2 run_needs_auth (startup ∅ ∅)).

Lemma completeOAuthConnection_outcomes_witness :
  getConnection
    (fst (completeOAuthConnection "id-1" "code" run_connected pending_manager))
    "id-1"
  = Some {| conn_id := "id-1"; conn_url := "https://a.example/mcp";
            conn_name := "a.example"; conn_status := st_connected;
            conn_tools := [sample_tool]; conn_client := 2;
            conn_transport := StreamableHTTP |}.
Proof.
  destruct (completeOAuthConnection_outcomes "id-1" "code" run_connected
              pending_manager
              {| pending_url := "https://a.example/mcp";
                 pending_name := "a.example";
                 pending_transport := StreamableHTTP; pending_client := 2 |})
    as (H & _); [reflexivity|]. exact H.
Defined.

(** ** Startup recovery *)

(** A stand-in for [JSON.parse] that also knows [null]. *)
Definition recovery_parse (text : string) : string + json :=
  if String.eqb text "{}" then inr (JObj [])
  else if String.eqb text "null" then inr JNull
  else inl "Unexpected token".

(** Five saved rows: the second has no tokens, the third is unreachable,
    the tokens of the fourth read as [null] and those of the fifth do not
    parse. *)
Definition saved_rows : connection_table :=
  {[ "s1" := {| row_url := "https://a.example/mcp"; row_name := "A";
                row_status := "connected" |};
     "s2" := {| row_url := "https://b.example/mcp"; row_name := "B";
                row_status := "pending_auth" |};
     "s3" := {| row_url := "https://c.example/mcp"; row_name := "C";
                row_status := "connected" |};
     "s4" := {| row_url := "https://d.example/mcp"; row_name := "D";
                row_status := "connected" |};
     "s5" := {| row_url := "https://e.example/mcp"; row_name := "E";
                row_status := "connected" |} ]}.

Definition tokens_only (text : string) : OAuthSessionRow :=
  {| tokens := Some text; code_verifier := None; client_info := None;
     authorization_url := None; state := None |}.

Definition saved_tokens : oauth_table :=
  {[ "s1" := tokens_only "{}"; "s3" := tokens_only "{}";
     "s4" := tokens_only "null"; "s5" := tokens_only "t5" ]}.

Definition saved_attempt (id url name : string) (client : Client)
    (run : SessionRun) : SavedAttempt :=
  {| saved_id := id; saved_url := url; saved_name := name;
     attempt_transports := both_transports; attempt_client := client;
     attempt_run := run |}.

Definition saved_attempts : list SavedAttempt :=
  [ saved_attempt "s2" "https://b.example/mcp" "B" 1 run_connected;
    saved_attempt "s3" "https://c.example/mcp" "C" 2 run_refused;
    saved_attempt "s4" "https://d.example/mcp" "D" 3 run_connected;
    saved_attempt "s5" "https://e.example/mcp" "E" 4 run_connected;
    saved_attempt "s1" "https://a.example/mcp" "A" 5 run_connected ].

Example startup_recovery_sample :
  let m := reconnectSavedConnections recovery_parse saved_attempts
             (startup saved_tokens saved_rows) in
  map fst (connections m) = ["s1"]
  /\ (row_status <$> mcp_connections m !! "s1") = Some "connected"
  /\ (row_status <$> mcp_connections m !! "s2") = Some "disconnected"
  /\ (row_status <$> mcp_connections m !! "s3") = Some "disconnected"
  /\ (row_status <$> mcp_connections m !! "s4") = Some "disconnected"
  /\ (row_status <$> mcp_connections m !! "s5") = Some "disconnected".
Proof. vm_compute. repeat split. Qed.

Lemma startup_recovery_independent_witness :
  let m := reconnectSavedConnections recovery_parse saved_attempts
             (startup saved_tokens saved_rows) in
  Forall (fun a =>
            Map_has (connections m) (saved_id a)
            = recoverable recovery_parse a saved_tokens
            /\ row_status <$> mcp_connections m !! saved_id a
               = (fun _ => if recoverable recovery_parse a saved_tokens
                           then "connected" else "disconnected")
                   <$> saved_rows !! saved_id a)
    saved_attempts
  /\ pendingConnections m = [].
Proof.
  apply (startup_recovery_independent recovery_parse saved_tokens saved_rows
           saved_attempts).
  refine (bool_decide_unpack _ _). vm_compute. exact I.
Defined.

(* ================================================================== *)
(** * Tool-calling orchestrator ([openrouter.ts]) *)
(* ================================================================== *)

(** ** Data model *)

Inductive Role : Type := role_user | role_assistant | role_system | role_tool.

Definition Role_eqb (a b : Role) : bool :=
  match a, b with
  | role_user, role_user | role_assistant, role_assistant
  | role_system, role_system | role_tool, role_tool => true
  | _, _ => false
  end.

(** [content: string | null], which a backend reply may also leave out. *)
Inductive Content : Type :=
| content_undefined
| content_null
| content_text (text : string).

(** [ToolCall]; its [type] is always ['function']. *)
Record ToolCall : Type := {
  call_id : string;
  call_name : string;        (* function.name *)
  call_arguments : string    (* function.arguments *)
}.

(** [ChatMessage].  [tool_calls] is [None] when the field is absent or
    [null], the two cases the code never tells apart.  [extra] holds the
    fields outside the interface that a backend adds ([refusal],
    [reasoning], ...). *)
Record ChatMessage : Type := {
  role : Role;
  content : Content;
  tool_calls : option (list ToolCall);
  tool_call_id : option string;
  msg_name : option string;
  extra : obj
}.

Record ToolResult : Type := {
  result_tool_call_id : string;
  result_name : string;
  output : string
}.

(** [OpenRouterTool]; its [type] is always ['function']. *)
Record OpenRouterTool : Type := {
  function_name : string;
  function_description : string;
  parameters : obj
}.

Record ChatCompletionRequest : Type := {
  req_model : string;
  req_messages : list ChatMessage;
  req_tools : option (list OpenRouterTool);
  req_tool_choice : option string;
  req_temperature : float;
  req_max_tokens : float
}.

(** The [options] argument of [chat] and [chatWithToolLoop]; each field is
    [None] when left out. *)
Record ChatOptions : Type := {
  opt_model : option string;
  opt_temperature : option float;
  opt_maxTokens : option float;
  opt_useTools : option bool;
  opt_maxIterations : option nat
}.

Definition defaultModel : string := "anthropic/claude-sonnet-4".

(** ** Building the request *)

(** [convertMCPToolsToOpenRouterFormat()]. *)
Definition convertMCPToolsToOpenRouterFormat (m : Manager) : list OpenRouterTool :=
  map (fun entry =>
         {| function_name :=
              compose_name (connectionId entry) (tool_name (tool entry));
            function_description :=
              match nonempty (tool_description (tool entry)) with
              | Some d => d
              | None => "Tool " +:+ tool_name (tool entry)
              end;
            parameters := sanitizeSchema (inputSchema (tool entry)) |})
      (getAllTools m).

(** [cleanMessages(messages)]. *)
Definition cleanMessage (msg : ChatMessage) : ChatMessage :=
  {| role := role msg;
     content := content msg;
     tool_calls :=
       match role msg, tool_calls msg with
       | role_assistant, Some (tc :: tcs) =>
           Some (map (fun tc => {| call_id := call_id tc;
                                   call_name := call_name tc;
                                   call_arguments :=
                                     match call_arguments tc with
                                     | EmptyString => "{}"
                                     | args => args
                                     end |}) (tc :: tcs))
       | _, _ => None
       end;
     tool_call_id :=
       match role msg with
       | role_tool => nonempty (tool_call_id msg)
       | _ => None
       end;
     msg_name := None;
     extra := [] |}.

Definition cleanMessages (messages : list ChatMessage) : list ChatMessage :=
  map cleanMessage messages.

(** [options.useTools !== false]. *)
Definition useTools_not_false (options : ChatOptions) : bool :=
  match opt_useTools options with
  | Some false => false
  | _ => true
  end.

(** The request [chat] hands to [fetch]. *)
Definition chat_request (m : Manager) (messages : list ChatMessage)
    (options : ChatOptions) : ChatCompletionRequest :=
  let model :=
    match nonempty (opt_model options) with
    | Some model => model
    | None => defaultModel
    end in
  let cleanedMessages := cleanMessages messages in
  let tools :=
    if useTools_not_false options
    then convertMCPToolsToOpenRouterFormat m
    else [] in
  {| req_model := model;
     req_messages := cleanedMessages;
     req_tools := match tools with [] => None | _ => Some tools end;
     req_tool_choice := match tools with [] => None | _ => Some "auto" end;
     req_temperature :=
       match opt_temperature options with Some t => t | None => 0.7%float end;
     req_max_tokens :=
       match opt_maxTokens options with Some n => n | None => 4096%float end |}.

(** *** The earlier variant of the service (no schema sanitizer) *)

Definition convertMCPToolsToOpenRouterFormat_unsanitized (m : Manager)
    : list OpenRouterTool :=
  map (fun entry =>
         {| function_name :=
              compose_name (connectionId entry) (tool_name (tool entry));
            function_description :=
              match nonempty (tool_description (tool entry)) with
              | Some d => d
              | None => "Tool " +:+ tool_name (tool entry)
              end;
            parameters := inputSchema (tool entry) |})
      (getAllTools m).

(** [cleanedMessages[cleanedMessages.length - 1]?.role === 'tool']. *)
Definition isProcessingToolResults (cleanedMessages : list ChatMessage) : bool :=
  match last cleanedMessages with
  | Some lastMessage => Role_eqb (role lastMessage) role_tool
  | None => false
  end.

Definition chat_request_unsanitized (m : Manager) (messages : list ChatMessage)
    (options : ChatOptions) : ChatCompletionRequest :=
  let model :=
    match nonempty (opt_model options) with
    | Some model => model
    | None => defaultModel
    end in
  let cleanedMessages := cleanMessages messages in
  let tools :=
    if useTools_not_false options && negb (isProcessingToolResults cleanedMessages)
    then convertMCPToolsToOpenRouterFormat_unsanitized m
    else [] in
  {| req_model := model;
     req_messages := cleanedMessages;
     req_tools := match tools with [] => None | _ => Some tools end;
     req_tool_choice := match tools with [] => None | _ => Some "auto" end;
     req_temperature :=
       match opt_temperature options with Some t => t | None => 0.7%float end;
     req_max_tokens :=
       match opt_maxTokens options with Some n => n | None => 4096%float end |}.

(** ** The reply *)

(** What [fetch] and the decoding of its response come to. *)
Inductive BackendReply : Type :=
| reply_failure (message : string)  (* [fetch] rejected or [!response.ok] *)
| reply_invalid_json
| reply_no_choices
| reply_no_message
| reply_message (message : ChatMessage).

(** [if (assistantMessage.content === undefined)
       assistantMessage.content = assistantMessage.tool_calls ? null : '';] *)
Definition normalize_content (assistantMessage : ChatMessage) : ChatMessage :=
  match content assistantMessage with
  | content_undefined =>
      {| role := role assistantMessage;
         content := match tool_calls assistantMessage with
                    | Some _ => content_null
                    | None => content_text EmptyString
                    end;
         tool_calls := tool_calls assistantMessage;
         tool_call_id := tool_call_id assistantMessage;
         msg_name := msg_name assistantMessage;
         extra := extra assistantMessage |}
  | _ => assistantMessage
  end.

(** The message that carries one tool result back to the model. *)
Definition tool_message (result : ToolResult) : ChatMessage :=
  {| role := role_tool;
     content := content_text (output result);
     tool_calls := None;
     tool_call_id := Some (result_tool_call_id result);
     msg_name := None;
     extra := [] |}.

Definition systemPrompt : ChatMessage :=
  {| role := role_system;
     content := content_text
"Você é um assistente útil com acesso a ferramentas MCP (Model Context Protocol). 

REGRAS IMPORTANTES:
1. Quando o usuário pedir para fazer algo, COMPLETE A TAREFA até o fim
2. Se você disse que vai fazer algo, FAÇA - não pare no meio
3. Use as ferramentas disponíveis para completar tarefas
4. Se uma ferramenta falhar, tente outra abordagem
5. Sempre responda em português brasileiro
6. Seja conciso e direto

Quando precisar criar, modificar ou buscar informações, use as ferramentas disponíveis.";
     tool_calls := None;
     tool_call_id := None;
     msg_name := None;
     extra := [] |}.

(** ** Executing tool calls and talking to the backend *)

Section Orchestrator.
(** The world outside the process: providers and the LLM backend. *)
Variable World : Type.
(** [fetch(`${baseUrl}/chat/completions`, ...)] and the decoding of the
    response. *)
Variable backend : World -> ChatCompletionRequest -> World * BackendReply.
(** [client.callTool({ name, arguments })]; the left summand is what it
    threw: [Some message] for an [Error], [None] for anything else. *)
Variable session_callTool :
  World -> Client -> string -> json -> World * (option string + json).
(** [JSON.parse]; the left summand is the message of its [SyntaxError]. *)
Variable JSON_parse : string -> string + json.
(** [JSON.stringify(v)] and [JSON.stringify(v, null, 2)]. *)
Variable JSON_stringify : json -> string.
Variable JSON_stringify_pretty : json -> string.
(** [process.env.OPENROUTER_API_KEY]. *)
Variable OPENROUTER_API_KEY : option string.

(** [mcpManager.callTool(connectionId, toolName, args)]. *)
Definition callTool (w : World) (m : Manager) (connectionId toolName : string)
    (args : json) : World * (string + json) :=
  match Map_get (connections m) connectionId with
  | None => (w, inl ("MCP connection not found: " +:+ connectionId))
  | Some connection =>
      match session_callTool w (conn_client connection) toolName args with
      | (w', inr result) => (w', inr result)
      | (w', inl thrown) =>
          (w', inl ("Failed to call tool " +:+ toolName +:+ ": " +:+
                    match thrown with
                    | Some message => message
                    | None => "Unknown error"
                    end))
      end
  end.

(** [JSON.stringify({ error: message })]. *)
Definition error_payload (message : string) : string :=
  JSON_stringify (JObj [("error", JStr message)]).

(** [executeTool(toolCall)]: whatever the [try] block throws ends up in
    the [catch] block, which returns the error as the tool's output. *)
Definition executeTool (w : World) (m : Manager) (toolCall : ToolCall)
    : World * ToolResult :=
  let functionName := call_name toolCall in
  let '(connectionId, toolName) := decompose_name functionName in
  match JSON_parse (call_arguments toolCall) with
  | inl syntaxError =>
      (w, {| result_tool_call_id := call_id toolCall;
             result_name := functionName;
             output := error_payload syntaxError |})
  | inr args =>
      match callTool w m connectionId toolName args with
      | (w', inr result) =>
          (w', {| result_tool_call_id := call_id toolCall;
                  result_name := functionName;
                  output := JSON_stringify_pretty result |})
      | (w', inl message) =>
          (w', {| result_tool_call_id := call_id toolCall;
                  result_name := functionName;
                  output := error_payload message |})
      end
  end.

(** [for (const toolCall of assistantMessage.tool_calls)
      toolResults.push(await this.executeTool(toolCall))]. *)
Fixpoint execute_all (w : World) (m : Manager) (toolCalls : list ToolCall)
    : World * list ToolResult :=
  match toolCalls with
  | [] => (w, [])
  | toolCall :: rest =>
      let '(w1, result) := executeTool w m toolCall in
      let '(w2, results) := execute_all w1 m rest in
      (w2, result :: results)
  end.

(** [chat(messages, options)]. *)
Definition chat (w : World) (m : Manager) (messages : list ChatMessage)
    (options : ChatOptions)
    : World * (string + ChatMessage * option (list ToolResult)) :=
  match nonempty OPENROUTER_API_KEY with
  | None =>
      (w, inl "OpenRouter API key not configured. Set OPENROUTER_API_KEY in .env")
  | Some apiKey =>
      match backend w (chat_request m messages options) with
      | (w1, reply_failure message) => (w1, inl message)
      | (w1, reply_invalid_json) =>
          (w1, inl "Invalid JSON response from OpenRouter")
      | (w1, reply_no_choices) => (w1, inl "No choices in OpenRouter response")
      | (w1, reply_no_message) => (w1, inl "No message in OpenRouter response")
      | (w1, reply_message reply) =>
          let assistantMessage := normalize_content reply in
          match tool_calls assistantMessage with
          | Some (toolCall :: rest) =>
              let '(w2, toolResults) :=
                execute_all w1 m (toolCall :: rest) in
              (w2, inr (assistantMessage, Some toolResults))
          | _ => (w1, inr (assistantMessage, None))
          end
      end
  end.

(** How the [while] loop of [chatWithToolLoop] is left. *)
Inductive LoopEnd : Type :=
| loop_done (messages : list ChatMessage) (finalMessage : ChatMessage)
| loop_chat_failed (error : string)
| loop_bound_exceeded.

(** The [while (iteration < maxIterations)] loop with [remaining]
    iterations to go.  Besides the way the loop ends, the result gives
    the world afterwards, the local [conversationMessages] at that
    moment, and the number of iterations that were begun. *)
Fixpoint tool_loop (remaining : nat) (w : World) (m : Manager)
    (options : ChatOptions) (conversationMessages : list ChatMessage)
    : World * list ChatMessage * nat * LoopEnd :=
  match remaining with
  | 0 => (w, conversationMessages, 0, loop_bound_exceeded)
  | S remaining' =>
      match chat w m conversationMessages options with
      | (w1, inl error) => (w1, conversationMessages, 1, loop_chat_failed error)
      | (w1, inr (message, toolResults)) =>
          let conversationMessages := conversationMessages ++ [message] in
          match tool_calls message with
          | Some (_ :: _) =>
              let conversationMessages :=
                conversationMessages
                ++ map tool_message
                     (match toolResults with Some rs => rs | None => [] end) in
              let '(w2, transcript, iterations, how) :=
                tool_loop remaining' w1 m options conversationMessages in
              (w2, transcript, S iterations, how)
          | _ =>
              (w1, conversationMessages, 1,
               loop_done conversationMessages message)
          end
      end
  end.

(** [options.maxIterations ?? 10]. *)
Definition maxIterations_of (options : ChatOptions) : nat :=
  match opt_maxIterations options with
  | Some n => n
  | None => 10
  end.

(** [hasSystemPrompt ? [...messages] : [this.systemPrompt, ...messages]]. *)
Definition with_system_prompt (messages : list ChatMessage) : list ChatMessage :=
  if existsb (fun msg => Role_eqb (role msg) role_system) messages
  then messages
  else systemPrompt :: messages.

Definition bound_error (maxIterations : nat) : string :=
  "Max iterations (" +:+ pretty maxIterations +:+ ") reached without completing".

(** [chatWithToolLoop(messages, options)]: the caller gets either
    [{ messages, finalMessage }] or a thrown [Error], of which only the
    message is modelled since that is all an [Error] built from a string
    carries. *)
Definition chatWithToolLoop (w : World) (m : Manager)
    (messages : list ChatMessage) (options : ChatOptions)
    : World * (string + list ChatMessage * ChatMessage) :=
  let maxIterations := maxIterations_of options in
  match tool_loop maxIterations w m options (with_system_prompt messages) with
  | (w', _, _, loop_done transcript finalMessage) =>
      (w', inr (transcript, finalMessage))
  | (w', _, _, loop_chat_failed error) => (w', inl error)
  | (w', _, _, loop_bound_exceeded) => (w', inl (bound_error maxIterations))
  end.

(** ** Content of the returned message *)

Lemma normalize_content_tool_calls (reply : ChatMessage) :
  tool_calls (normalize_content reply) = tool_calls reply.
Proof. unfold normalize_content. now destruct (content reply). Qed.

Lemma execute_all_fst_snd (w : World) (m : Manager) (calls : list ToolCall) :
  execute_all w m calls = (fst (execute_all w m calls), snd (execute_all w m calls)).
Proof. now destruct (execute_all w m calls). Qed.

(** What [chat] returns once the backend has replied with a message. *)
Lemma chat_reply (w w1 : World) (m : Manager) (messages : list ChatMessage)
    (options : ChatOptions) (apiKey : string) (reply : ChatMessage) :
  nonempty OPENROUTER_API_KEY = Some apiKey ->
  backend w (chat_request m messages options) = (w1, reply_message reply) ->
  chat w m messages options
  = match tool_calls reply with
    | Some (toolCall :: rest) =>
        (fst (execute_all w1 m (toolCall :: rest)),
         inr (normalize_content reply,
              Some (snd (execute_all w1 m (toolCall :: rest)))))
    | _ => (w1, inr (normalize_content reply, None))
    end.
Proof.
  intros Hkey Hreply. unfold chat. rewrite Hkey, Hreply.
  rewrite normalize_content_tool_calls.
  destruct (tool_calls reply) as [[|toolCall rest]|]; try reflexivity.
  now rewrite (execute_all_fst_snd w1 m (toolCall :: rest)).
Qed.

(** C10: for every backend reply, the assistant message [chat] returns
    never has [undefined] content: when the reply omits [content], it is
    [null] if the message carries a [tool_calls] field (an array, be it
    empty) and the empty string otherwise; a reply that has content keeps
    it. *)
Theorem chat_content_never_undefined (w w1 : World) (m : Manager)
    (messages : list ChatMessage) (options : ChatOptions) (apiKey : string)
    (reply : ChatMessage) :
  nonempty OPENROUTER_API_KEY = Some apiKey ->
  backend w (chat_request m messages options) = (w1, reply_message reply) ->
  exists w' message toolResults,
    chat w m messages options = (w', inr (message, toolResults))
    /\ content message <> content_undefined
    /\ content message
       = match content reply with
         | content_undefined =>
             match tool_calls reply with
             | Some _ => content_null
             | None => content_text EmptyString
             end
         | given => given
         end
    /\ role message = role reply
    /\ tool_calls message = tool_calls reply.
Proof.
  intros Hkey Hreply. rewrite (chat_reply _ _ _ _ _ _ _ Hkey Hreply).
  assert (H : content (normalize_content reply) <> content_undefined
              /\ content (normalize_content reply)
                 = match content reply with
                   | content_undefined =>
                       match tool_calls reply with
                       | Some _ => content_null
                       | None => content_text EmptyString
                       end
                   | given => given
                   end
              /\ role (normalize_content reply) = role reply
              /\ tool_calls (normalize_content reply) = tool_calls reply).
  { unfold normalize_content.
    destruct (content reply) eqn:E; simpl; rewrite ?E; repeat split;
      try discriminate.
    now destruct (tool_calls reply). }
  destruct (tool_calls reply) as [[|toolCall rest]|]; eauto 10.
Qed.

(** ** Containment of tool failures *)

(** [result] is what executing [toolCall] in the world [w] yields, and
    [w'] is the world afterwards.  The result is keyed by the call, and
    whichever way the execution fails -- arguments that do not parse, an
    identifier that resolves to no connection, an error from the
    provider -- its output is [JSON.stringify({ error: message })] for
    the message of that failure; the provider is asked at most once, in
    the world of the call. *)
Definition contained (m : Manager) (w : World) (toolCall : ToolCall)
    (result : ToolResult) (w' : World) : Prop :=
  let connectionId := fst (decompose_name (call_name toolCall)) in
  let toolName := snd (decompose_name (call_name toolCall)) in
  result_tool_call_id result = call_id toolCall
  /\ result_name result = call_name toolCall
  /\ (forall syntaxError,
        JSON_parse (call_arguments toolCall) = inl syntaxError ->
        w' = w
        /\ output result = JSON_stringify (JObj [("error", JStr syntaxError)]))
  /\ (forall args,
        JSON_parse (call_arguments toolCall) = inr args ->
        Map_get (connections m) connectionId = None ->
        w' = w
        /\ output result
           = JSON_stringify
               (JObj [("error",
                       JStr ("MCP connection not found: " +:+ connectionId))]))
  /\ (forall args connection,
        JSON_parse (call_arguments toolCall) = inr args ->
        Map_get (connections m) connectionId = Some connection ->
        match session_callTool w (conn_client connection) toolName args with
        | (w1, inl thrown) =>
            w' = w1
            /\ output result
               = JSON_stringify
                   (JObj [("error",
                           JStr ("Failed to call tool " +:+ toolName +:+ ": "
                                 +:+ match thrown with
                                     | Some message => message
                                     | None => "Unknown error"
                                     end))])
        | (w1, inr value) =>
            w' = w1 /\ output result = JSON_stringify_pretty value
        end).

(** The calls of one reply are executed in order, each in the world the
    previous one left. *)
Inductive contained_run (m : Manager)
  : World -> list ToolCall -> list ToolResult -> World -> Prop :=
| contained_run_nil (w : World) : contained_run m w [] [] w
| contained_run_cons (w w1 w' : World) (toolCall : ToolCall)
    (result : ToolResult) (rest : list ToolCall) (results : list ToolResult) :
    contained m w toolCall result w1 ->
    contained_run m w1 rest results w' ->
    contained_run m w (toolCall :: rest) (result :: results) w'.

Lemma executeTool_contained (w : World) (m : Manager) (toolCall : ToolCall) :
  contained m w toolCall (snd (executeTool w m toolCall))
    (fst (executeTool w m toolCall)).
Proof.
  unfold contained, executeTool, callTool, error_payload.
  destruct (decompose_name (call_name toolCall)) as [connectionId toolName].
  simpl.
  destruct (JSON_parse (call_arguments toolCall)) as [syntaxError|args] eqn:Ep.
  { simpl. repeat split; try congruence; intros; congruence. }
  destruct (Map_get (connections m) connectionId) as [connection|] eqn:Ec.
  - destruct (session_callTool w (conn_client connection) toolName args)
      as [w' [thrown|value]] eqn:Es; simpl;
      (repeat split; try congruence;
       intros args' connection' [= <-] [= <-]; now rewrite Es).
  - simpl. repeat split; try congruence; intros; congruence.
Qed.

Lemma execute_all_contained (w : World) (m : Manager) (calls : list ToolCall) :
  contained_run m w calls (snd (execute_all w m calls))
    (fst (execute_all w m calls)).
Proof.
  revert w. induction calls as [|toolCall rest IH]; intros w; [constructor|].
  simpl. pose proof (executeTool_contained w m toolCall) as H1.
  destruct (executeTool w m toolCall) as [w1 result].
  specialize (IH w1). destruct (execute_all w1 m rest) as [w2 results].
  econstructor; [exact H1 | exact IH].
Qed.

(** One result per call, in order, each keyed by its call. *)
Lemma execute_all_ids (w : World) (m : Manager) (calls : list ToolCall) :
  Forall2 (fun call result => result_tool_call_id result = call_id call)
    calls (snd (execute_all w m calls)).
Proof.
  pose proof (execute_all_contained w m calls) as H.
  induction H as [|? ? ? ? ? ? ? (Hid & _) _ IH]; constructor; assumption.
Qed.

(** C8: when the model's reply carries tool calls, [chat] returns the
    assistant message together with one result per call, in order, each
    keyed by the identifier of its call, the calls having been executed
    one after the other.  A call whose execution fails -- arguments that
    are not valid JSON, a connection identifier that resolves to nothing,
    or an error from the provider -- has
    [JSON.stringify({ error: message })] as its output, with the message
    of that failure.  No such failure aborts the turn. *)
Theorem chat_contains_tool_failures (w w1 : World) (m : Manager)
    (messages : list ChatMessage) (options : ChatOptions) (apiKey : string)
    (reply : ChatMessage) (toolCall : ToolCall) (rest : list ToolCall) :
  nonempty OPENROUTER_API_KEY = Some apiKey ->
  backend w (chat_request m messages options) = (w1, reply_message reply) ->
  tool_calls reply = Some (toolCall :: rest) ->
  exists w' toolResults,
    chat w m messages options
    = (w', inr (normalize_content reply, Some toolResults))
    /\ contained_run m w1 (toolCall :: rest) toolResults w'.
Proof.
  intros Hkey Hreply Hcalls.
  rewrite (chat_reply _ _ _ _ _ _ _ Hkey Hreply), Hcalls.
  eexists _, _. split; [reflexivity|]. apply execute_all_contained.
Qed.

(** ** The bounded loop *)

(** A model that emits at least one tool call in every reply. *)
Definition always_calls_tools : Prop :=
  forall w request,
    exists w1 reply toolCall rest,
      backend w request = (w1, reply_message reply)
      /\ tool_calls reply = Some (toolCall :: rest).

(** [message] is a reply that asks for tools and [results] are the results
    of its calls, one per call and keyed by it. *)
Definition answered (message : ChatMessage) (results : list ToolResult) : Prop :=
  exists toolCall rest,
    tool_calls message = Some (toolCall :: rest)
    /\ Forall2 (fun call result => result_tool_call_id result = call_id call)
         (toolCall :: rest) results.

Lemma tool_loop_0 (w : World) (m : Manager) (options : ChatOptions)
    (conversation : list ChatMessage) :
  tool_loop 0 w m options conversation
  = (w, conversation, 0, loop_bound_exceeded).
Proof. reflexivity. Qed.

(** One turn of the loop against such a model: the reply and the results
    of all its calls are appended, and the loop goes on. *)
Lemma tool_loop_turn (apiKey : string) (m : Manager) (options : ChatOptions) :
  nonempty OPENROUTER_API_KEY = Some apiKey ->
  always_calls_tools ->
  forall remaining w conversation,
    exists w1 message results,
      answered message results
      /\ tool_loop (S remaining) w m options conversation
         = let '(w2, transcript, iterations, how) :=
             tool_loop remaining w1 m options
               (conversation ++ message :: map tool_message results) in
           (w2, transcript, S iterations, how).
Proof.
  intros Hkey Halways remaining w conversation.
  destruct (Halways w (chat_request m conversation options))
    as (w1 & reply & toolCall & rest & Hreply & Hcalls).
  exists (fst (execute_all w1 m (toolCall :: rest))), (normalize_content reply),
         (snd (execute_all w1 m (toolCall :: rest))).
  split.
  - exists toolCall, rest. rewrite normalize_content_tool_calls. split; [exact Hcalls|].
    apply execute_all_ids.
  - cbn [tool_loop]. rewrite (chat_reply _ _ _ _ _ _ _ Hkey Hreply), Hcalls.
    rewrite normalize_content_tool_calls, Hcalls.
    now rewrite <- app_assoc.
Qed.

(** C4 (as amended): against a model that emits at least one tool call in
    every reply, [chatWithToolLoop] with [maxIterations = 3] fails with the
    error that names the bound, after exactly three iterations.  The
    failure is a thrown error that carries its message only: no transcript
    reaches the caller.  At the throw the loop's own transcript holds the
    initial messages followed by the three assistant messages, each one
    followed by the tool-result messages of all its calls -- those of the
    third reply included. *)
Theorem chatWithToolLoop_bound_3 (apiKey : string) (w : World) (m : Manager)
    (messages : list ChatMessage) (options : ChatOptions) :
  nonempty OPENROUTER_API_KEY = Some apiKey ->
  always_calls_tools ->
  opt_maxIterations options = Some 3 ->
  exists w' a1 r1 a2 r2 a3 r3,
    chatWithToolLoop w m messages options
    = (w', inl "Max iterations (3) reached without completing")
    /\ tool_loop 3 w m options (with_system_prompt messages)
       = (w',
          with_system_prompt messages
          ++ a1 :: map tool_message r1
          ++ a2 :: map tool_message r2
          ++ a3 :: map tool_message r3,
          3, loop_bound_exceeded)
    /\ answered a1 r1 /\ answered a2 r2 /\ answered a3 r3.
Proof.
  intros Hkey Halways Hmax.
  unfold chatWithToolLoop, maxIterations_of. rewrite Hmax.
  set (c0 := with_system_prompt messages).
  destruct (tool_loop_turn apiKey m options Hkey Halways 2 w c0)
    as (w1 & a1 & r1 & H1 & E1).
  set (c1 := c0 ++ a1 :: map tool_message r1) in *.
  destruct (tool_loop_turn apiKey m options Hkey Halways 1 w1 c1)
    as (w2 & a2 & r2 & H2 & E2).
  set (c2 := c1 ++ a2 :: map tool_message r2) in *.
  destruct (tool_loop_turn apiKey m options Hkey Halways 0 w2 c2)
    as (w3 & a3 & r3 & H3 & E3).
  rewrite tool_loop_0 in E3. rewrite E3 in E2. rewrite E2 in E1.
  exists w3, a1, r1, a2, r2, a3, r3.
  rewrite E1. subst c2 c1. rewrite <- !app_assoc. simpl.
  repeat split; assumption.
Qed.

(** ** Which catalog goes into the request *)

Lemma last_cleanMessages (messages : list ChatMessage) :
  isProcessingToolResults (cleanMessages messages)
  = match last messages with
    | Some lastMessage => Role_eqb (role lastMessage) role_tool
    | None => false
    end.
Proof.
  unfold isProcessingToolResults, cleanMessages.
  induction messages as [|msg [|msg' rest] IH]; try reflexivity.
  exact IH.
Qed.

(** C3 (as amended): [chat] puts the sanitized catalog into the request,
    together with [tool_choice: 'auto'], exactly when [useTools] is not
    [false] and the catalog is not empty -- whatever the role of the last
    message, a tool result included; otherwise the request has neither
    [tools] nor [tool_choice].  Every schema in the catalog is in the
    sanitizer's normal form.  The earlier variant of the service, which
    has no sanitizer, sends the catalog unsanitized, again with
    [tool_choice: 'auto'], under the same two conditions and the further
    one that the last message is not a tool result; there [useTools]
    cannot bring the catalog back. *)
Theorem chat_request_catalog (m : Manager) (messages : list ChatMessage)
    (options : ChatOptions) :
  req_tools (chat_request m messages options)
  = (if useTools_not_false options
     then match getAllTools m with
          | [] => None
          | _ => Some (convertMCPToolsToOpenRouterFormat m)
          end
     else None)
  /\ req_tool_choice (chat_request m messages options)
     = (if useTools_not_false options
        then match getAllTools m with
             | [] => None
             | _ => Some "auto"
             end
        else None)
  /\ Forall (fun t => sanitized (parameters t))
       (convertMCPToolsToOpenRouterFormat m)
  /\ req_tools (chat_request_unsanitized m messages options)
     = (if useTools_not_false options
           && negb match last messages with
                   | Some lastMessage => Role_eqb (role lastMessage) role_tool
                   | None => false
                   end
        then match getAllTools m with
             | [] => None
             | _ => Some (convertMCPToolsToOpenRouterFormat_unsanitized m)
             end
        else None)
  /\ req_tool_choice (chat_request_unsanitized m messages options)
     = (if useTools_not_false options
           && negb match last messages with
                   | Some lastMessage => Role_eqb (role lastMessage) role_tool
                   | None => false
                   end
        then match getAllTools m with
             | [] => None
             | _ => Some "auto"
             end
        else None).
Proof.
  split; [|split; [|split; [|split]]].
  - unfold chat_request. simpl.
    destruct (useTools_not_false options); [|reflexivity].
    unfold convertMCPToolsToOpenRouterFormat. now destruct (getAllTools m).
  - unfold chat_request. simpl.
    destruct (useTools_not_false options); [|reflexivity].
    unfold convertMCPToolsToOpenRouterFormat. now destruct (getAllTools m).
  - unfold convertMCPToolsToOpenRouterFormat. apply Forall_fmap, Forall_forall.
    intros entry _. simpl. apply sanitizeSchema_sanitized.
  - unfold chat_request_unsanitized. simpl. rewrite last_cleanMessages.
    destruct (useTools_not_false options && _); [|reflexivity].
    unfold convertMCPToolsToOpenRouterFormat_unsanitized.
    now destruct (getAllTools m).
  - unfold chat_request_unsanitized. simpl. rewrite last_cleanMessages.
    destruct (useTools_not_false options && _); [|reflexivity].
    unfold convertMCPToolsToOpenRouterFormat_unsanitized.
    now destruct (getAllTools m).
Qed.

(** ** Further properties of the loop *)

(** [message.tool_calls && message.tool_calls.length > 0]. *)
Definition has_tool_calls (message : ChatMessage) : bool :=
  match tool_calls message with
  | Some (_ :: _) => true
  | _ => false
  end.

Lemma has_tool_calls_normalize (reply : ChatMessage) :
  has_tool_calls (normalize_content reply) = has_tool_calls reply.
Proof. unfold has_tool_calls. now rewrite normalize_content_tool_calls. Qed.

(** A reply without tool calls ends the loop in its first iteration: the
    caller gets the initial messages (after the system prompt, when it had
    to be added) followed by that one reply, which is also the final
    message, and the backend is asked once. *)
Theorem chatWithToolLoop_tool_free (apiKey : string) (w w1 : World)
    (m : Manager) (messages : list ChatMessage) (options : ChatOptions)
    (reply : ChatMessage) :
  nonempty OPENROUTER_API_KEY = Some apiKey ->
  0 < maxIterations_of options ->
  backend w (chat_request m (with_system_prompt messages) options)
  = (w1, reply_message reply) ->
  has_tool_calls reply = false ->
  chatWithToolLoop w m messages options
  = (w1, inr (with_system_prompt messages ++ [normalize_content reply],
              normalize_content reply))
  /\ snd (fst (tool_loop (maxIterations_of options) w m options
                 (with_system_prompt messages))) = 1.
Proof.
  intros Hkey Hmax Hreply Hfree. unfold chatWithToolLoop.
  destruct (maxIterations_of options) as [|n]; [inversion Hmax|].
  cbn [tool_loop]. rewrite (chat_reply _ _ _ _ _ _ _ Hkey Hreply).
  unfold has_tool_calls in Hfree.
  destruct (tool_calls reply) as [[|toolCall rest]|] eqn:Hcalls;
    try discriminate; rewrite normalize_content_tool_calls, Hcalls;
    split; reflexivity.
Qed.

Lemma answered_nonempty (message : ChatMessage) (results : list ToolResult) :
  answered message results -> 1 <= length results.
Proof.
  intros (toolCall & rest & _ & H). inversion H; subst. simpl. lia.
Qed.

Lemma tool_loop_exhausts (apiKey : string) (m : Manager) (options : ChatOptions) :
  nonempty OPENROUTER_API_KEY = Some apiKey ->
  always_calls_tools ->
  forall n w conversation,
    exists w' rounds,
      tool_loop n w m options conversation
      = (w', conversation ++ rounds, n, loop_bound_exceeded)
      /\ 2 * n <= length rounds.
Proof.
  intros Hkey Halways. induction n as [|n IH]; intros w conversation.
  - exists w, []. rewrite tool_loop_0, app_nil_r. split; [reflexivity | simpl; lia].
  - destruct (tool_loop_turn apiKey m options Hkey Halways n w conversation)
      as (w1 & a & r & Ha & E).
    destruct (IH w1 (conversation ++ a :: map tool_message r))
      as (w' & rounds & E' & Hlen).
    rewrite E' in E. exists w', (a :: map tool_message r ++ rounds).
    split.
    + rewrite E. now rewrite <- app_assoc.
    + apply answered_nonempty in Ha. simpl.
      rewrite length_app, length_map. lia.
Qed.

(** Against a model that asks for tools in every reply the loop runs for
    exactly [maxIterations] iterations, whatever the bound (the default of
    10 and 0 included), and then fails with the error that names it; by
    then the transcript has grown by at least two messages per
    iteration. *)
Theorem chatWithToolLoop_bound (apiKey : string) (w : World) (m : Manager)
    (messages : list ChatMessage) (options : ChatOptions) :
  nonempty OPENROUTER_API_KEY = Some apiKey ->
  always_calls_tools ->
  exists w' rounds,
    chatWithToolLoop w m messages options
    = (w', inl (bound_error (maxIterations_of options)))
    /\ tool_loop (maxIterations_of options) w m options
         (with_system_prompt messages)
       = (w', with_system_prompt messages ++ rounds,
          maxIterations_of options, loop_bound_exceeded)
    /\ 2 * maxIterations_of options <= length rounds.
Proof.
  intros Hkey Halways.
  destruct (tool_loop_exhausts apiKey m options Hkey Halways
              (maxIterations_of options) w (with_system_prompt messages))
    as (w' & rounds & E & Hlen).
  exists w', rounds. unfold chatWithToolLoop. rewrite E. auto.
Qed.

Lemma tool_loop_done (m : Manager) (options : ChatOptions) :
  forall n w conversation w' transcript iterations returned finalMessage,
    tool_loop n w m options conversation
    = (w', transcript, iterations, loop_done returned finalMessage) ->
    returned = transcript
    /\ (exists added, returned = conversation ++ added ++ [finalMessage])
    /\ has_tool_calls finalMessage = false
    /\ 1 <= iterations <= n.
Proof.
  induction n as [|n IH]; intros w conversation w' transcript iterations
    returned finalMessage H; [discriminate|].
  cbn [tool_loop] in H.
  destruct (chat w m conversation options) as [w1 [err|[message toolResults]]];
    [discriminate|].
  destruct (tool_calls message) as [[|toolCall rest]|] eqn:Hcalls.
  - injection H as H1 H2 H3 H4 H5. subst. repeat split; try lia.
    + now exists [].
    + unfold has_tool_calls. now rewrite Hcalls.
  - destruct (tool_loop n w1 m options _)
      as [[[w2 transcript2] iterations2] how] eqn:E.
    injection H as H1 H2 H3 H4. subst.
    destruct (IH _ _ _ _ _ _ _ E) as (Hret & (added & Hadd) & Hfree & Hit).
    repeat split; try assumption; try lia.
    exists (message
            :: map tool_message
                 (match toolResults with Some rs => rs | None => [] end)
            ++ added).
    rewrite Hadd. simpl. rewrite <- !app_assoc. reflexivity.
  - injection H as H1 H2 H3 H4 H5. subst. repeat split; try lia.
    + now exists [].
    + unfold has_tool_calls. now rewrite Hcalls.
Qed.

(** Whenever [chatWithToolLoop] succeeds, the transcript it returns starts
    with the caller's messages (after the system prompt, when it had to be
    added), in order and unchanged, ends with the final message, and the
    final message asks for no tool. *)
Theorem chatWithToolLoop_success_shape (w w' : World) (m : Manager)
    (messages transcript : list ChatMessage) (options : ChatOptions)
    (finalMessage : ChatMessage) :
  chatWithToolLoop w m messages options = (w', inr (transcript, finalMessage)) ->
  (exists added,
     transcript = with_system_prompt messages ++ added ++ [finalMessage])
  /\ has_tool_calls finalMessage = false
  /\ (exists system, system ∈ transcript /\ role system = role_system).
Proof.
  unfold chatWithToolLoop. intros H.
  destruct (tool_loop (maxIterations_of options) w m options
              (with_system_prompt messages))
    as [[[w2 transcript2] iterations] [returned final|err|]] eqn:E;
    try discriminate.
  injection H as H1 H2 H3. subst.
  destruct (tool_loop_done _ _ _ _ _ _ _ _ _ _ E) as (_ & (added & Hadd) & Hfree & _).
  split; [now exists added|]. split; [exact Hfree|].
  rewrite Hadd. unfold with_system_prompt.
  destruct (existsb (fun msg => Role_eqb (role msg) role_system) messages) eqn:Hsys.
  - apply existsb_exists in Hsys as (msg & Hin & Hrole).
    exists msg. split.
    + apply elem_of_app. left. now apply list_elem_of_In.
    + now destruct (role msg).
  - exists systemPrompt. split; [|reflexivity].
    apply elem_of_app. left. apply elem_of_cons. now left.
Qed.

(** The messages a run of the loop appends before the final one: rounds
    of one assistant message that asks for tools, followed by one tool
    message per call, in the order of the calls and keyed by them. *)
Inductive rounds : list ChatMessage -> Prop :=
| rounds_nil : rounds []
| rounds_cons (assistant : ChatMessage) (calls : list ToolCall)
    (answers rest : list ChatMessage) :
    tool_calls assistant = Some calls ->
    calls <> [] ->
    Forall2 (fun call answer =>
               role answer = role_tool
               /\ tool_call_id answer = Some (call_id call))
      calls answers ->
    rounds rest ->
    rounds (assistant :: answers ++ rest).

Lemma chat_answers (w w1 : World) (m : Manager) (conversation : list ChatMessage)
    (options : ChatOptions) (message : ChatMessage)
    (toolResults : option (list ToolResult)) (toolCall : ToolCall)
    (rest : list ToolCall) :
  chat w m conversation options = (w1, inr (message, toolResults)) ->
  tool_calls message = Some (toolCall :: rest) ->
  exists results,
    toolResults = Some results
    /\ Forall2 (fun call result => result_tool_call_id result = call_id call)
         (toolCall :: rest) results.
Proof.
  unfold chat. intros H Hcalls.
  destruct (nonempty OPENROUTER_API_KEY); [|discriminate].
  destruct (backend w (chat_request m conversation options)) as [w' []];
    try discriminate.
  destruct (tool_calls (normalize_content message0)) as [[|tc r]|] eqn:E.
  - injection H as _ <- _. congruence.
  - rewrite (execute_all_fst_snd w' m (tc :: r)) in H.
    injection H as _ <- <-. rewrite E in Hcalls. injection Hcalls as <- <-.
    eexists. split; [reflexivity|].
    exact (execute_all_ids w' m (tc :: r)).
  - injection H as _ <- _. congruence.
Qed.

Lemma tool_messages_answer (calls : list ToolCall) (results : list ToolResult) :
  Forall2 (fun call result => result_tool_call_id result = call_id call)
    calls results ->
  Forall2 (fun call answer =>
             role answer = role_tool
             /\ tool_call_id answer = Some (call_id call))
    calls (map tool_message results).
Proof.
  induction 1 as [|call result calls results Hid _ IH]; simpl; constructor;
    [|exact IH].
  simpl. now rewrite Hid.
Qed.

Lemma tool_loop_rounds (m : Manager) (options : ChatOptions) :
  forall n w conversation w' transcript iterations how,
    tool_loop n w m options conversation = (w', transcript, iterations, how) ->
    exists added,
      rounds added
      /\ transcript
         = conversation ++ added
           ++ match how with
              | loop_done _ finalMessage => [finalMessage]
              | _ => []
              end.
Proof.
  induction n as [|n IH]; intros w conversation w' transcript iterations how H.
  - rewrite tool_loop_0 in H. injection H as _ <- _ <-.
    exists []. split; [constructor | now rewrite !app_nil_r].
  - cbn [tool_loop] in H.
    destruct (chat w m conversation options)
      as [w1 [err|[message toolResults]]] eqn:Hchat.
    { injection H as _ <- _ <-.
      exists []. split; [constructor | now rewrite !app_nil_r]. }
    destruct (tool_calls message) as [[|toolCall rest]|] eqn:Hcalls.
    + injection H as _ <- _ <-. exists []. split; [constructor | reflexivity].
    + destruct (chat_answers _ _ _ _ _ _ _ _ _ Hchat Hcalls)
        as (results & -> & Hids).
      destruct (tool_loop n w1 m options _)
        as [[[w2 transcript2] iterations2] how2] eqn:E.
      injection H as _ <- _ <-.
      destruct (IH _ _ _ _ _ _ E) as (added & Hadded & ->).
      exists (message :: map tool_message results ++ added). split.
      * econstructor; [exact Hcalls | discriminate | | exact Hadded].
        now apply tool_messages_answer.
      * rewrite <- !app_assoc. simpl. rewrite <- !app_assoc. reflexivity.
    + injection H as _ <- _ <-. exists []. split; [constructor | reflexivity].
Qed.

(** Every tool call in a returned transcript has been answered.  Between
    the caller's messages and the final message the transcript consists
    of rounds: an assistant message that asks for tools, directly followed
    by exactly one tool message per call, in the order of the calls, each
    carrying the identifier of its call -- which is what the next request
    to the backend has to look like. *)
Theorem chatWithToolLoop_answers_every_call (w w' : World) (m : Manager)
    (messages transcript : list ChatMessage) (options : ChatOptions)
    (finalMessage : ChatMessage) :
  chatWithToolLoop w m messages options = (w', inr (transcript, finalMessage)) ->
  exists added,
    rounds added
    /\ transcript = with_system_prompt messages ++ added ++ [finalMessage].
Proof.
  unfold chatWithToolLoop. intros H.
  destruct (tool_loop (maxIterations_of options) w m options
              (with_system_prompt messages))
    as [[[w2 transcript2] iterations] [returned final|err|]] eqn:E;
    try discriminate.
  injection H as _ <- <-.
  destruct (tool_loop_done _ _ _ _ _ _ _ _ _ _ E) as (-> & _).
  destruct (tool_loop_rounds _ _ _ _ _ _ _ _ _ E) as (added & Hadded & Heq).
  now exists added.
Qed.

(** ** From a catalog name to the provider *)

(** A call under a composite name whose identifier holds no underscore
    and is in the registry, with arguments that parse, reaches the session
    of exactly that connection under the bare tool name; the result is
    keyed by the call and is the provider's answer, or the wrapped error
    when the provider throws. *)
Lemma executeTool_dispatch (w : World) (m : Manager) (owner : MCPConnection)
    (connectionId toolName callId arguments : string) (args : json) :
  contains_underscore connectionId = false ->
  Map_get (connections m) connectionId = Some owner ->
  JSON_parse arguments = inr args ->
  executeTool w m {| call_id := callId;
                     call_name := compose_name connectionId toolName;
                     call_arguments := arguments |}
  = let '(w', answer) :=
      session_callTool w (conn_client owner) toolName args in
    (w', {| result_tool_call_id := callId;
            result_name := compose_name connectionId toolName;
            output :=
              match answer with
              | inr result => JSON_stringify_pretty result
              | inl thrown =>
                  JSON_stringify
                    (JObj [("error",
                            JStr ("Failed to call tool " +:+ toolName +:+ ": "
                                  +:+ match thrown with
                                      | Some message => message
                                      | None => "Unknown error"
                                      end))])
              end |}).
Proof.
  intros Hid Hget Hparse. unfold executeTool, error_payload.
  cbn [call_name call_id call_arguments].
  rewrite (roundtrip_without_underscore _ _ Hid), Hparse.
  unfold callTool. rewrite Hget.
  now destruct (session_callTool w (conn_client owner) toolName args)
    as [w' [thrown|result]].
Qed.

End Orchestrator.

(* ================================================================== *)
(** * A concrete run *)
(* ================================================================== *)

(** A model that always asks for the same tool, a provider whose calls
    time out, and a stand-in for [JSON.stringify]; [JSON.parse] is played
    by [demo_parse], as in the sample histories. *)
Definition demo_call : ToolCall :=
  {| call_id := "call-1"; call_name := "id-1__search"; call_arguments := "{}" |}.

Definition demo_reply : ChatMessage :=
  {| role := role_assistant; content := content_undefined;
     tool_calls := Some [demo_call]; tool_call_id := None;
     msg_name := None; extra := [("refusal", JNull)] |}.

Definition demo_backend (w : unit) (request : ChatCompletionRequest)
    : unit * BackendReply :=
  (w, reply_message demo_reply).

Definition demo_callTool (w : unit) (client : Client) (toolName : string)
    (args : json) : unit * (option string + json) :=
  (w, inl (Some "request timed out")).

Definition demo_stringify (v : json) : string :=
  match v with
  | JObj [(k, JStr message)] => k +:+ "=" +:+ message
  | _ => "value"
  end.

Definition demo_key : option string := Some "sk-demo".

Definition user_message (text : string) : ChatMessage :=
  {| role := role_user; content := content_text text; tool_calls := None;
     tool_call_id := None; msg_name := None; extra := [] |}.

Definition default_options : ChatOptions :=
  {| opt_model := None; opt_temperature := None; opt_maxTokens := None;
     opt_useTools := None; opt_maxIterations := None |}.

Definition three_iterations : ChatOptions :=
  {| opt_model := None; opt_temperature := None; opt_maxTokens := None;
     opt_useTools := None; opt_maxIterations := Some 3 |}.

Example demo_chat_turn :
  chat unit demo_backend demo_callTool demo_parse demo_stringify demo_stringify
    demo_key tt sample_manager [user_message "find it"] default_options
  = (tt,
     inr ({| role := role_assistant; content := content_null;
             tool_calls := Some [demo_call]; tool_call_id := None;
             msg_name := None; extra := [("refusal", JNull)] |},
          Some [ {| result_tool_call_id := "call-1";
                    result_name := "id-1__search";
                    output := "error=Failed to call tool search: request timed out" |} ])).
Proof. vm_compute. reflexivity. Qed.

Lemma chat_content_never_undefined_witness :
  exists w' message toolResults,
    chat unit demo_backend demo_callTool demo_parse demo_stringify demo_stringify
      demo_key tt sample_manager [user_message "find it"] default_options
    = (w', inr (message, toolResults))
    /\ content message <> content_undefined
    /\ content message = content_null.
Proof.
  destruct (chat_content_never_undefined unit demo_backend demo_callTool
              demo_parse demo_stringify demo_stringify demo_key tt tt
              sample_manager [user_message "find it"] default_options
              "sk-demo" demo_reply eq_refl eq_refl)
    as (w' & message & toolResults & Hchat & Hdef & Hcontent & _).
  exists w', message, toolResults. repeat split; assumption.
Defined.

Lemma chat_contains_tool_failures_witness :
  exists w' toolResults,
    chat unit demo_backend demo_callTool demo_parse demo_stringify demo_stringify
      demo_key tt sample_manager [user_message "find it"] default_options
    = (w', inr (normalize_content demo_reply, Some toolResults))
    /\ contained_run unit demo_callTool demo_parse demo_stringify
         demo_stringify sample_manager tt [demo_call] toolResults w'.
Proof.
  apply (chat_contains_tool_failures unit demo_backend demo_callTool
           demo_parse demo_stringify demo_stringify demo_key tt tt
           sample_manager [user_message "find it"] default_options
           "sk-demo" demo_reply demo_call []); reflexivity.
Defined.

Lemma demo_always_calls_tools : always_calls_tools unit demo_backend.
Proof.
  intros w request. exists w, demo_reply, demo_call, []. split; reflexivity.
Defined.

Lemma chatWithToolLoop_bound_3_witness :
  exists w' a1 r1 a2 r2 a3 r3,
    chatWithToolLoop unit demo_backend demo_callTool demo_parse demo_stringify
      demo_stringify demo_key tt sample_manager [user_message "find it"]
      three_iterations
    = (w', inl "Max iterations (3) reached without completing")
    /\ tool_loop unit demo_backend demo_callTool demo_parse demo_stringify
         demo_stringify demo_key 3 tt sample_manager three_iterations
         (with_system_prompt [user_message "find it"])
       = (w',
          with_system_prompt [user_message "find it"]
          ++ a1 :: map tool_message r1
          ++ a2 :: map tool_message r2
          ++ a3 :: map tool_message r3,
          3, loop_bound_exceeded)
    /\ answered a1 r1 /\ answered a2 r2 /\ answered a3 r3.
Proof.
  apply (chatWithToolLoop_bound_3 unit demo_backend demo_callTool demo_parse
           demo_stringify demo_stringify demo_key "sk-demo" tt sample_manager
           [user_message "find it"] three_iterations eq_refl
           demo_always_calls_tools eq_refl).
Defined.

(** C4 (as stated) fails: the caller receives the error and nothing else,
    and the transcript the loop held when it threw has a tool-result
    message after each of the three assistant messages, the third
    included. *)
Lemma chatWithToolLoop_bound_3_counterexample :
  chatWithToolLoop unit demo_backend demo_callTool demo_parse demo_stringify
    demo_stringify demo_key tt sample_manager [user_message "find it"]
    three_iterations
  = (tt, inl "Max iterations (3) reached without completing")
  /\ (let '(_, transcript, iterations, how) :=
        tool_loop unit demo_backend demo_callTool demo_parse demo_stringify
          demo_stringify demo_key 3 tt sample_manager three_iterations
          (with_system_prompt [user_message "find it"]) in
      iterations = 3
      /\ how = loop_bound_exceeded
      /\ map role transcript
         = [ role_system; role_user;
             role_assistant; role_tool;
             role_assistant; role_tool;
             role_assistant; role_tool ]).
Proof. vm_compute. repeat split. Qed.

(** C3 (as stated) fails: the last message is a tool result and
    [useTools] is not set, yet the request carries the catalog. *)
Lemma chat_request_catalog_counterexample :
  let messages :=
    [ user_message "find it"; normalize_content demo_reply;
      tool_message {| result_tool_call_id := "call-1";
                      result_name := "id-1__search"; output := "found" |} ] in
  (role <$> last messages) = Some role_tool
  /\ opt_useTools default_options = None
  /\ req_tools (chat_request sample_manager messages default_options)
     = Some [ {| function_name := "id-1__search";
                 function_description := "Search the index";
                 parameters := [("type", JStr "object"); ("properties", JObj [])] |} ]
  /\ req_tool_choice (chat_request sample_manager messages default_options)
     = Some "auto".
Proof. vm_compute. repeat split. Qed.

(* ================================================================== *)
(** * Further properties: namespaced names *)
(* ================================================================== *)

(** A string without separator is split into itself alone. *)
Lemma split_without_sep (s cur : string) :
  contains_sep s = false -> split_sep_from cur s = [cur +:+ s].
Proof.
  revert cur. induction s as [|c|c c' s IHs IHs'] using string_ind2; intros cur H.
  - now rewrite append_nil_r.
  - reflexivity.
  - rewrite split_sep_from_cons2. cbn [contains_sep] in H.
    apply orb_false_elim in H as [Hcc H]. rewrite Hcc.
    rewrite IHs' by exact H. now rewrite append_snoc.
Qed.

(** A string with a separator is split into at least two pieces. *)
Lemma split_with_sep (s cur : string) :
  contains_sep s = true ->
  exists first second rest, split_sep_from cur s = first :: second :: rest.
Proof.
  revert cur. induction s as [|c|c c' s IHs IHs'] using string_ind2; intros cur H.
  - discriminate.
  - discriminate.
  - rewrite split_sep_from_cons2. cbn [contains_sep] in H.
    destruct (is_underscore c && is_underscore c') eqn:E.
    + pose proof (split_sep_from_nonempty EmptyString s) as Hne.
      destruct (split_sep_from EmptyString s) as [|p ps]; [congruence|].
      now exists cur, p, ps.
    + apply IHs'. exact H.
Qed.

(** Decomposition followed by composition.  Any function name that holds
    the separator is rebuilt exactly from the two parts [executeTool]
    takes out of it -- underscores next to the separator do not matter in
    this direction; a name without separator is taken whole as the
    connection identifier, with the empty tool name. *)
Theorem decompose_then_compose (functionName : string) :
  if contains_sep functionName
  then compose_name (fst (decompose_name functionName))
         (snd (decompose_name functionName)) = functionName
  else decompose_name functionName = (functionName, EmptyString).
Proof.
  destruct (contains_sep functionName) eqn:E.
  - pose proof (join_split functionName) as Hjoin.
    unfold decompose_name, split_sep in *.
    destruct (split_with_sep functionName EmptyString E)
      as (first & second & rest & Hsplit).
    rewrite Hsplit in *. exact Hjoin.
  - unfold decompose_name, split_sep.
    rewrite split_without_sep by exact E. reflexivity.
Qed.

(* ================================================================== *)
(** * Further properties: the sanitizer's output *)
(* ================================================================== *)

Lemma keep_key_allowed (key : string) :
  keep_key key = true -> allowed key = true /\ starts_with_dollar key = false.
Proof.
  unfold keep_key. intros H. apply andb_prop in H as [H1 H2].
  split; [exact H2 | now apply negb_true_iff].
Qed.

Lemma sanitizeSchema_type_truthy (schema : obj) :
  truthy_prop (sanitizeSchema schema) "type" = true.
Proof.
  unfold sanitizeSchema.
  set (s1 := sanitizeSchemaDefinition (JObj schema)).
  assert (H2 : truthy_prop (if negb (truthy_prop s1 "type")
                            then obj_assign s1 "type" (JStr "object")
                            else s1) "type" = true).
  { destruct (truthy_prop s1 "type") eqn:E; simpl; [exact E|].
    unfold truthy_prop. now rewrite obj_get_assign_eq. }
  set (s2 := if negb (truthy_prop s1 "type") then _ else s1) in *.
  match goal with |- truthy_prop (if ?c then _ else _) _ = _ => destruct c end;
    [|exact H2].
  unfold truthy_prop in *. now rewrite obj_get_assign_ne.
Qed.

Lemma sanitizeSchema_object_has_properties (schema : obj) :
  match obj_get (sanitizeSchema schema) "type" with
  | Some (JStr t) => String.eqb t "object"
  | _ => false
  end = true ->
  truthy_prop (sanitizeSchema schema) "properties" = true.
Proof.
  unfold sanitizeSchema.
  set (s1 := sanitizeSchemaDefinition (JObj schema)).
  set (s2 := if negb (truthy_prop s1 "type") then _ else s1).
  match goal with
  | |- context [if ?c then obj_assign s2 _ _ else s2] => destruct c eqn:E
  end.
  - intros _. unfold truthy_prop. now rewrite obj_get_assign_eq.
  - intros Ht. rewrite Ht in E. simpl in E. now apply negb_false_iff in E.
Qed.

(** What the backend receives as [parameters]: every key of the root
    schema is an allowed keyword that does not start with [$], no key
    occurs twice, [type] is present and truthy, an [items] entry that is an
    object has itself been sanitized, and a root of type ['object'] has a
    truthy [properties]. *)
Theorem sanitizeSchema_shape (schema : obj) :
  let out := sanitizeSchema schema in
  Forall (fun key => allowed key = true /\ starts_with_dollar key = false)
    (keys out)
  /\ NoDup (keys out)
  /\ truthy_prop out "type" = true
  /\ match obj_get out "type" with
     | Some (JStr t) =>
         if String.eqb t "object" then truthy_prop out "properties" = true
         else True
     | _ => True
     end
  /\ match obj_get out "items" with
     | Some (JObj nested) => sanitized nested
     | _ => True
     end.
Proof.
  intros out. pose proof (sanitizeSchema_sanitized schema) as [[Hnd Hp] Hall].
  fold out in Hnd, Hp, Hall.
  split; [|split; [exact Hnd | split; [apply sanitizeSchema_type_truthy|split]]].
  - unfold keys. apply Forall_fmap. eapply Forall_impl; [exact Hall|].
    intros [k v] [Hk _]. now apply keep_key_allowed.
  - pose proof (sanitizeSchema_object_has_properties schema) as H.
    fold out in H. destruct (obj_get out "type") as [[| | |t| |]|]; try exact I.
    destruct (String.eqb t "object"); [now apply H | exact I].
  - destruct (obj_get out "items") as [[| | | | |nested]|] eqn:E; try exact I.
    assert (Hin : ("items", JObj nested) ∈ out).
    { clear -E. induction out as [|[k v] o IH]; [discriminate|].
      simpl in E. destruct (String.eqb_spec k "items") as [->|Hne].
      - injection E as ->. apply elem_of_cons. now left.
      - apply elem_of_cons. right. now apply IH. }
    rewrite Forall_forall in Hall. destruct (Hall _ Hin) as [_ Hfix].
    simpl in Hfix. unfold sanitize_value in Hfix. simpl in Hfix.
    injection Hfix as Hfix. rewrite <- Hfix.
    apply sanitizeSchemaDefinition_sanitized.
Qed.

(** ** De-duplication of [required] *)

Lemma existsb_set_add (seen : list json) (v x : json) :
  existsb (same_value_zero x) seen = true ->
  existsb (same_value_zero x) (set_add seen v) = true.
Proof.
  intros H. unfold set_add.
  destruct (existsb (same_value_zero v) seen); [exact H|].
  rewrite existsb_app, H. reflexivity.
Qed.

Lemma elem_of_fold_set_add (values acc : list json) (x : json) :
  x ∈ fold_left set_add values acc -> x ∈ acc \/ x ∈ values.
Proof.
  revert acc. induction values as [|v l IH]; intros acc; simpl; [now left|].
  intros H. destruct (IH _ H) as [H'|H']; [|right; apply elem_of_cons; now right].
  unfold set_add in H'. destruct (existsb (same_value_zero v) acc); [now left|].
  apply elem_of_app in H' as [?|H']; [now left|].
  apply list_elem_of_singleton in H'. subst. right. apply elem_of_cons. now left.
Qed.

Lemma fold_set_add_keeps (values acc : list json) (x : json) :
  x ∈ acc -> x ∈ fold_left set_add values acc.
Proof.
  revert acc. induction values as [|v l IH]; intros acc H; [exact H|].
  simpl. apply IH. unfold set_add.
  destruct (existsb (same_value_zero v) acc); [exact H|].
  apply elem_of_app. now left.
Qed.

Lemma fold_set_add_covers (values acc : list json) (x : json) :
  x ∈ values ->
  x ∈ fold_left set_add values acc
  \/ existsb (same_value_zero x) (fold_left set_add values acc) = true.
Proof.
  revert acc. induction values as [|v l IH]; intros acc H.
  - now apply elem_of_nil in H.
  - simpl. apply elem_of_cons in H as [->|H]; [|now apply IH].
    unfold set_add at 2 4.
    destruct (existsb (same_value_zero v) acc) eqn:E.
    + right. clear IH. revert acc E. induction l as [|y l IHl]; intros acc E;
        [exact E|]. simpl. apply IHl. now apply existsb_set_add.
    + left. apply fold_set_add_keeps. apply elem_of_app. right.
      now apply list_elem_of_singleton.
Qed.

(** [[...new Set(required)]] keeps the entries of the list and nothing
    else: every result comes from the input, every input is in the result
    or equal (in the sense of [Set]) to something in it, and no result is
    equal to an earlier one. *)
Theorem dedupe_spec (values : list json) :
  distinct (dedupe values)
  /\ Forall (fun x => x ∈ values) (dedupe values)
  /\ Forall (fun x => x ∈ dedupe values
                      \/ existsb (same_value_zero x) (dedupe values) = true)
       values.
Proof.
  split; [|split].
  - apply distinct_fold. constructor.
  - apply Forall_forall. intros x Hx.
    destruct (elem_of_fold_set_add _ _ _ Hx) as [Hn|?]; [|assumption].
    now apply elem_of_nil in Hn.
  - apply Forall_forall. intros x Hx. now apply fold_set_add_covers.
Qed.

Example dedupe_required :
  dedupe [JStr "q"; JStr "limit"; JStr "q"; JStr "limit"; JStr "page"]
  = [JStr "q"; JStr "limit"; JStr "page"].
Proof. reflexivity. Qed.

(** ** Field names under [properties] *)

Lemma keys_member_entries (rec : json -> obj) (fields : obj) :
  keys (map (member_entry rec) fields) = keys fields.
Proof. unfold keys. rewrite map_map. reflexivity. Qed.

(** [fieldName !== '__proto__']: the one name an assignment onto a
    literal cannot create. *)
Definition assignable (field : string * json) : bool :=
  negb (String.eqb (fst field) "__proto__").

(** Replaying entries with distinct keys onto an object leaves out the
    entry named [__proto__] and appends the others in order. *)
Lemma fold_distinct_keys (entries acc : obj) :
  NoDup (keys (acc ++ entries)) ->
  fold_left assign_entry entries acc = acc ++ List.filter assignable entries.
Proof.
  revert acc. induction entries as [|[k v] l IH]; intros acc Hnd.
  - simpl. now rewrite app_nil_r.
  - simpl. unfold assign_entry at 2. simpl. unfold obj_assign, assignable at 1.
    simpl.
    assert (Hl : NoDup (keys (acc ++ l))).
    { rewrite keys_app in *. simpl in Hnd.
      apply NoDup_app in Hnd as (Hacc & Hdisj & Hkl).
      apply NoDup_cons in Hkl as [_ Hl].
      apply NoDup_app. repeat split; try assumption.
      intros x Hx Hx'. apply (Hdisj x Hx). apply elem_of_cons. now right. }
    destruct (String.eqb k "__proto__"); simpl; [now apply IH|].
    assert (Hfresh : obj_has acc k = false).
    { apply obj_has_false. intros Hin.
      rewrite keys_app in Hnd. simpl in Hnd.
      apply NoDup_app in Hnd as (_ & Hdisj & _).
      apply (Hdisj _ Hin). apply elem_of_cons. now left. }
    rewrite Hfresh, IH.
    + now rewrite <- app_assoc.
    + rewrite <- app_assoc. simpl. rewrite keys_app in *. simpl in *.
      exact Hnd.
Qed.

Lemma assign_all_distinct_keys (o : obj) :
  NoDup (keys o) -> assign_all o = List.filter assignable o.
Proof. intros H. rewrite assign_all_unfold. now apply fold_distinct_keys. Qed.

Lemma filter_member_entries (rec : json -> obj) (fields : obj) :
  List.filter assignable (map (member_entry rec) fields)
  = map (member_entry rec) (List.filter assignable fields).
Proof.
  induction fields as [|[k v] l IH]; [reflexivity|].
  cbn [map List.filter].
  change (assignable (member_entry rec (k, v))) with (assignable (k, v)).
  destruct (assignable (k, v)); cbn [map]; [f_equal; exact IH | exact IH].
Qed.

Lemma sanitize_properties_fields (fields : obj) :
  NoDup (keys fields) ->
  sanitize_properties sanitizeSchemaDefinition (JObj fields)
  = map (member_entry sanitizeSchemaDefinition) (List.filter assignable fields).
Proof.
  intros H. rewrite sanitize_properties_fold. simpl.
  rewrite assign_all_distinct_keys by now rewrite keys_member_entries.
  apply filter_member_entries.
Qed.

(** The keys the root loop keeps are schema keywords, of which
    [__proto__] is none. *)
Lemma well_keyed_kept (schema : obj) :
  NoDup (keys schema) ->
  well_keyed (map (value_entry sanitizeSchemaDefinition)
                (List.filter (fun kv => keep_key (fst kv)) schema)).
Proof.
  intros Hnd. unfold well_keyed, keys in *. split.
  - induction schema as [|[k v] l IH]; simpl; [constructor|].
    apply NoDup_cons in Hnd as [Hk Hl].
    destruct (keep_key k); simpl; [|now apply IH].
    apply NoDup_cons. split; [|now apply IH].
    rewrite map_map. simpl. intros Hin.
    apply list_elem_of_fmap in Hin as (e & -> & He).
    apply list_elem_of_In, filter_In in He as [He _].
    apply Hk. apply list_elem_of_fmap. exists e. split; [reflexivity|].
    now apply list_elem_of_In.
  - rewrite map_map. simpl. intros Hin.
    apply list_elem_of_fmap in Hin as (e & Heq & He).
    apply list_elem_of_In, filter_In in He as [_ He].
    rewrite <- Heq in He. discriminate.
Qed.

Lemma obj_get_kept (schema : obj) (key : string) (value : json) :
  keep_key key = true ->
  obj_get schema key = Some value ->
  obj_get (map (value_entry sanitizeSchemaDefinition)
             (List.filter (fun kv => keep_key (fst kv)) schema)) key
  = Some (sanitize_value' key value).
Proof.
  intros Hkeep. induction schema as [|[k v] l IH]; simpl; [discriminate|].
  destruct (String.eqb_spec k key) as [->|Hne].
  - intros [= ->]. rewrite Hkeep. simpl. now rewrite String.eqb_refl.
  - intros H. destruct (keep_key k); simpl; [|now apply IH].
    destruct (String.eqb_spec k key); [contradiction | now apply IH].
Qed.

(** Field names are data: when the root schema declares [properties] as
    an object -- both with distinct keys, as every parsed object has --
    the sanitized schema declares the same fields under the same names
    and in the same order, however the names are spelled (a leading [$]
    or a name outside the keyword list included), with the one exception
    of a field named [__proto__], which is dropped; only the schema of
    each field is sanitized. *)
Theorem properties_field_names_kept (schema fields : obj) :
  NoDup (keys schema) ->
  NoDup (keys fields) ->
  obj_get schema "properties" = Some (JObj fields) ->
  obj_get (sanitizeSchema schema) "properties"
  = Some (JObj (map (fun field => (fst field, sanitize_member' (snd field)))
                  (List.filter
                     (fun field => negb (String.eqb (fst field) "__proto__"))
                     fields))).
Proof.
  intros Hschema Hfields Hget.
  assert (H1 : obj_get (sanitizeSchemaDefinition (JObj schema)) "properties"
               = Some (JObj (map (member_entry sanitizeSchemaDefinition)
                               (List.filter assignable fields)))).
  { rewrite sanitizeSchemaDefinition_obj.
    rewrite assign_all_well_keyed by now apply well_keyed_kept.
    rewrite (obj_get_kept schema "properties" (JObj fields) eq_refl Hget).
    unfold sanitize_value. simpl. now rewrite sanitize_properties_fields. }
  unfold sanitizeSchema.
  set (s1 := sanitizeSchemaDefinition (JObj schema)) in *.
  assert (H2 : obj_get (if negb (truthy_prop s1 "type")
                        then obj_assign s1 "type" (JStr "object") else s1)
                 "properties"
               = Some (JObj (map (member_entry sanitizeSchemaDefinition)
                               (List.filter assignable fields)))).
  { destruct (negb (truthy_prop s1 "type")); [|exact H1].
    now rewrite obj_get_assign_ne. }
  set (s2 := if negb (truthy_prop s1 "type") then _ else s1) in *.
  assert (Htruthy : truthy_prop s2 "properties" = true).
  { unfold truthy_prop. now rewrite H2. }
  rewrite Htruthy, andb_false_r. exact H2.
Qed.

Lemma properties_field_names_kept_witness :
  obj_get
    (sanitizeSchema
       [ ("$id", JStr "urn:x");
         ("__proto__", JNull);
         ("properties",
           JObj [ ("$ref", JObj [("type", JStr "string"); ("$comment", JNull)]);
                  ("__proto__", JObj [("type", JStr "string")]);
                  ("x-custom", JBool true) ]) ])
    "properties"
  = Some (JObj [ ("$ref", JObj [("type", JStr "string")]);
                 ("x-custom", JBool true) ]).
Proof.
  apply (properties_field_names_kept
           [ ("$id", JStr "urn:x");
             ("__proto__", JNull);
             ("properties",
               JObj [ ("$ref", JObj [("type", JStr "string"); ("$comment", JNull)]);
                      ("__proto__", JObj [("type", JStr "string")]);
                      ("x-custom", JBool true) ]) ]
           [ ("$ref", JObj [("type", JStr "string"); ("$comment", JNull)]);
             ("__proto__", JObj [("type", JStr "string")]);
             ("x-custom", JBool true) ]).
  - refine (bool_decide_unpack _ _). vm_compute. exact I.
  - refine (bool_decide_unpack _ _). vm_compute. exact I.
  - reflexivity.
Defined.

(* ================================================================== *)
(** * Further properties: cleaning messages *)
(* ================================================================== *)

Lemma nonempty_idem (x : option string) : nonempty (nonempty x) = nonempty x.
Proof. now destruct x as [[|c s]|]. Qed.

Definition clean_call (tc : ToolCall) : ToolCall :=
  {| call_id := call_id tc; call_name := call_name tc;
     call_arguments := match call_arguments tc with
                       | EmptyString => "{}"
                       | args => args
                       end |}.

Lemma clean_call_idem (tc : ToolCall) : clean_call (clean_call tc) = clean_call tc.
Proof. destruct tc as [i n [|c s]]; reflexivity. Qed.

Lemma cleanMessage_idem (msg : ChatMessage) :
  cleanMessage (cleanMessage msg) = cleanMessage msg.
Proof.
  destruct msg as [r c tcs tid nm ex]. unfold cleanMessage. simpl.
  destruct r; simpl; try reflexivity.
  - destruct tcs as [[|tc tcs]|]; simpl; try reflexivity.
    f_equal. f_equal.
    change (clean_call (clean_call tc)
            :: map clean_call (map clean_call tcs)
            = clean_call tc :: map clean_call tcs).
    rewrite clean_call_idem, map_map. f_equal.
    apply map_ext. intros. apply clean_call_idem.
  - now rewrite nonempty_idem.
Qed.

(** Cleaning is idempotent: a history that went through [cleanMessages]
    once -- as every transcript returned to the client and posted back
    does -- is left unchanged by the next pass. *)
Theorem cleanMessages_idempotent (messages : list ChatMessage) :
  cleanMessages (cleanMessages messages) = cleanMessages messages.
Proof.
  unfold cleanMessages. rewrite map_map. apply map_ext.
  intros msg. apply cleanMessage_idem.
Qed.

(** What the backend is sent: as many messages as came in, with the same
    roles and contents in the same order, and nothing beyond the protocol
    fields -- a [tool_call_id] only on tool messages, [tool_calls] only on
    assistant messages and then a non-empty list whose arguments are never
    the empty string, no [name] and no extra field. *)
Theorem cleanMessages_shape (messages : list ChatMessage) :
  map role (cleanMessages messages) = map role messages
  /\ map content (cleanMessages messages) = map content messages
  /\ Forall (fun msg =>
               extra msg = [] /\ msg_name msg = None
               /\ match tool_call_id msg with
                  | Some id => role msg = role_tool /\ id <> EmptyString
                  | None => True
                  end
               /\ match tool_calls msg with
                  | Some calls =>
                      role msg = role_assistant /\ calls <> []
                      /\ Forall (fun tc => call_arguments tc <> EmptyString) calls
                  | None => True
                  end)
       (cleanMessages messages).
Proof.
  unfold cleanMessages. rewrite !map_map. repeat split.
  apply Forall_fmap, Forall_forall. intros [r c tcs tid nm ex] _.
  unfold cleanMessage. simpl. repeat split.
  - destruct r; try exact I. destruct tid as [[|ch s]|]; simpl; try exact I.
    split; [reflexivity | discriminate].
  - destruct r; try exact I. destruct tcs as [[|tc tcs]|]; try exact I.
    split; [reflexivity|]. split; [discriminate|].
    change (Forall (fun tc => call_arguments tc <> EmptyString)
              (map clean_call (tc :: tcs))).
    apply Forall_fmap, Forall_forall. intros [i n [|ch s]] _; discriminate.
Qed.

(* ================================================================== *)
(** * Further properties: from the catalog back to the provider *)
(* ================================================================== *)

Lemma catalog_entry_owner (m : Manager) (entry : CatalogEntry) :
  registry_connected m ->
  entry ∈ getAllTools m ->
  exists owner,
    (connectionId entry, owner) ∈ connections m
    /\ getConnection m (connectionId entry) = Some owner
    /\ tool entry ∈ conn_tools owner.
Proof.
  intros [Hnd H] Hin. unfold getAllTools in Hin.
  apply list_elem_of_In, in_flat_map in Hin as (c & Hc & Hentry).
  apply in_map_iff in Hentry as (t & <- & Ht). simpl.
  apply in_map_iff in Hc as ([k c'] & <- & Hkc). simpl in *.
  apply list_elem_of_In in Hkc.
  rewrite Forall_forall in H. destruct (H _ Hkc) as [Hid _]. simpl in Hid.
  exists c'. rewrite Hid. repeat split.
  - exact Hkc.
  - now apply Map_get_elem_of.
  - now apply list_elem_of_In.
Qed.

Lemma Forall2_map_r {A B : Type} (P : A -> B -> Prop) (f : A -> B) (l : list A) :
  Forall (fun x => P x (f x)) l -> Forall2 P l (map f l).
Proof. induction 1; simpl; constructor; auto. Qed.

(** Every tool offered to the model can be called back.  In a registry
    whose identifiers hold no underscore (as all [uuidv4] identifiers do),
    the catalog sent to the backend has one function per catalog entry, in
    order; its name decomposes, the way [executeTool] does it, into the
    identifier of a connection that is in the registry and the bare name of
    one of that connection's tools; its description is never empty; and
    its parameters are the sanitized input schema. *)
Theorem catalog_names_resolve (JSON_parse : string -> string + json)
    (oauth : oauth_table) (saved : connection_table) (events : list Event) :
  let m := run_events JSON_parse events (startup oauth saved) in
  forallb (fun kc => negb (contains_underscore (fst kc))) (connections m) = true ->
  Forall2 (fun entry fn =>
             decompose_name (function_name fn)
             = (connectionId entry, tool_name (tool entry))
             /\ (exists owner,
                   getConnection m (connectionId entry) = Some owner
                   /\ tool entry ∈ conn_tools owner)
             /\ function_description fn <> EmptyString
             /\ parameters fn = sanitizeSchema (inputSchema (tool entry)))
    (getAllTools m) (convertMCPToolsToOpenRouterFormat m).
Proof.
  intros m Hids. unfold convertMCPToolsToOpenRouterFormat.
  apply Forall2_map_r, Forall_forall. intros entry Hin. simpl.
  assert (Hreg : registry_connected m)
    by apply run_registry_connected, startup_registry_connected.
  destruct (catalog_entry_owner m entry Hreg Hin) as (owner & Hkc & Hget & Ht).
  rewrite forallb_forall in Hids.
  pose proof (Hids _ (proj1 (list_elem_of_In _ _) Hkc)) as Hid.
  simpl in Hid. apply negb_true_iff in Hid.
  repeat split.
  - now apply roundtrip_without_underscore.
  - now exists owner.
  - destruct (tool_description (tool entry)) as [[|c d]|]; simpl; discriminate.
Qed.

Lemma catalog_names_resolve_witness :
  Forall2 (fun entry fn =>
             decompose_name (function_name fn)
             = (connectionId entry, tool_name (tool entry))
             /\ (exists owner,
                   getConnection sample_manager (connectionId entry) = Some owner
                   /\ tool entry ∈ conn_tools owner)
             /\ function_description fn <> EmptyString
             /\ parameters fn = sanitizeSchema (inputSchema (tool entry)))
    (getAllTools sample_manager)
    (convertMCPToolsToOpenRouterFormat sample_manager).
Proof.
  apply (catalog_names_resolve demo_parse ∅ ∅ sample_history). reflexivity.
Defined.

(* ================================================================== *)
(** * Further properties: the model list ([routes/chat.ts]) *)
(* ================================================================== *)

(** An entry of [openRouterService.getModels()]; only [id] is looked at. *)
Record Model : Type := {
  model_id : string;
  model_name : string;
  model_context_length : float;
  model_pricing : string * string
}.

(** [s.includes(needle)]. *)
Fixpoint includes (needle s : string) : bool :=
  String.prefix needle s
  || match s with
     | String _ s' => includes needle s'
     | EmptyString => false
     end.

Definition popular_families : list string :=
  ["claude"; "gpt-4"; "gpt-3.5"; "gemini"; "llama"; "mistral"; "command"].

(** The predicate of [models.filter(...)]. *)
Definition is_popular (m : Model) : bool :=
  existsb (fun family => includes family (model_id m)) popular_families.

(** The body of [GET /models] after the fetch:
    [popularModels.length > 0 ? popularModels : models.slice(0, 20)] with
    [popularModels = models.filter(...).slice(0, 20)]. *)
Definition select_models (models : list Model) : list Model :=
  let popularModels := firstn 20 (List.filter is_popular models) in
  match popularModels with
  | [] => firstn 20 models
  | _ => popularModels
  end.

Lemma sublist_firstn {A : Type} (n : nat) (l : list A) : sublist (firstn n l) l.
Proof.
  revert n. induction l as [|x l IH]; intros [|n]; simpl;
    try constructor; auto using sublist_nil_l.
Qed.

Lemma sublist_List_filter {A : Type} (p : A -> bool) (l : list A) :
  sublist (List.filter p l) l.
Proof.
  induction l as [|x l IH]; simpl; [constructor|].
  destruct (p x); now constructor.
Qed.

(** [GET /models] answers with at most 20 models, all taken from the
    backend's list in the backend's order; it answers with an empty list
    only when the backend's list is empty; and whenever the backend
    offers a model of a popular family, everything it answers with is of
    a popular family. *)
Theorem select_models_spec (models : list Model) :
  length (select_models models) <= 20
  /\ sublist (select_models models) models
  /\ (select_models models = [] <-> models = [])
  /\ (existsb is_popular models = true ->
      forallb is_popular (select_models models) = true).
Proof.
  unfold select_models.
  destruct (firstn 20 (List.filter is_popular models)) as [|p ps] eqn:E.
  - assert (Hnone : List.filter is_popular models = []).
    { destruct (List.filter is_popular models); [reflexivity | discriminate]. }
    repeat split.
    + apply firstn_le_length.
    + apply sublist_firstn.
    + now destruct models.
    + now intros ->.
    + intros Hex. apply existsb_exists in Hex as (x & Hin & Hx).
      assert (Hf : In x (List.filter is_popular models)) by now apply filter_In.
      rewrite Hnone in Hf. destruct Hf.
  - rewrite <- E. repeat split.
    + apply firstn_le_length.
    + etransitivity; [apply sublist_firstn | apply sublist_List_filter].
    + rewrite E. discriminate.
    + intros ->. discriminate.
    + intros _. apply forallb_forall. intros x Hx.
      assert (Hsub : sublist (firstn 20 (List.filter is_popular models))
                       (List.filter is_popular models)) by apply sublist_firstn.
      apply list_elem_of_In in Hx.
      pose proof (elem_of_sublist _ _ _ Hx Hsub) as Hin.
      apply list_elem_of_In, filter_In in Hin. tauto.
Qed.

(* ================================================================== *)
(** * Further runs of the loop *)
(* ================================================================== *)

Definition final_reply : ChatMessage :=
  {| role := role_assistant; content := content_text "Here it is.";
     tool_calls := None; tool_call_id := None; msg_name := None;
     extra := [("refusal", JNull)] |}.

(** A model that answers in plain text at once. *)
Definition final_backend (w : unit) (request : ChatCompletionRequest)
    : unit * BackendReply :=
  (w, reply_message final_reply).

(** A model that asks for a tool first and answers once the request holds a
    tool result. *)
Definition polite_backend (w : unit) (request : ChatCompletionRequest)
    : unit * BackendReply :=
  if existsb (fun msg => Role_eqb (role msg) role_tool) (req_messages request)
  then (w, reply_message final_reply)
  else (w, reply_message demo_reply).

Example polite_run :
  chatWithToolLoop unit polite_backend demo_callTool demo_parse demo_stringify
    demo_stringify demo_key tt sample_manager [user_message "find it"]
    default_options
  = (tt,
     inr ([ systemPrompt; user_message "find it"; normalize_content demo_reply;
            tool_message
              {| result_tool_call_id := "call-1"; result_name := "id-1__search";
                 output := "error=Failed to call tool search: request timed out" |};
            final_reply ],
          final_reply)).
Proof. vm_compute. reflexivity. Qed.

Lemma chatWithToolLoop_tool_free_witness :
  chatWithToolLoop unit final_backend demo_callTool demo_parse demo_stringify
    demo_stringify demo_key tt sample_manager [user_message "find it"]
    default_options
  = (tt, inr (with_system_prompt [user_message "find it"]
              ++ [normalize_content final_reply],
              normalize_content final_reply))
  /\ snd (fst (tool_loop unit final_backend demo_callTool demo_parse
                 demo_stringify demo_stringify demo_key
                 (maxIterations_of default_options) tt sample_manager
                 default_options
                 (with_system_prompt [user_message "find it"]))) = 1.
Proof.
  apply (chatWithToolLoop_tool_free unit final_backend demo_callTool demo_parse
           demo_stringify demo_stringify demo_key "sk-demo" tt tt sample_manager
           [user_message "find it"] default_options final_reply).
  - reflexivity.
  - vm_compute. lia.
  - reflexivity.
  - reflexivity.
Defined.

Lemma chatWithToolLoop_bound_witness :
  exists w' rounds,
    chatWithToolLoop unit demo_backend demo_callTool demo_parse demo_stringify
      demo_stringify demo_key tt sample_manager [user_message "find it"]
      default_options
    = (w', inl (bound_error (maxIterations_of default_options)))
    /\ tool_loop unit demo_backend demo_callTool demo_parse demo_stringify
         demo_stringify demo_key (maxIterations_of default_options) tt
         sample_manager default_options
         (with_system_prompt [user_message "find it"])
       = (w', with_system_prompt [user_message "find it"] ++ rounds,
          maxIterations_of default_options, loop_bound_exceeded)
    /\ 2 * maxIterations_of default_options <= length rounds.
Proof.
  apply (chatWithToolLoop_bound unit demo_backend demo_callTool demo_parse
           demo_stringify demo_stringify demo_key "sk-demo" tt sample_manager
           [user_message "find it"] default_options).
  - reflexivity.
  - exact demo_always_calls_tools.
Defined.

Example bound_error_default :
  bound_error (maxIterations_of default_options)
  = "Max iterations (10) reached without completing".
Proof. vm_compute. reflexivity. Qed.

Lemma chatWithToolLoop_success_shape_witness :
  let transcript :=
    [ systemPrompt; user_message "find it"; normalize_content demo_reply;
      tool_message
        {| result_tool_call_id := "call-1"; result_name := "id-1__search";
           output := "error=Failed to call tool search: request timed out" |};
      final_reply ] in
  (exists added,
     transcript
     = with_system_prompt [user_message "find it"] ++ added ++ [final_reply])
  /\ has_tool_calls final_reply = false
  /\ (exists system, system ∈ transcript /\ role system = role_system).
Proof.
  apply (chatWithToolLoop_success_shape unit polite_backend demo_callTool
           demo_parse demo_stringify demo_stringify demo_key tt tt
           sample_manager [user_message "find it"] _ default_options
           final_reply).
  vm_compute. reflexivity.
Defined.

(** The transcript of [polite_run] is made of one round and the final
    message. *)
Lemma chatWithToolLoop_answers_every_call_witness :
  exists added,
    rounds added
    /\ [ systemPrompt; user_message "find it"; normalize_content demo_reply;
         tool_message
           {| result_tool_call_id := "call-1"; result_name := "id-1__search";
              output := "error=Failed to call tool search: request timed out" |};
         final_reply ]
       = with_system_prompt [user_message "find it"] ++ added ++ [final_reply].
Proof.
  apply (chatWithToolLoop_answers_every_call unit polite_backend demo_callTool
           demo_parse demo_stringify demo_stringify demo_key tt tt
           sample_manager [user_message "find it"] _ default_options
           final_reply).
  vm_compute. reflexivity.
Defined.

(* ================================================================== *)
(** * Further properties: from a catalog name to the provider's session *)
(* ================================================================== *)

(** Every function offered to the model reaches its provider.  In a
    registry whose identifiers hold no underscore, a function of the
    catalog is the composite name of exactly one catalog entry, and a
    call that names it and whose arguments parse is executed on the
    session of the connection registered under that entry's identifier,
    under the entry's own tool name and with the parsed arguments.  The
    result is keyed by the call and holds the provider's answer, or
    [JSON.stringify({ error: 'Failed to call tool ...' })] when the
    provider throws. *)
Theorem catalog_call_reaches_owner (World : Type)
    (session_callTool :
       World -> Client -> string -> json -> World * (option string + json))
    (JSON_parse : string -> string + json)
    (JSON_stringify JSON_stringify_pretty : json -> string)
    (oauth : oauth_table) (saved : connection_table) (events : list Event)
    (w : World) (fn : OpenRouterTool) (callId arguments : string) (args : json) :
  let m := run_events JSON_parse events (startup oauth saved) in
  forallb (fun kc => negb (contains_underscore (fst kc))) (connections m) = true ->
  fn ∈ convertMCPToolsToOpenRouterFormat m ->
  JSON_parse arguments = inr args ->
  exists entry owner,
    entry ∈ getAllTools m
    /\ function_name fn
       = compose_name (connectionId entry) (tool_name (tool entry))
    /\ decompose_name (function_name fn)
       = (connectionId entry, tool_name (tool entry))
    /\ getConnection m (connectionId entry) = Some owner
    /\ conn_id owner = connectionId entry
    /\ tool entry ∈ conn_tools owner
    /\ executeTool World session_callTool JSON_parse JSON_stringify
         JSON_stringify_pretty w m
         {| call_id := callId; call_name := function_name fn;
            call_arguments := arguments |}
       = let '(w', answer) :=
           session_callTool w (conn_client owner) (tool_name (tool entry)) args in
         (w', {| result_tool_call_id := callId;
                 result_name := function_name fn;
                 output :=
                   match answer with
                   | inr result => JSON_stringify_pretty result
                   | inl thrown =>
                       JSON_stringify
                         (JObj [("error",
                                 JStr ("Failed to call tool "
                                       +:+ tool_name (tool entry) +:+ ": "
                                       +:+ match thrown with
                                           | Some message => message
                                           | None => "Unknown error"
                                           end))])
                   end |}).
Proof.
  intros m Hids Hfn Hparse.
  unfold convertMCPToolsToOpenRouterFormat in Hfn.
  apply list_elem_of_In, in_map_iff in Hfn as (entry & <- & Hentry).
  apply list_elem_of_In in Hentry.
  assert (Hreg : registry_connected m)
    by apply run_registry_connected, startup_registry_connected.
  destruct (catalog_entry_owner m entry Hreg Hentry) as (owner & Hkc & Hget & Ht).
  assert (Hown : conn_id owner = connectionId entry).
  { destruct Hreg as [_ Hall]. rewrite Forall_forall in Hall.
    now destruct (Hall _ Hkc). }
  rewrite forallb_forall in Hids.
  pose proof (Hids _ (proj1 (list_elem_of_In _ _) Hkc)) as Hid.
  simpl in Hid. apply negb_true_iff in Hid.
  exists entry, owner. cbn [function_name].
  split; [assumption|]. split; [reflexivity|].
  split; [now apply roundtrip_without_underscore|].
  split; [assumption|]. split; [assumption|]. split; [assumption|].
  now apply executeTool_dispatch.
Qed.

Lemma catalog_call_reaches_owner_witness :
  exists entry owner,
    entry ∈ getAllTools sample_manager
    /\ "id-1__search"
       = compose_name (connectionId entry) (tool_name (tool entry))
    /\ decompose_name "id-1__search"
       = (connectionId entry, tool_name (tool entry))
    /\ getConnection sample_manager (connectionId entry) = Some owner
    /\ conn_id owner = connectionId entry
    /\ tool entry ∈ conn_tools owner
    /\ executeTool unit demo_callTool demo_parse demo_stringify demo_stringify
         tt sample_manager
         {| call_id := "call-1"; call_name := "id-1__search";
            call_arguments := "{}" |}
       = let '(w', answer) :=
           demo_callTool tt (conn_client owner) (tool_name (tool entry))
             (JObj []) in
         (w', {| result_tool_call_id := "call-1";
                 result_name := "id-1__search";
                 output :=
                   match answer with
                   | inr result => demo_stringify result
                   | inl thrown =>
                       demo_stringify
                         (JObj [("error",
                                 JStr ("Failed to call tool "
                                       +:+ tool_name (tool entry) +:+ ": "
                                       +:+ match thrown with
                                           | Some message => message
                                           | None => "Unknown error"
                                           end))])
                   end |}).
Proof.
  apply (catalog_call_reaches_owner unit demo_callTool demo_parse demo_stringify
           demo_stringify ∅ ∅ sample_history tt
           {| function_name := "id-1__search";
              function_description := "Search the index";
              parameters := [("type", JStr "object"); ("properties", JObj [])] |}
           "call-1" "{}" (JObj [])).
  - reflexivity.
  - apply list_elem_of_In. vm_compute. left. reflexivity.
  - reflexivity.
Defined.

(* ================================================================== *)
(** * Further properties: the [required] list of a sanitized schema *)
(* ================================================================== *)

(** [Set] only ever appends: folding more values into it keeps what it
    holds, in place, and what it adds comes from those values. *)
Lemma fold_set_add_appends (values acc : list json) :
  exists added,
    fold_left set_add values acc = acc ++ added
    /\ Forall (fun x => x ∈ values) added.
Proof.
  revert acc. induction values as [|v l IH]; intros acc.
  - exists []. split; [now rewrite app_nil_r | constructor].
  - simpl. destruct (IH (set_add acc v)) as (added & -> & Hadded).
    assert (Hl : Forall (fun x => x ∈ v :: l) added).
    { eapply Forall_impl; [exact Hadded|]. intros x Hx.
      apply elem_of_cons. now right. }
    unfold set_add. destruct (existsb (same_value_zero v) acc).
    + now exists added.
    + exists (v :: added). split; [now rewrite <- app_assoc|].
      constructor; [|exact Hl]. apply elem_of_cons. now left.
Qed.

(** When the root schema (with distinct keys) gives [required] as an
    array, the sanitized schema gives it too, with the later duplicates
    removed and nothing else changed.  No entry of the result is equal
    (in the sense of [Set]) to an earlier one; and however the original
    list is cut in two, the result is cut in two with it: first what is
    kept of the first part -- entries of that part, to which every entry
    of that part is equal -- and then entries of the second part.  So the
    entries keep the order of their first occurrences, and nothing is
    added. *)
Theorem required_without_duplicates (schema : obj) (values : list json) :
  NoDup (keys schema) ->
  obj_get schema "required" = Some (JArr values) ->
  exists kept,
    obj_get (sanitizeSchema schema) "required" = Some (JArr kept)
    /\ distinct kept
    /\ forall before after,
         values = before ++ after ->
         exists first rest,
           kept = first ++ rest
           /\ Forall (fun x => x ∈ before) first
           /\ Forall (fun x => x ∈ first
                               \/ existsb (same_value_zero x) first = true)
                before
           /\ Forall (fun x => x ∈ after) rest.
Proof.
  intros Hschema Hget. exists (dedupe values). split.
  - assert (H1 : obj_get (sanitizeSchemaDefinition (JObj schema)) "required"
                 = Some (JArr (dedupe values))).
    { rewrite sanitizeSchemaDefinition_obj.
      rewrite assign_all_well_keyed by now apply well_keyed_kept.
      now rewrite (obj_get_kept schema "required" (JArr values) eq_refl Hget). }
    unfold sanitizeSchema.
    set (s1 := sanitizeSchemaDefinition (JObj schema)) in *.
    assert (H2 : obj_get (if negb (truthy_prop s1 "type")
                          then obj_assign s1 "type" (JStr "object") else s1)
                   "required"
                 = Some (JArr (dedupe values))).
    { destruct (negb (truthy_prop s1 "type")); [|exact H1].
      now rewrite obj_get_assign_ne. }
    set (s2 := if negb (truthy_prop s1 "type") then _ else s1) in *.
    destruct (_ && _); [|exact H2].
    now rewrite obj_get_assign_ne.
  - split; [apply distinct_fold; constructor|].
    intros before after ->. unfold dedupe. rewrite fold_left_app.
    destruct (fold_set_add_appends after (fold_left set_add before []))
      as (rest & -> & Hrest).
    exists (fold_left set_add before []), rest.
    split; [reflexivity|]. split; [|split; [|exact Hrest]].
    + apply Forall_forall. intros x Hx.
      destruct (elem_of_fold_set_add _ _ _ Hx) as [Hn|?]; [|assumption].
      now apply elem_of_nil in Hn.
    + apply Forall_forall. intros x Hx. now apply fold_set_add_covers.
Qed.

Lemma required_without_duplicates_witness :
  exists kept,
    obj_get
      (sanitizeSchema
         [ ("type", JStr "object");
           ("required", JArr [JStr "q"; JStr "limit"; JStr "q"]) ])
      "required"
    = Some (JArr kept)
    /\ distinct kept
    /\ forall before after,
         [JStr "q"; JStr "limit"; JStr "q"] = before ++ after ->
         exists first rest,
           kept = first ++ rest
           /\ Forall (fun x => x ∈ before) first
           /\ Forall (fun x => x ∈ first
                               \/ existsb (same_value_zero x) first = true)
                before
           /\ Forall (fun x => x ∈ after) rest.
Proof.
  apply (required_without_duplicates
           [ ("type", JStr "object");
             ("required", JArr [JStr "q"; JStr "limit"; JStr "q"]) ]
           [JStr "q"; JStr "limit"; JStr "q"]).
  - refine (bool_decide_unpack _ _). vm_compute. exact I.
  - reflexivity.
Defined.

Example required_keeps_first_occurrences :
  obj_get
    (sanitizeSchema
       [ ("type", JStr "object");
         ("required", JArr [JStr "q"; JStr "limit"; JStr "q"]) ])
    "required"
  = Some (JArr [JStr "q"; JStr "limit"]).
Proof. reflexivity. Qed.
